(** * web-drumkit: trigger engine, beat scheduler and binding resolver

    A shallow embedding of the three stateful cores of the repository:

    - [Sampler]      the trigger engine of [src/audio/sampler.ts];
    - [Metronome]    the beat scheduler of [src/audio/metronome.ts];
    - [MidiSampler]  the binding resolver that lives inside the React
                     component [src/components/MidiSampler.tsx];

    and of the panel that drives the scheduler, [MetronomePanel]
    ([src/components/Metronome.tsx]).

    Module-level [let] variables of the TypeScript sources become fields of
    a [State] record that every function takes and returns.  Calls into
    Tone.js are recorded as a log of [Call]s, so that the order in which the
    audio backend is driven can be stated.  What the environment decides
    (does the browser unlock audio, does the sample set decode, what
    [Tone.immediate()] returns) is an explicit argument of the function that
    awaits it.

    Numbers: MIDI data (note numbers, controller numbers, values) are
    naturals [N]; counters and the beats-per-bar argument are integers [Z]
    (on which [Math.floor] and [Math.round] are the identity); gains, times
    and volumes are exact rationals [Q] standing for the doubles of the
    source. *)

From Stdlib Require Import ZArith NArith QArith Qminmax Lia Lqa.
From Stdlib Require Import Ascii String DecimalString DecimalN.
From stdpp Require Import gmap strings list fin_maps sorting.

Close Scope Q_scope.
Local Open Scope Z_scope.

(** ** The JavaScript values whose truthiness the sources test *)

Inductive JsValue :=
| JsUndefined
| JsBool (b : bool).

Definition truthy (v : JsValue) : bool :=
  match v with
  | JsUndefined => false
  | JsBool b => b
  end.

(** How a call ends: with a value, or by throwing (rejecting). *)
Inductive Completion (A : Type) :=
| Normal (a : A)
| Throw.
Arguments Normal {A} a.
Arguments Throw {A}.

(** [Math.floor] and [Math.round] on the integers, where they change
    nothing. *)
Definition Math_floor (x : Z) : Z := x.
Definition Math_round (x : Z) : Z := x.

(** [Math.max(lo, Math.min(hi, x))] on integers and on rationals. *)
Definition clampZ (lo hi x : Z) : Z := Z.max lo (Z.min hi x).
Definition clampQ (lo hi x : Q) : Q := Qmax lo (Qmin hi x).

(** The shared Tone.js audio context: only whether it is running. *)
Record AudioContext := { ctxRunning : bool }.

(* ===================================================================== *)
(** * The trigger engine ([src/audio/sampler.ts]) *)
(* ===================================================================== *)

Module Sampler.

(** Note names of the sample set; [Ds2] is D#2 and so on. *)
Inductive NoteName :=
| C2 | D2 | Ds2 | Fs2 | Gs2 | As2 | Cs3 | Cs4 | Ds3 | C3 | A2 | F2.

Inductive DrumPad :=
| Kick | Snare | Stick | HiHatClosed | HiHatOpen | HiHatPedal
| Crash | Ride | TomHigh | TomMid | TomFloor.

#[global] Instance NoteName_eq_dec : EqDecision NoteName.
Proof. solve_decision. Defined.
#[global] Instance DrumPad_eq_dec : EqDecision DrumPad.
Proof. solve_decision. Defined.

(** [PAD_TO_MIDI], with the numbers of the [MidiDrum] enum. *)
Definition PAD_TO_MIDI (pad : DrumPad) : N :=
  match pad with
  | Kick => 36 | Snare => 38 | Stick => 37
  | HiHatClosed => 42 | HiHatPedal => 44 | HiHatOpen => 46
  | Crash => 49 | Ride => 51
  | TomHigh => 48 | TomMid => 45 | TomFloor => 41
  end%N.

(** The key order of the [PAD_TO_MIDI] object literal. *)
Definition PAD_TO_MIDI_keys : list DrumPad :=
  [Kick; Snare; Stick; HiHatClosed; HiHatPedal; HiHatOpen;
   Crash; Ride; TomHigh; TomMid; TomFloor].

(** [Object.fromEntries]: later entries overwrite earlier ones. *)
Definition fromEntries {V : Type} (es : list (N * V)) : gmap N V :=
  foldl (fun acc e => <[e.1 := e.2]> acc) ∅ es.

Definition MIDI_TO_PAD : gmap N DrumPad :=
  fromEntries (map (fun pad => (PAD_TO_MIDI pad, pad)) PAD_TO_MIDI_keys).

Definition midiNoteToPad (noteNumber : N) : option DrumPad :=
  MIDI_TO_PAD !! noteNumber.

(** [BASIC_MAP_PAD] has no entry for [Crash] and [HiHatPedal]. *)
Definition BASIC_MAP_PAD (pad : DrumPad) : option NoteName :=
  match pad with
  | Kick => Some C2 | Snare => Some D2 | Stick => Some Ds2
  | HiHatClosed => Some Fs2 | HiHatOpen => Some As2
  | Ride => Some Ds3
  | TomHigh => Some C3 | TomMid => Some A2 | TomFloor => Some F2
  | Crash | HiHatPedal => None
  end.

Definition padToNoteName (pad : DrumPad) : option NoteName :=
  if decide (pad = Crash) then Some Cs3 else BASIC_MAP_PAD pad.

Inductive Voice :=
| kick | snare | hhClosed | hhOpen | hhPedal | crash | ride
| tomHigh | tomMid | tomFloor.

Definition padToVoice (pad : DrumPad) : Voice :=
  match pad with
  | Kick => kick
  | Snare => snare
  | HiHatOpen => hhOpen
  | HiHatClosed => hhClosed
  | HiHatPedal => hhPedal
  | Crash => crash
  | Ride => ride
  | TomHigh => tomHigh
  | TomMid => tomMid
  | TomFloor => tomFloor
  | Stick => snare
  end.

Definition PAD_LABELS (pad : DrumPad) : string :=
  match pad with
  | Kick => "Kick" | Snare => "Snare" | Stick => "Stick"
  | HiHatClosed => "HH Close" | HiHatPedal => "HH Pedal"
  | HiHatOpen => "HH Open"
  | Crash => "Crash" | Ride => "Ride"
  | TomHigh => "Tom H" | TomMid => "Tom M" | TomFloor => "Tom F"
  end.

Record PadInfo := { pad : DrumPad; midi : N; label : string }.

Definition listDrumPads : list PadInfo :=
  map (fun p => {| pad := p; midi := PAD_TO_MIDI p; label := PAD_LABELS p |})
      [Kick; Snare; Stick; HiHatClosed; HiHatPedal; HiHatOpen;
       Crash; Ride; TomHigh; TomMid; TomFloor].

(** Hi-hat timing constants, in seconds. *)
Definition HH_OPEN_DEFAULT : Q := 9 # 10.
Definition HH_CLOSED_RELEASE : Q := 16 # 100.
Definition HH_PEDAL_RELEASE : Q := 1 # 10.

(** *** The audio backend as a log of calls

    A sounding object is a note of the [Tone.Sampler] or one synth of the
    fallback bus. *)
Inductive Source :=
| SamplerNote (n : NoteName)
| BusKick | BusSnare | BusHat | BusCym
| BusTomHigh | BusTomMid | BusTomFloor.

#[global] Instance Source_eq_dec : EqDecision Source.
Proof. solve_decision. Defined.

(** Durations are seconds or Tone.js note-length notation. *)
Inductive Duration :=
| Seconds (s : Q)
| Note2n | Note8n | Note16n.

Inductive Call :=
| triggerAttack (src : Source) (time vel : Q)
| triggerRelease (src : Source) (time : Q)
| triggerAttackRelease (src : Source) (freq : option Z) (dur : Duration)
                       (time vel : Q)
| setEnvelopeDecay (src : Source) (decay : Q).

(** *** Module state *)

(** How the one sample-set load ends: decoded, [onerror], or the
    [Tone.Sampler] constructor throws. *)
Inductive LoadOutcome := LoadOk | LoadError | CtorThrows.

Record State := mkState {
  configured : bool;          (* toneConfig.ts *)
  loaded : option bool;       (* the memoised promise; [Some true]: it
                                 resolved with the sampler, [Some false]:
                                 its [catch] handler ran *)
  sampler : bool;             (* [sampler] is non-null *)
  useSynthFallback : bool;
  synthBus : bool;            (* [synthBus] is non-null *)
  hiHatOpenLevel : Q
}.

Definition init : State :=
  {| configured := false; loaded := None; sampler := false;
     useSynthFallback := false; synthBus := false; hiHatOpenLevel := 0 |}.

Definition set_configured (v : bool) (s : State) : State :=
  mkState v (loaded s) (sampler s) (useSynthFallback s) (synthBus s)
          (hiHatOpenLevel s).
Definition set_loaded (v : option bool) (s : State) : State :=
  mkState (configured s) v (sampler s) (useSynthFallback s) (synthBus s)
          (hiHatOpenLevel s).
Definition set_sampler (v : bool) (s : State) : State :=
  mkState (configured s) (loaded s) v (useSynthFallback s) (synthBus s)
          (hiHatOpenLevel s).
Definition set_useSynthFallback (v : bool) (s : State) : State :=
  mkState (configured s) (loaded s) (sampler s) v (synthBus s)
          (hiHatOpenLevel s).
Definition set_synthBus (v : bool) (s : State) : State :=
  mkState (configured s) (loaded s) (sampler s) (useSynthFallback s) v
          (hiHatOpenLevel s).
Definition set_hiHatOpenLevel (v : Q) (s : State) : State :=
  mkState (configured s) (loaded s) (sampler s) (useSynthFallback s)
          (synthBus s) v.

Definition setHiHatOpenByCC4 (value : N) (s : State) : State :=
  set_hiHatOpenLevel (clampQ 0 1 (inject_Z (Z.of_N value) / 127)%Q) s.

(** [ensureAudioStarted] has no [return]: it completes with [undefined]
    whether or not [Tone.start()] succeeded, the rejection being caught
    inside.  [unlockOk] says whether [Tone.start()] resolves. *)
Definition ensureAudioStarted (unlockOk : bool) (ctx : AudioContext)
  : Completion JsValue * AudioContext :=
  if negb (ctxRunning ctx) then
    (Normal JsUndefined, {| ctxRunning := unlockOk |})
  else (Normal JsUndefined, ctx).

Definition configureLowLatencyTone (s : State) : State :=
  if configured s then s else set_configured true s.

Definition ensureSynth (s : State) : State :=
  if synthBus s then s else set_synthBus true s.

Definition isUsingFallback (s : State) : bool := useSynthFallback s.

(** [getDrumSampler], awaited.  [outcome] is consulted only when this call
    is the one that creates the promise. *)
Definition getDrumSampler (outcome : LoadOutcome) (s : State) : State :=
  let s := configureLowLatencyTone s in
  if useSynthFallback s then ensureSynth s
  else match loaded s with
       | Some _ => s
       | None =>
           match outcome with
           | LoadOk => set_loaded (Some true) (set_sampler true s)
           | LoadError =>
               ensureSynth (set_useSynthFallback true
                              (set_loaded (Some false) (set_sampler true s)))
           | CtorThrows =>
               ensureSynth (set_useSynthFallback true
                              (set_loaded (Some false) s))
           end
       end.

Definition chokeOpenHiHat (now : Q) (s : State) : State * list Call :=
  if useSynthFallback s then
    (ensureSynth s, [triggerRelease BusHat now])
  else if sampler s then (s, [triggerRelease (SamplerNote As2) now])
  else (s, []).

Definition chokeHiHatAll (now : Q) (s : State) : State * list Call :=
  if useSynthFallback s then
    (ensureSynth s, [triggerRelease BusHat now])
  else if sampler s then
    (s, [triggerRelease (SamplerNote As2) now;
         triggerRelease (SamplerNote Fs2) now])
  else (s, []).

(** The fallback branch of [triggerPad]: the [switch] over the voice. *)
Definition synthCalls (voice : Voice) (now vel : Q) : list Call :=
  (match voice with
   | kick => [triggerAttackRelease BusKick (Some 50%Z) Note8n now vel]
   | snare => [triggerAttackRelease BusSnare None Note16n now vel]
   | hhOpen =>
       let decay := HH_OPEN_DEFAULT in
       [setEnvelopeDecay BusHat decay;
        triggerAttackRelease BusHat None (Seconds decay) now
                             ((1 # 2) + vel * (1 # 2))]
   | hhClosed | hhPedal =>
       let decay := HH_CLOSED_RELEASE in
       [setEnvelopeDecay BusHat decay;
        triggerAttackRelease BusHat None (Seconds decay) now
                             ((2 # 5) + vel * (3 # 5))]
   | crash =>
       [setEnvelopeDecay BusCym (16 # 10);
        triggerAttackRelease BusCym None Note2n now ((2 # 5) + vel * (3 # 5))]
   | ride =>
       [setEnvelopeDecay BusCym (6 # 10);
        triggerAttackRelease BusCym None Note8n now ((2 # 5) + vel * (3 # 5))]
   | tomHigh => [triggerAttackRelease BusTomHigh (Some 220%Z) Note8n now vel]
   | tomMid => [triggerAttackRelease BusTomMid (Some 180%Z) Note8n now vel]
   | tomFloor => [triggerAttackRelease BusTomFloor (Some 140%Z) Note8n now vel]
   end)%Q.

(** The sample branch of [triggerPad].  Every call dereferences
    [sampler!]; it is non-null whenever this branch runs after an awaited
    [getDrumSampler], and a null sampler makes the call throw. *)
Definition sampleCalls (pad : DrumPad) (now vel : Q) : option (list Call) :=
  if decide (pad = HiHatClosed) then
    Some [triggerAttack (SamplerNote Fs2) now vel;
          triggerRelease (SamplerNote Fs2) (now + HH_CLOSED_RELEASE)%Q]
  else if decide (pad = HiHatOpen) then
    Some [triggerAttack (SamplerNote As2) now vel]
  else if decide (pad = HiHatPedal) then
    Some [triggerAttack (SamplerNote Gs2) now vel;
          triggerRelease (SamplerNote Gs2) (now + HH_CLOSED_RELEASE)%Q]
  else
    match padToNoteName pad with
    | Some noteName => Some [triggerAttack (SamplerNote noteName) now vel]
    | None => None
    end.

Definition isHiHat (pad : DrumPad) : bool :=
  bool_decide (pad = HiHatClosed) || bool_decide (pad = HiHatOpen)
  || bool_decide (pad = HiHatPedal).

(** [triggerPad].  [unlockOk] and [outcome] answer the two awaits, [now] is
    what [Tone.immediate()] returns, the same for the choke and for the
    hit that follows it in the same turn; the result carries the calls
    made on the audio backend, in order. *)
Definition triggerPad (pad : DrumPad) (velocity : N)
    (unlockOk : bool) (outcome : LoadOutcome) (now : Q)
    (ctx : AudioContext) (s : State)
  : AudioContext * State * Completion (list Call) :=
  let vel := clampQ 0 1 (inject_Z (Z.of_N velocity) / 127)%Q in
  let ctx := (ensureAudioStarted unlockOk ctx).2 in
  let s := getDrumSampler outcome s in
  let '(s, choke) := if isHiHat pad then chokeHiHatAll now s else (s, []) in
  if useSynthFallback s then
    let voice := padToVoice pad in
    let s := ensureSynth s in
    (ctx, s, Normal (choke ++ synthCalls voice now vel))
  else if sampler s then
    match sampleCalls pad now vel with
    | Some cs => (ctx, s, Normal (choke ++ cs))
    | None => (ctx, s, Throw)
    end
  else (ctx, s, Throw).

Definition triggerMidi (noteNumber velocity : N)
    (unlockOk : bool) (outcome : LoadOutcome) (now : Q)
    (ctx : AudioContext) (s : State)
  : AudioContext * State * Completion (list Call) :=
  match midiNoteToPad noteNumber with
  | None => (ctx, s, Normal [])
  | Some pad => triggerPad pad velocity unlockOk outcome now ctx s
  end.

(** *** Reading the call log

    A source rings at time [t] when an attack at or before [t] has no
    release, issued with or after that attack, that falls between the
    attack and [t].  A [triggerAttackRelease] with a duration in seconds
    schedules its own release; one in note-length notation is read as
    still held. *)
Definition attackOf (c : Call) : option (Source * Q) :=
  match c with
  | triggerAttack src t _ => Some (src, t)
  | triggerAttackRelease src _ _ t _ => Some (src, t)
  | _ => None
  end.

Definition releaseOf (c : Call) : option (Source * Q) :=
  match c with
  | triggerRelease src t => Some (src, t)
  | triggerAttackRelease src _ (Seconds d) t _ => Some (src, (t + d)%Q)
  | _ => None
  end.

Definition releasedWithin (log : list Call) (src : Source) (t0 t : Q) : bool :=
  existsb (fun c => match releaseOf c with
                    | Some (src', tr) =>
                        bool_decide (src' = src) && Qle_bool t0 tr
                        && Qle_bool tr t
                    | None => false
                    end) log.

Fixpoint ringingAt (log : list Call) (t : Q) (src : Source) : bool :=
  match log with
  | [] => false
  | c :: rest =>
      match attackOf c with
      | Some (src', t0) =>
          bool_decide (src' = src) && Qle_bool t0 t
          && negb (releasedWithin log src t0 t)
      | None => false
      end
      || ringingAt rest t src
  end.

(** The calls that precede the first attack of a hit. *)
Fixpoint beforeAttack (cs : list Call) : list Call :=
  match cs with
  | [] => []
  | c :: cs' =>
      match attackOf c with
      | Some _ => []
      | None => c :: beforeAttack cs'
      end
  end.

(** [chokedBy cs t src]: the hit [cs], made at time [t], releases [src] at
    [t] before its own attack. *)
Definition chokedBy (cs : list Call) (t : Q) (src : Source) : bool :=
  existsb (fun c => match c with
                    | triggerRelease src' t' =>
                        bool_decide (src' = src) && Qeq_bool t' t
                    | _ => false
                    end) (beforeAttack cs).

Definition allSources : list Source :=
  map SamplerNote [C2; D2; Ds2; Fs2; Gs2; As2; Cs3; Cs4; Ds3; C3; A2; F2]
  ++ [BusKick; BusSnare; BusHat; BusCym; BusTomHigh; BusTomMid; BusTomFloor].

(** Two hits in a row on an engine that is ready: [first] at time [t1]
    with velocity [v1], [second] at time [t2] with velocity [v2].  The
    result says whether every source that the first hit leaves ringing at
    [t2] is choked by the second. *)
Definition chokeHolds (first second : DrumPad) (v1 v2 : N) (t1 t2 : Q)
    (ctx : AudioContext) (s : State) : option bool :=
  let '(ctx1, s1, r1) := triggerPad first v1 true LoadOk t1 ctx s in
  let '(_, _, r2) := triggerPad second v2 true LoadOk t2 ctx1 s1 in
  match r1, r2 with
  | Normal cs1, Normal cs2 =>
      Some (forallb (fun src => implb (ringingAt cs1 t2 src)
                                      (chokedBy cs2 t2 src)) allSources)
  | _, _ => None
  end.

(** *** The module as a transition system: its exported functions *)
Inductive Op :=
| EnsureAudioStarted (unlockOk : bool)
| GetDrumSampler (outcome : LoadOutcome)
| TriggerPad (pad : DrumPad) (velocity : N)
             (unlockOk : bool) (outcome : LoadOutcome) (now : Q)
| TriggerMidiNote (noteNumber velocity : N)
                  (unlockOk : bool) (outcome : LoadOutcome) (now : Q)
| SetHiHatOpenByCC4 (value : N)
| IsUsingFallback
| MidiNoteToPad (noteNumber : N)
| ListDrumPads.

Definition apply (op : Op) (w : AudioContext * State) : AudioContext * State :=
  let '(ctx, s) := w in
  match op with
  | EnsureAudioStarted u => ((ensureAudioStarted u ctx).2, s)
  | GetDrumSampler o => (ctx, getDrumSampler o s)
  | TriggerPad p v u o now => (triggerPad p v u o now ctx s).1
  | TriggerMidiNote n v u o now => (triggerMidi n v u o now ctx s).1
  | SetHiHatOpenByCC4 v => (ctx, setHiHatOpenByCC4 v s)
  | IsUsingFallback | MidiNoteToPad _ | ListDrumPads => (ctx, s)
  end.

Definition run (ops : list Op) (w : AudioContext * State)
  : AudioContext * State :=
  foldl (fun w op => apply op w) w ops.

(** The engine mode of the specification. *)
Inductive EngineMode := Sampled | SynthesizedFallback.

Definition mode (s : State) : EngineMode :=
  if isUsingFallback s then SynthesizedFallback else Sampled.

(** *** Reading single calls *)

(** The gain a call plays at, and the source it drives. *)
Definition gainOf (c : Call) : option Q :=
  match c with
  | triggerAttack _ _ vel => Some vel
  | triggerAttackRelease _ _ _ _ vel => Some vel
  | _ => None
  end.

Definition sourceOf (c : Call) : Source :=
  match c with
  | triggerAttack src _ _ => src
  | triggerRelease src _ => src
  | triggerAttackRelease src _ _ _ _ => src
  | setEnvelopeDecay src _ => src
  end.

(** The sources the three hi-hat pads sound on. *)
Definition isHiHatSource (src : Source) : bool :=
  match src with
  | SamplerNote As2 | SamplerNote Fs2 | SamplerNote Gs2 | BusHat => true
  | _ => false
  end.

Definition isAttack (c : Call) : bool :=
  match c with
  | triggerAttack _ _ _ => true
  | _ => false
  end.

Definition isRelease (c : Call) : bool :=
  match c with
  | triggerRelease _ _ => true
  | _ => false
  end.

(** [velocity / 127], clamped: the gain [triggerPad] starts from. *)
Definition normalized (velocity : N) : Q :=
  clampQ 0 1 (inject_Z (Z.of_N velocity) / 127)%Q.

(** Outside fallback mode, a load that was attempted left a sampler. *)
Definition coherent (s : State) : Prop :=
  useSynthFallback s = false -> is_Some (loaded s) -> sampler s = true.

End Sampler.

(* ===================================================================== *)
(** * The beat scheduler ([src/audio/metronome.ts]) *)
(* ===================================================================== *)

Module Metronome.

(** What one run of the loop callback does to the outside: one click on
    [clickHigh] (1200 Hz) or [clickLow] (800 Hz) with its gain, and the
    call of the subscriber, if there is one. *)
Inductive Event :=
| ClickHigh (gain : Q)
| ClickLow (gain : Q)
| Notify (subscriber : nat) (beatIndex barIndex : Z).

Record State := mkState {
  initialized : bool;
  sub : option nat;            (* the subscriber, by an identifier *)
  beatsPerBar : Z;
  bpm : Z;
  isRunning : bool;
  currentBeat : Z;
  currentBar : Z;
  accents : list bool;
  volumes : list Q;
  loopStarted : bool;          (* [loop] between [start(0)] and [stop()] *)
  transportStarted : bool;     (* [Tone.Transport] *)
  transportBpm : Z;
  timeSignature : Z
}.

(** The values of the module-level declarations. [Tone.Transport] starts
    at 120 bpm in 4/4. *)
Definition initial : State :=
  {| initialized := false; sub := None; beatsPerBar := 4; bpm := 100;
     isRunning := false; currentBeat := 0; currentBar := 0;
     accents := <[0%nat := true]> (replicate 4 false);
     volumes := replicate 4 1%Q;
     loopStarted := false; transportStarted := false;
     transportBpm := 120; timeSignature := 4 |}.

Definition set_sub v s :=
  mkState (initialized s) v (beatsPerBar s) (bpm s) (isRunning s)
    (currentBeat s) (currentBar s) (accents s) (volumes s) (loopStarted s)
    (transportStarted s) (transportBpm s) (timeSignature s).
Definition set_bpm v s :=
  mkState (initialized s) (sub s) (beatsPerBar s) v (isRunning s)
    (currentBeat s) (currentBar s) (accents s) (volumes s) (loopStarted s)
    (transportStarted s) v (timeSignature s).
Definition set_counters beat bar s :=
  mkState (initialized s) (sub s) (beatsPerBar s) (bpm s) (isRunning s)
    beat bar (accents s) (volumes s) (loopStarted s)
    (transportStarted s) (transportBpm s) (timeSignature s).
Definition set_accents v s :=
  mkState (initialized s) (sub s) (beatsPerBar s) (bpm s) (isRunning s)
    (currentBeat s) (currentBar s) v (volumes s) (loopStarted s)
    (transportStarted s) (transportBpm s) (timeSignature s).
Definition set_volumes v s :=
  mkState (initialized s) (sub s) (beatsPerBar s) (bpm s) (isRunning s)
    (currentBeat s) (currentBar s) (accents s) v (loopStarted s)
    (transportStarted s) (transportBpm s) (timeSignature s).
Definition set_running v s :=
  mkState (initialized s) (sub s) (beatsPerBar s) (bpm s) v
    (currentBeat s) (currentBar s) (accents s) (volumes s) v v
    (transportBpm s) (timeSignature s).

(** [init]: builds the synths and the loop once, and copies tempo and
    signature to the transport. *)
Definition init (s : State) : State :=
  if initialized s then s
  else mkState true (sub s) (beatsPerBar s) (bpm s) (isRunning s)
         (currentBeat s) (currentBar s) (accents s) (volumes s)
         (loopStarted s) (transportStarted s) (bpm s) (beatsPerBar s).

(** [arr[i]] for an integer [i]: [None] stands for [undefined]. *)
Definition at_ {A : Type} (arr : list A) (i : Z) : option A :=
  if decide (0 <= i) then arr !! Z.to_nat i else None.

(** The callback given to [Tone.Loop]: one tick.  [%] of the source is the
    truncating remainder [Z.rem] ([beatsPerBar] is never 0: it starts at 4
    and only [setBeatsPerBar] writes it); a missing array slot reads as
    [undefined], falsy for the accent and replaced by 1 for the volume. *)
Definition loopCallback (s : State) : State * list Event :=
  let beatInBar := Z.rem (currentBeat s) (beatsPerBar s) in
  let vol := clampQ 0 1 (default 1%Q (at_ (volumes s) beatInBar)) in
  let click :=
    if default false (at_ (accents s) beatInBar)
    then ClickHigh ((9 # 10) * vol)%Q
    else ClickLow ((6 # 10) * vol)%Q in
  let bar := if decide (beatInBar = 0) then currentBar s + 1
             else currentBar s in
  let notify := match sub s with
                | Some f => [Notify f beatInBar bar]
                | None => []
                end in
  (set_counters (currentBeat s + 1) bar s, click :: notify).

(** [n] ticks in a row, with everything they emit. *)
Fixpoint ticks (n : nat) (s : State) : State * list Event :=
  match n with
  | O => (s, [])
  | S n' =>
      let '(s1, es1) := loopCallback s in
      let '(s2, es2) := ticks n' s1 in
      (s2, es1 ++ es2)
  end.

(** [start].  [const ready = await ensureAudioStarted(); if (!ready)
    return;] sits in a [try] whose [catch] is empty, so a rejection falls
    through to the start-up code below it. *)
Definition start (unlockOk : bool) (ctx : AudioContext) (s : State)
  : AudioContext * State :=
  let '(r, ctx) := Sampler.ensureAudioStarted unlockOk ctx in
  let go := set_running true (set_counters 0 0 (init s)) in
  match r with
  | Normal ready => if negb (truthy ready) then (ctx, s) else (ctx, go)
  | Throw => (ctx, go)
  end.

Definition stop (s : State) : State :=
  if negb (initialized s) then s else set_running false s.

Definition toggle (unlockOk : bool) (ctx : AudioContext) (s : State)
  : AudioContext * State :=
  if isRunning s then (ctx, stop s) else start unlockOk ctx s.

Definition setBpm (next : Z) (s : State) : State :=
  set_bpm (clampZ 30 300 (Math_round next)) s.

(** The resize loops: [dst[i] = src[i]] for [i] from 0 up to [n - 1]. *)
Definition copyPrefix {A : Type} (src dst : list A) (n : nat) : list A :=
  foldl (fun acc i => match src !! i with
                      | Some x => <[i := x]> acc
                      | None => acc
                      end) dst (seq 0 n).

Definition setBeatsPerBar (next : Z) (s : State) : State :=
  let b := clampZ 1 12 (Math_floor next) in
  let n := Z.to_nat b in
  let newAccents :=
    copyPrefix (accents s) (replicate n false) (min (length (accents s)) n) in
  let newVolumes :=
    copyPrefix (volumes s) (replicate n 1%Q) (min (length (volumes s)) n) in
  mkState (initialized s) (sub s) b (bpm s) (isRunning s)
    (currentBeat s) (currentBar s) newAccents newVolumes (loopStarted s)
    (transportStarted s) (transportBpm s) b.

Definition onTick (fn : option nat) (s : State) : State := set_sub fn s.

(** The single-beat mutators clamp the index into [0, beatsPerBar - 1],
    which is inside the arrays as long as their length is [beatsPerBar]. *)
Definition beatIdx (beatIndex : Z) (s : State) : nat :=
  Z.to_nat (clampZ 0 (beatsPerBar s - 1) (Math_floor beatIndex)).

Definition setAccentForBeat (beatIndex : Z) (v : bool) (s : State) : State :=
  set_accents (<[beatIdx beatIndex s := v]> (accents s)) s.

Definition toggleAccentForBeat (beatIndex : Z) (s : State) : State :=
  let idx := beatIdx beatIndex s in
  set_accents
    (<[idx := negb (default false (accents s !! idx))]> (accents s)) s.

Definition setAccents (values : list bool) (s : State) : State :=
  let n := Z.to_nat (beatsPerBar s) in
  set_accents (copyPrefix values (replicate n false) (min (length values) n)) s.

Definition setVolumeForBeat (beatIndex : Z) (value : Q) (s : State) : State :=
  set_volumes (<[beatIdx beatIndex s := clampQ 0 1 value]> (volumes s)) s.

Definition setVolumes (values : list Q) (s : State) : State :=
  let n := Z.to_nat (beatsPerBar s) in
  set_volumes (copyPrefix (map (clampQ 0 1) values) (replicate n 1%Q)
                 (min (length values) n)) s.

(** The subscriber's view of a run: the [(beatInBar, barIndex)] pairs. *)
Definition notifications (es : list Event) : list (Z * Z) :=
  omap (fun e => match e with
                 | Notify _ b r => Some (b, r)
                 | _ => None
                 end) es.

(** The beat-in-bar that the next tick reports, and the bar counter it
    leaves behind. *)
Definition beatOf (s : State) : Z := Z.rem (currentBeat s) (beatsPerBar s).

Definition barAfter (s : State) : Z :=
  if decide (beatOf s = 0) then currentBar s + 1 else currentBar s.

(** What [n] ticks report, from the counters alone. *)
Fixpoint counts (n : nat) (beat bar bpb : Z) : list (Z * Z) :=
  match n with
  | O => []
  | S n' =>
      let b := Z.rem beat bpb in
      let bar' := if decide (b = 0) then bar + 1 else bar in
      (b, bar') :: counts n' (beat + 1) bar' bpb
  end.

(** [getState]: a snapshot of five of the variables; the arrays are
    copies. *)
Record Snapshot := mkSnapshot {
  snap_bpm : Z;
  snap_beatsPerBar : Z;
  snap_isRunning : bool;
  snap_accents : list bool;
  snap_volumes : list Q
}.

Definition getState (s : State) : Snapshot :=
  mkSnapshot (bpm s) (beatsPerBar s) (isRunning s) (accents s) (volumes s).

(** *** Sessions

    What can happen to the module: a call of one of its exports, or the
    transport running the loop callback, which it does only while the
    loop and the transport are both started. *)
Inductive Op :=
| Start (unlockOk : bool)
| Stop
| Toggle (unlockOk : bool)
| SetBpm (next : Z)
| SetBeatsPerBar (next : Z)
| OnTick (fn : option nat)
| GetState
| SetAccentForBeat (beatIndex : Z) (v : bool)
| ToggleAccentForBeat (beatIndex : Z)
| SetAccents (values : list bool)
| SetVolumeForBeat (beatIndex : Z) (value : Q)
| SetVolumes (values : list Q)
| Tick.

Definition apply (op : Op) (w : AudioContext * State)
  : AudioContext * State * list Event :=
  let '(ctx, s) := w in
  match op with
  | Start u => (start u ctx s, [])
  | Stop => (ctx, stop s, [])
  | Toggle u => (toggle u ctx s, [])
  | SetBpm next => (ctx, setBpm next s, [])
  | SetBeatsPerBar next => (ctx, setBeatsPerBar next s, [])
  | OnTick fn => (ctx, onTick fn s, [])
  | GetState => (ctx, s, [])
  | SetAccentForBeat i v => (ctx, setAccentForBeat i v s, [])
  | ToggleAccentForBeat i => (ctx, toggleAccentForBeat i s, [])
  | SetAccents values => (ctx, setAccents values s, [])
  | SetVolumeForBeat i value => (ctx, setVolumeForBeat i value s, [])
  | SetVolumes values => (ctx, setVolumes values s, [])
  | Tick =>
      if loopStarted s && transportStarted s
      then let '(s', es) := loopCallback s in (ctx, s', es)
      else (ctx, s, [])
  end.

(** A session, with everything it emits, in order. *)
Fixpoint run (ops : list Op) (w : AudioContext * State)
  : AudioContext * State * list Event :=
  match ops with
  | [] => (w, [])
  | op :: ops' =>
      let '(w1, es1) := apply op w in
      let '(w2, es2) := run ops' w1 in
      (w2, es1 ++ es2)
  end.

(** What the module keeps true of its variables. *)
Definition wellFormed (s : State) : Prop :=
  1 <= beatsPerBar s <= 12
  ∧ length (accents s) = Z.to_nat (beatsPerBar s)
  ∧ length (volumes s) = Z.to_nat (beatsPerBar s)
  ∧ Forall (fun v => clampQ 0 1 v = v) (volumes s)
  ∧ 30 <= bpm s <= 300
  ∧ 0 <= currentBeat s
  ∧ 0 <= currentBar s
  ∧ timeSignature s = beatsPerBar s
  ∧ (initialized s = true -> transportBpm s = bpm s)
  ∧ loopStarted s = isRunning s
  ∧ transportStarted s = isRunning s
  ∧ (isRunning s = true -> initialized s = true).

(** The click of a tick, and the subscribers that a log names. *)
Definition isClick (e : Event) : bool :=
  match e with
  | ClickHigh _ | ClickLow _ => true
  | Notify _ _ _ => false
  end.

Definition subscriberOf (e : Event) : option nat :=
  match e with
  | Notify f _ _ => Some f
  | _ => None
  end.

End Metronome.

(* ===================================================================== *)
(** * The metronome panel ([src/components/Metronome.tsx]) *)
(* ===================================================================== *)

Module MetronomePanel.

Import Metronome.

(** The [useState] cells of the component. *)
Record Ui := mkUi {
  ui_bpm : Z;
  ui_beats : Z;
  ui_running : bool;
  ui_beatInBar : Z;
  ui_accents : list bool;
  ui_volumes : list Q
}.


(** The function that the panel gives to [onTick], by its identifier. *)
Definition panelSubscriber : nat := 0.


(** Its cleanup. *)
Definition unmountEffect (w : Ui * State) : Ui * State :=
  (w.1, onTick None w.2).

(** What the user and the transport can do to the panel, the volume bars
    apart.  The range input yields its value, the select the chosen
    option, an accent button its index.  A volume bar is left out: it
    commits through the timers of [BeatVolumeBar], which run the
    [onChange] of the render that started them, and a session with such
    commits is not one of this model. *)
Inductive Event :=
| ToggleClick (unlockOk : bool)
| DecClick
| IncClick
| SliderChange (value : Z)
| BeatsChange (value : Z)
| AccentClick (i : nat)
| LoopTick.

(** The subscriber [beatIdx => setBeatInBar(beatIdx)] run on a log. *)
Definition notified (es : list Metronome.Event) (u : Ui) : Ui :=
  foldl (fun u e =>
           match e with
           | Notify f b _ =>
               if decide (f = panelSubscriber)
               then mkUi (ui_bpm u) (ui_beats u) (ui_running u) b
                         (ui_accents u) (ui_volumes u)
               else u
           | _ => u
           end) u es.

(** The handlers.  Accent buttons exist for the indices below [beats]
    only. *)
Definition handle (ev : Event) (ctx : AudioContext) (w : Ui * State)
  : AudioContext * (Ui * State) :=
  let '(u, s) := w in
  match ev with
  | ToggleClick unlockOk =>
      let '(ctx, s) := toggle unlockOk ctx s in
      (ctx, (mkUi (ui_bpm u) (ui_beats u) (snap_isRunning (getState s))
                  (ui_beatInBar u) (ui_accents u) (ui_volumes u), s))
  | DecClick =>
      let v := clampZ 30 300 (ui_bpm u - 1) in
      (ctx, (mkUi v (ui_beats u) (ui_running u) (ui_beatInBar u)
                  (ui_accents u) (ui_volumes u), setBpm v s))
  | IncClick =>
      let v := clampZ 30 300 (ui_bpm u + 1) in
      (ctx, (mkUi v (ui_beats u) (ui_running u) (ui_beatInBar u)
                  (ui_accents u) (ui_volumes u), setBpm v s))
  | SliderChange v =>
      (ctx, (mkUi v (ui_beats u) (ui_running u) (ui_beatInBar u)
                  (ui_accents u) (ui_volumes u), setBpm v s))
  | BeatsChange v =>
      let n := Z.to_nat v in
      let nextAcc :=
        copyPrefix (ui_accents u) (replicate n false)
                   (min (length (ui_accents u)) n) in
      let nextVols :=
        copyPrefix (ui_volumes u) (replicate n 1%Q)
                   (min (length (ui_volumes u)) n) in
      (ctx, (mkUi (ui_bpm u) v (ui_running u) (ui_beatInBar u)
                  nextAcc nextVols,
             setVolumes nextVols (setAccents nextAcc (setBeatsPerBar v s))))
  | AccentClick i =>
      if decide (i < Z.to_nat (ui_beats u))%nat then
        let a := negb (default false (ui_accents u !! i)) in
        (ctx, (mkUi (ui_bpm u) (ui_beats u) (ui_running u) (ui_beatInBar u)
                    (<[i := a]> (ui_accents u)) (ui_volumes u),
               setAccentForBeat (Z.of_nat i) a s))
      else (ctx, (u, s))
  | LoopTick =>
      if loopStarted s && transportStarted s
      then let '(s', es) := loopCallback s in (ctx, (notified es u, s'))
      else (ctx, (u, s))
  end.

Definition run (evs : list Event) (ctx : AudioContext) (w : Ui * State)
  : AudioContext * (Ui * State) :=
  foldl (fun cw ev => handle ev cw.1 cw.2) (ctx, w) evs.



End MetronomePanel.

(* ===================================================================== *)
(** * The binding resolver ([src/components/MidiSampler.tsx]) *)
(* ===================================================================== *)

Module MidiSampler.

Import Sampler.

(** ** Platform functions on property names and strings *)

(** [String(n)] and [Number(s)] for the naturals.  The empty name reads
    as 0; a name that is not a plain decimal numeral gives [None], the
    counterpart of [NaN]. *)
Definition String_ (n : N) : string :=
  NilZero.string_of_uint (N.to_uint n).

Definition Number_ (s : string) : option N :=
  if decide (s = "") then Some 0%N
  else N.of_uint <$> NilZero.uint_of_string s.

Definition lowerAscii (c : ascii) : ascii :=
  let n := nat_of_ascii c in
  if ((65 <=? n) && (n <=? 90))%nat then ascii_of_nat (n + 32) else c.

(** [String.prototype.toLowerCase], on ASCII. *)
Fixpoint toLowerCase (s : string) : string :=
  match s with
  | EmptyString => EmptyString
  | String c s' => String (lowerAscii c) (toLowerCase s')
  end.

(** ** The binding table *)

Record PadBinding := mkBinding {
  keys : list string;
  midis : list N;
  ccs : list N
}.

(** [Partial<PadBinding>]: each field may be missing. *)
Record PartialBinding := {
  pkeys : option (list string);
  pmidis : option (list N);
  pccs : option (list N)
}.

Definition asPartial (b : PadBinding) : PartialBinding :=
  {| pkeys := Some (keys b); pmidis := Some (midis b); pccs := Some (ccs b) |}.

(** [normalizeBinding]: [binding?.f ?? []] for each field. *)
Definition normalizeBinding (binding : option PartialBinding) : PadBinding :=
  {| keys := default [] (binding ≫= pkeys);
     midis := default [] (binding ≫= pmidis);
     ccs := default [] (binding ≫= pccs) |}.

(** [PadBindings = Record<number, PadBinding>], target note to bindings. *)
Abbreviation PadBindings := (gmap N PadBinding).

Definition byTarget (a b : N * PadBinding) : Prop := (a.1 ≤ b.1)%N.

#[global] Instance byTarget_dec : RelDecision byTarget.
Proof. intros a b. unfold byTarget. apply _. Defined.

(** [Object.entries] of a table: integer-like property names come in
    ascending numeric order. *)
Definition Object_entries (t : PadBindings) : list (N * PadBinding) :=
  merge_sort byTarget (map_to_list t).

(** [normalizeBinding(table[t])]. *)
Definition current (t : N) (table : PadBindings) : PadBinding :=
  normalizeBinding (asPartial <$> table !! t).

Definition with_keys (v : list string) (b : PadBinding) : PadBinding :=
  mkBinding v (midis b) (ccs b).
Definition with_midis (v : list N) (b : PadBinding) : PadBinding :=
  mkBinding (keys b) v (ccs b).
Definition with_ccs (v : list N) (b : PadBinding) : PadBinding :=
  mkBinding (keys b) (midis b) v.

(** [allPads], [midiToLabel] and the set behind [defaultMidiSetRef]. *)
Definition allPads : list PadInfo := listDrumPads.

Definition midiToLabel : gmap N string :=
  fromEntries (map (fun p => (midi p, label p)) allPads).

Definition defaultMidiSet : gset N := list_to_set (map midi allPads).

(** [midiToLabel[target] || 'another sound']. *)
Definition labelOf (target : N) : string :=
  match midiToLabel !! target with
  | Some l => if decide (l = "") then "another sound" else l
  | None => "another sound"
  end.

(** The duplicate scans of the capture handlers: the first target other
    than [t], in table order, whose list [f] holds [v]. *)
Definition otherOwner {A : Type} `{EqDecision A}
    (f : PadBinding -> list A) (t : N) (v : A) (table : PadBindings)
  : option N :=
  (fun r => r.2.1)
    <$> list_find (fun e => e.1 ≠ t ∧ v ∈ f e.2) (Object_entries table).

(** [getResolvedIncomingCc] and the scan of [getResolvedIncomingMidi]: the
    first target whose list holds the incoming number. *)
Definition firstOwner (f : PadBinding -> list N) (v : N)
    (table : PadBindings) : option N :=
  (fun r => r.2.1) <$> list_find (fun e => v ∈ f e.2) (Object_entries table).

Definition getResolvedIncomingCc (incoming : N) (table : PadBindings)
  : option N :=
  firstOwner ccs incoming table.

Definition getResolvedIncomingMidi (incoming : N) (table : PadBindings) : N :=
  if decide (incoming ∈ defaultMidiSet) then incoming
  else default incoming (firstOwner midis incoming table).

(** ** The persisted store *)

(** A JSON document.  [localStorage] holds text; the model keeps the tree
    that [JSON.stringify] writes and [JSON.parse] gives back.

    What is read from the store.  A table of this model has numbers for
    names, strings for keys and numbers for notes and controllers, which
    is what the component writes.  The readers below are exact on the
    documents that [stringify] writes and on an empty store, and these
    are the only stores that a theorem of this file loads.  A store
    edited by hand can hold more: a name that is no decimal numeral,
    which the program files under [Number(name)] ([NaN] for "abc", 100
    for "1e2"); an array element of another kind, which the program
    keeps; a document that is a string, which [Object.entries] splits
    into characters.  None of these is a value of [PadBindings]; the
    readers pass over them, and that behaviour stands for nothing in the
    program. *)
#[warnings="-register-all"]
Inductive Json :=
| JNull
| JBool (b : bool)
| JNum (n : N)
| JStr (s : string)
| JArr (l : list Json)
| JObj (members : list (string * Json)).

(** The two items: [drum_bindings_v1] and [drum_keymap_v1].  [None] is an
    absent item, an empty one, or text that [JSON.parse] rejects: each of
    the three makes the load path skip the item. *)
Record Storage := {
  BINDING_KEY : option Json;
  LEGACY_KEYMAP_KEY : option Json
}.

Definition jsonBinding (b : PadBinding) : Json :=
  JObj [("keys", JArr (JStr <$> keys b));
        ("midis", JArr (JNum <$> midis b));
        ("ccs", JArr (JNum <$> ccs b))].

(** [JSON.stringify(table)]. *)
Definition stringify (table : PadBindings) : Json :=
  JObj (map (fun e => (String_ e.1, jsonBinding e.2)) (Object_entries table)).

(** [localStorage.setItem(BINDING_KEY, JSON.stringify(next))]. *)
Definition setItem (next : PadBindings) (st : Storage) : Storage :=
  {| BINDING_KEY := Some (stringify next);
     LEGACY_KEYMAP_KEY := LEGACY_KEYMAP_KEY st |}.

(** Reading a parsed document at the types the source casts it to.  A
    member that is missing or [null] is [None].  On the arrays that
    [stringify] writes, [asStrings] and [asNumbers] give every element. *)
Definition member (name : string) (j : Json) : option Json :=
  match j with
  | JObj ms =>
      match list_find (fun m => m.1 = name) (reverse ms) with
      | Some (_, (_, JNull)) => None
      | Some (_, (_, v)) => Some v
      | None => None
      end
  | _ => None
  end.

Definition asStrings (j : Json) : list string :=
  match j with
  | JArr l => omap (fun x => match x with JStr s => Some s | _ => None end) l
  | _ => []
  end.

Definition asNumbers (j : Json) : list N :=
  match j with
  | JArr l => omap (fun x => match x with JNum n => Some n | _ => None end) l
  | _ => []
  end.

Definition asPartialBinding (j : Json) : option PartialBinding :=
  match j with
  | JNull => None
  | _ => Some {| pkeys := asStrings <$> member "keys" j;
                 pmidis := asNumbers <$> member "midis" j;
                 pccs := asNumbers <$> member "ccs" j |}
  end.

(** [Object.entries(parsed)]; it throws on [null].  [numbered] is
    [Number(name)] on the names that [stringify] writes, the decimal
    numerals of the targets. *)
Definition parsedEntries (parsed : Json) : Completion (list (string * Json)) :=
  match parsed with
  | JNull => Throw
  | JObj ms => Normal ms
  | JArr l => Normal (imap (fun i x => (String_ (N.of_nat i), x)) l)
  | _ => Normal []
  end.

Definition numbered {V : Type} (es : list (string * V)) : list (N * V) :=
  omap (fun e => (fun n => (n, e.2)) <$> Number_ e.1) es.

(** The initialiser of the [bindings] state. *)
Definition loadBindings (st : Storage) : PadBindings :=
  let current_schema :=
    match BINDING_KEY st with
    | Some parsed =>
        match parsedEntries parsed with
        | Normal es =>
            Some (fromEntries
                    (numbered (map (fun e =>
                       (e.1, normalizeBinding (asPartialBinding e.2))) es)))
        | Throw => None
        end
    | None => None
    end in
  match current_schema with
  | Some table => table
  | None =>
      let migrated :=
        match LEGACY_KEYMAP_KEY st with
        | Some parsed =>
            match parsedEntries parsed with
            | Normal es =>
                Some (fromEntries
                        (numbered (map (fun e =>
                           (e.1, mkBinding (asStrings e.2) [] [])) es)))
            | Throw => None
            end
        | None => None
        end in
      default ∅ migrated
  end.

(** ** Component state *)

Inductive Output :=
| Flash (pad : DrumPad)                 (* [setFlashPad(pad)] *)
| TriggerMidi (noteNumber velocity : N) (* [triggerMidi(..)] *)
| HiHatOpen (value : N).                (* [setHiHatOpenByCC4(..)] *)

Definition CC_TRIGGER_THRESHOLD : N := 64.

(** A one-shot [keydown] listener armed by the Add-key button: the
    [modalForMidi] and the [bindings] of the render it was created in. *)
Record KeyListener := {
  forMidi : N;
  seen : PadBindings
}.

Record State := mkState {
  selectedId : option string;
  audioReady : bool;
  modalForMidi : option N;
  listenKeyForMidi : option N;
  listenMidiForMidi : option N;
  listenCcForMidi : option N;
  conflictKey : option string;
  conflictMidi : option (N * string);
  conflictCc : option (N * string);
  bindings : PadBindings;       (* also [bindingsRef.current] *)
  keydownOnce : list KeyListener;
  ccDown : gmap N bool;         (* [ccDownRef.current] *)
  localStorage : Storage
}.

Definition set_selectedId v s :=
  mkState v (audioReady s) (modalForMidi s) (listenKeyForMidi s)
    (listenMidiForMidi s) (listenCcForMidi s) (conflictKey s)
    (conflictMidi s) (conflictCc s) (bindings s) (keydownOnce s) (ccDown s)
    (localStorage s).
Definition set_audioReady v s :=
  mkState (selectedId s) v (modalForMidi s) (listenKeyForMidi s)
    (listenMidiForMidi s) (listenCcForMidi s) (conflictKey s)
    (conflictMidi s) (conflictCc s) (bindings s) (keydownOnce s) (ccDown s)
    (localStorage s).
Definition setModalForMidi v s :=
  mkState (selectedId s) (audioReady s) v (listenKeyForMidi s)
    (listenMidiForMidi s) (listenCcForMidi s) (conflictKey s)
    (conflictMidi s) (conflictCc s) (bindings s) (keydownOnce s) (ccDown s)
    (localStorage s).
Definition setListenKeyForMidi v s :=
  mkState (selectedId s) (audioReady s) (modalForMidi s) v
    (listenMidiForMidi s) (listenCcForMidi s) (conflictKey s)
    (conflictMidi s) (conflictCc s) (bindings s) (keydownOnce s) (ccDown s)
    (localStorage s).
Definition setListenMidiForMidi v s :=
  mkState (selectedId s) (audioReady s) (modalForMidi s) (listenKeyForMidi s)
    v (listenCcForMidi s) (conflictKey s)
    (conflictMidi s) (conflictCc s) (bindings s) (keydownOnce s) (ccDown s)
    (localStorage s).
Definition setListenCcForMidi v s :=
  mkState (selectedId s) (audioReady s) (modalForMidi s) (listenKeyForMidi s)
    (listenMidiForMidi s) v (conflictKey s)
    (conflictMidi s) (conflictCc s) (bindings s) (keydownOnce s) (ccDown s)
    (localStorage s).
Definition setConflictKey v s :=
  mkState (selectedId s) (audioReady s) (modalForMidi s) (listenKeyForMidi s)
    (listenMidiForMidi s) (listenCcForMidi s) v
    (conflictMidi s) (conflictCc s) (bindings s) (keydownOnce s) (ccDown s)
    (localStorage s).
Definition setConflictMidi v s :=
  mkState (selectedId s) (audioReady s) (modalForMidi s) (listenKeyForMidi s)
    (listenMidiForMidi s) (listenCcForMidi s) (conflictKey s)
    v (conflictCc s) (bindings s) (keydownOnce s) (ccDown s)
    (localStorage s).
Definition setConflictCc v s :=
  mkState (selectedId s) (audioReady s) (modalForMidi s) (listenKeyForMidi s)
    (listenMidiForMidi s) (listenCcForMidi s) (conflictKey s)
    (conflictMidi s) v (bindings s) (keydownOnce s) (ccDown s)
    (localStorage s).
Definition set_keydownOnce v s :=
  mkState (selectedId s) (audioReady s) (modalForMidi s) (listenKeyForMidi s)
    (listenMidiForMidi s) (listenCcForMidi s) (conflictKey s)
    (conflictMidi s) (conflictCc s) (bindings s) v (ccDown s)
    (localStorage s).
Definition set_ccDown v s :=
  mkState (selectedId s) (audioReady s) (modalForMidi s) (listenKeyForMidi s)
    (listenMidiForMidi s) (listenCcForMidi s) (conflictKey s)
    (conflictMidi s) (conflictCc s) (bindings s) (keydownOnce s) v
    (localStorage s).

(** [setBindings(next)] together with the write to the store, as in
    [persistBindings] and in the updaters of the MIDI handlers. *)
Definition persistBindings (next : PadBindings) (s : State) : State :=
  mkState (selectedId s) (audioReady s) (modalForMidi s) (listenKeyForMidi s)
    (listenMidiForMidi s) (listenCcForMidi s) (conflictKey s)
    (conflictMidi s) (conflictCc s) next (keydownOnce s) (ccDown s)
    (setItem next (localStorage s)).

(** The component as it mounts. *)
Definition mount (st : Storage) : State :=
  {| selectedId := None; audioReady := false; modalForMidi := None;
     listenKeyForMidi := None; listenMidiForMidi := None;
     listenCcForMidi := None; conflictKey := None; conflictMidi := None;
     conflictCc := None; bindings := loadBindings st; keydownOnce := [];
     ccDown := ∅; localStorage := st |}.

(** ** Event handlers *)

(** The MIDI effect depends on [selectedId], [listenMidiForMidi] and
    [listenCcForMidi]; each time one of them changes it runs again and
    starts by [ccDownRef.current = {}]. *)
Definition deps (s : State) : option string * option N * option N :=
  (selectedId s, listenMidiForMidi s, listenCcForMidi s).

Definition rerender (old new : State) : State :=
  if decide (deps old = deps new) then new else set_ccDown ∅ new.

Definition clearConflicts (s : State) : State :=
  setConflictCc None (setConflictMidi None (setConflictKey None s)).

Definition clearListens (s : State) : State :=
  setListenCcForMidi None
    (setListenMidiForMidi None (setListenKeyForMidi None s)).

(** [padsByPad.get(pad)?.midi]. *)
Definition padMidi (p : DrumPad) : option N :=
  (fun r => midi r.2) <$> list_find (fun i => pad i = p) allPads.

(** [handlePad] in edit mode: opens the binding dialog of the pad. *)
Definition handlePadEdit (p : DrumPad) (s : State) : State :=
  match padMidi p with
  | Some m => clearConflicts (setModalForMidi (Some m) s)
  | None => s
  end.

(** The two close buttons of the dialog. *)
Definition closeModal (s : State) : State :=
  clearConflicts (clearListens (setModalForMidi None s)).

(** [onClick] of "Add key binding".  The listener is added to [window]
    with [{ once: true }] and is removed by nothing but its own firing. *)
Definition addKeyClick (s : State) : State :=
  match modalForMidi s with
  | None => s
  | Some t =>
      let s := setListenMidiForMidi None s in
      let s := setListenCcForMidi None s in
      let s := setListenKeyForMidi (Some t) s in
      let s := clearConflicts s in
      set_keydownOnce
        (keydownOnce s ++ [{| forMidi := t; seen := bindings s |}]) s
  end.

(** The listener [once] of "Add key binding", for the key [key]. *)
Definition once (l : KeyListener) (key : string) (s : State) : State :=
  let k := toLowerCase key in
  match otherOwner keys (forMidi l) k (seen l) with
  | Some _ => setListenKeyForMidi None (setConflictKey (Some k) s)
  | None =>
      let cur := current (forMidi l) (seen l) in
      let s :=
        if decide (k ∈ keys cur) then s
        else persistBindings
               (<[forMidi l := with_keys (keys cur ++ [k]) cur]> (seen l)) s in
      setListenKeyForMidi None s
  end.

(** A [keydown] on [window]: every armed listener runs, in the order they
    were added, and is gone afterwards. *)
Definition keydown (key : string) (s : State) : State :=
  foldl (fun s l => once l key s) (set_keydownOnce [] s) (keydownOnce s).

(** [onClick] of "Add MIDI binding" and of "Add MIDI CC binding". *)
Definition addMidiClick (s : State) : State :=
  match selectedId s, modalForMidi s with
  | Some _, Some t =>
      setListenMidiForMidi (Some t)
        (clearConflicts (setListenCcForMidi None (setListenKeyForMidi None s)))
  | _, _ => s
  end.

Definition addCcClick (s : State) : State :=
  match selectedId s, modalForMidi s with
  | Some _, Some t =>
      clearConflicts
        (setListenCcForMidi (Some t)
           (setListenMidiForMidi None (setListenKeyForMidi None s)))
  | _, _ => s
  end.

Definition flashFor (resolved : N) : list Output :=
  match midiNoteToPad resolved with
  | Some p => [Flash p]
  | None => []
  end.

(** The note listener given to [initMidiListenerForInput]. *)
Definition onMidiNote (note vel : N) (s : State) : State * list Output :=
  let capturing :=
    match listenMidiForMidi s with
    | Some t => if decide (0 < vel)%N then Some t else None
    | None => None
    end in
  match capturing with
  | Some t =>
      let ownerLabel := labelOf <$> otherOwner midis t note (bindings s) in
      let isDefaultMidi :=
        bool_decide (note ∈ defaultMidiSet) && negb (bool_decide (note = t)) in
      let ownerLabel :=
        match ownerLabel with
        | None => if isDefaultMidi then Some (labelOf note) else None
        | Some l => Some l
        end in
      match ownerLabel with
      | Some l =>
          (setListenMidiForMidi None (setConflictMidi (Some (note, l)) s), [])
      | None =>
          let cur := current t (bindings s) in
          let s :=
            if decide (note = t) then s
            else if decide (note ∈ midis cur) then s
            else persistBindings
                   (<[t := with_midis (midis cur ++ [note]) cur]> (bindings s))
                   s in
          (setListenMidiForMidi None s, [])
      end
  | None =>
      let resolved := getResolvedIncomingMidi note (bindings s) in
      let flash := if decide (0 < vel)%N then flashFor resolved else [] in
      if negb (audioReady s) then (s, flash)
      else if decide (0 < vel)%N then (s, flash ++ [TriggerMidi resolved vel])
      else (s, flash)
  end.

(** The controller listener given to [initMidiCcListenerForInput];
    [MidiCC.FootController] is 4. *)
Definition onMidiCc (cc val : N) (s : State) : State * list Output :=
  let hh := if decide (cc = 4%N) then [HiHatOpen val] else [] in
  let capturing :=
    match listenCcForMidi s with
    | Some t => if decide (0 < val)%N then Some t else None
    | None => None
    end in
  match capturing with
  | Some t =>
      match otherOwner ccs t cc (bindings s) with
      | Some owner =>
          (setListenCcForMidi None
             (setConflictCc (Some (cc, labelOf owner)) s), hh)
      | None =>
          let cur := current t (bindings s) in
          let s :=
            if decide (cc ∈ ccs cur) then s
            else persistBindings
                   (<[t := with_ccs (ccs cur ++ [cc]) cur]> (bindings s)) s in
          (setListenCcForMidi None s, hh)
      end
  | None =>
      let resolved := getResolvedIncomingCc cc (bindings s) in
      let isDown := bool_decide (CC_TRIGGER_THRESHOLD ≤ val)%N in
      let wasDown := default false (ccDown s !! cc) in
      let s := set_ccDown (<[cc := isDown]> (ccDown s)) s in
      match (if negb isDown || wasDown then None else resolved) with
      | None => (s, hh)
      | Some r =>
          if negb (audioReady s) then (s, hh ++ flashFor r)
          else (s, hh ++ flashFor r
                     ++ [TriggerMidi r (N.max 1 (N.min 127 val))])
      end
  end.

(** The remove buttons of the dialog. *)
Definition removeKey (k : string) (s : State) : State :=
  match modalForMidi s with
  | None => s
  | Some t =>
      let cur := current t (bindings s) in
      persistBindings
        (<[t := with_keys (filter (fun x => x ≠ k) (keys cur)) cur]>
           (bindings s)) s
  end.

Definition removeMidi (n : N) (s : State) : State :=
  match modalForMidi s with
  | None => s
  | Some t =>
      let cur := current t (bindings s) in
      persistBindings
        (<[t := with_midis (filter (fun x => x ≠ n) (midis cur)) cur]>
           (bindings s)) s
  end.

Definition removeCc (cc : N) (s : State) : State :=
  match modalForMidi s with
  | None => s
  | Some t =>
      let cur := current t (bindings s) in
      persistBindings
        (<[t := with_ccs (filter (fun x => x ≠ cc) (ccs cur)) cur]>
           (bindings s)) s
  end.

(** "Reset bindings", once confirmed. *)
Definition resetBindings (s : State) : State :=
  persistBindings ∅ (clearConflicts (clearListens s)).

(** [onSelect] of the device picker: [setSelectedId(id || null)]. *)
Definition selectDevice (id : string) (s : State) : State :=
  set_selectedId (if decide (id = "") then None else Some id) s.

(** ** The component as a transition system *)

Inductive Op :=
| SelectDevice (id : string)
| EditPad (p : DrumPad)
| CloseModal
| AddKeyClick
| AddMidiClick
| AddCcClick
| KeyDown (key : string)
| MidiNote (note vel : N)
| MidiCc (cc val : N)
| RemoveKey (k : string)
| RemoveMidi (n : N)
| RemoveCc (cc : N)
| ResetBindings.

(** The remove buttons exist only inside the dialog, and the MIDI
    listeners only while a device is selected. *)
Definition handle (op : Op) (s : State) : State * list Output :=
  match op with
  | SelectDevice id => (selectDevice id s, [])
  | EditPad p => (handlePadEdit p s, [])
  | CloseModal => (closeModal s, [])
  | AddKeyClick => (addKeyClick s, [])
  | AddMidiClick => (addMidiClick s, [])
  | AddCcClick => (addCcClick s, [])
  | KeyDown key => (keydown key s, [])
  | MidiNote note vel =>
      match selectedId s with
      | Some _ => onMidiNote note vel s
      | None => (s, [])
      end
  | MidiCc cc val =>
      match selectedId s with
      | Some _ => onMidiCc cc val s
      | None => (s, [])
      end
  | RemoveKey k => (removeKey k s, [])
  | RemoveMidi n => (removeMidi n s, [])
  | RemoveCc cc => (removeCc cc s, [])
  | ResetBindings => (resetBindings s, [])
  end.

Definition step (op : Op) (s : State) : State * list Output :=
  let '(s', out) := handle op s in (rerender s s', out).

Fixpoint run (ops : list Op) (s : State) : State * list Output :=
  match ops with
  | [] => (s, [])
  | op :: ops' =>
      let '(s1, out1) := step op s in
      let '(s2, out2) := run ops' s1 in
      (s2, out1 ++ out2)
  end.

(** ** Predicates on tables and states *)

(** Two bindings share no key, no extra note and no controller. *)
Definition apart (b1 b2 : PadBinding) : Prop :=
  Forall (fun k => k ∉ keys b2) (keys b1)
  ∧ Forall (fun n => n ∉ midis b2) (midis b1)
  ∧ Forall (fun c => c ∉ ccs b2) (ccs b1).

(** No key, note or controller appears under two different targets. *)
Definition unique (table : PadBindings) : Prop :=
  map_Forall (fun t1 b1 =>
    map_Forall (fun t2 b2 => t1 ≠ t2 -> apart b1 b2) table) table.

(** No pad's default note is listed as an extra note of another target. *)
Definition defaultsReserved (table : PadBindings) : Prop :=
  map_Forall (fun t b =>
    Forall (fun n => n ∈ defaultMidiSet -> n = t) (midis b)) table.

Definition armed {A : Type} (o : option A) : nat :=
  match o with
  | Some _ => 1
  | None => 0
  end.

#[global] Instance apart_dec b1 b2 : Decision (apart b1 b2).
Proof. unfold apart. apply _. Defined.

#[global] Instance unique_dec table : Decision (unique table).
Proof. unfold unique. apply _. Defined.

#[global] Instance defaultsReserved_dec table :
  Decision (defaultsReserved table).
Proof. unfold defaultsReserved. apply _. Defined.

(** A property of tables, held by the table of the state and by every
    table that an armed [keydown] listener closed over. *)
Definition Inv (P : PadBindings -> Prop) (s : State) : Prop :=
  P (bindings s) ∧ Forall (fun l => P (seen l)) (keydownOnce s).


(** The number of captures that wait for an event: the armed [keydown]
    listeners, and the note and controller captures of the MIDI effect. *)
Definition pendingCaptures (s : State) : nat :=
  (length (keydownOnce s) + armed (listenMidiForMidi s)
   + armed (listenCcForMidi s))%nat.

(** The three [listen…ForMidi] flags alone. *)
Definition listenFlags (s : State) : nat :=
  (armed (listenKeyForMidi s) + armed (listenMidiForMidi s)
   + armed (listenCcForMidi s))%nat.

(** The [triggerMidi] calls among the outputs. *)
Definition triggers (out : list Output) : list (N * N) :=
  omap (fun o => match o with
                 | TriggerMidi n v => Some (n, v)
                 | _ => None
                 end) out.

(** A pending note capture has no conflict on display: "Add MIDI binding"
    clears the conflicts when it starts the capture, and the listener that
    reports one ends the capture with it. *)
Definition captureClean (s : State) : Prop :=
  is_Some (listenMidiForMidi s) -> conflictMidi s = None.






(** ** The key map

    [keyMap], the memo that the keyboard hook reads: one entry [key ->
    { midi: Number(name) }] for every key of every binding, in table
    order, collected with [Object.fromEntries], so that a later entry
    overwrites an earlier one for the same key.  The names of a table of
    this model are the decimal numerals of its targets, so [Number(name)]
    is always a number here; a table with another name, which the
    component never builds and only a foreign store can bring in, is not
    a value of [PadBindings], and nothing is stated about it. *)
Definition fromKeyEntries {V : Type} (es : list (string * V)) : gmap string V :=
  foldl (fun acc e => <[e.1 := e.2]> acc) ∅ es.

Definition keyMapEntries (table : PadBindings) : list (string * option N) :=
  e ← Object_entries table;
  (fun k => (k, Number_ (String_ e.1))) <$> keys e.2.

Definition keyMap (table : PadBindings) : gmap string (option N) :=
  fromKeyEntries (keyMapEntries table).

(** ** Unlocking audio

    The states [loading], [error] and [engine] of the component, next to
    the ones above, and the three handlers that wait for [prepareAudio]
    before they play: the pad click, the mapped key and the "Enable
    audio" button, which is [prepareAudio] itself. *)
Inductive Message :=
| Text (s : string)   (* the message of an [Error] made in the component *)
| Thrown.             (* [e?.message || String(e)] of a foreign rejection *)

Record Shell := mkShell {
  core : State;
  loading : bool;
  error : option Message;
  engine : EngineMode
}.

(** [prepareAudio].  It tests what [ensureAudioStarted] resolves to. *)
Definition prepareAudio (unlockOk : bool) (outcome : LoadOutcome)
    (ctx : AudioContext) (eng : Sampler.State) (w : Shell)
  : bool * (AudioContext * Sampler.State * Shell) :=
  if audioReady (core w) || loading w
  then (audioReady (core w), (ctx, eng, w))
  else
    let '(r, ctx) := ensureAudioStarted unlockOk ctx in
    match r with
    | Normal ready =>
        if negb (truthy ready) then
          (false,
           (ctx, eng,
            mkShell (core w) false
              (Some (Text "Audio is locked by the browser. Click Enable audio."))
              (engine w)))
        else
          let eng := getDrumSampler outcome eng in
          (true,
           (ctx, eng,
            mkShell (set_audioReady true (core w)) false None (mode eng)))
    | Throw =>
        (false, (ctx, eng, mkShell (core w) false (Some Thrown) (engine w)))
    end.

(** [handlePad]: a click on a pad.  The second pair of answers is for the
    awaits inside [triggerPad]. *)
Definition handlePad (editMode : bool) (pad : DrumPad)
    (unlockOk : bool) (outcome : LoadOutcome)
    (unlockOk' : bool) (outcome' : LoadOutcome) (now : Q)
    (ctx : AudioContext) (eng : Sampler.State) (w : Shell)
  : AudioContext * Sampler.State * Shell * list Output
    * Completion (list Call) :=
  if loading w then (ctx, eng, w, [], Normal [])
  else if editMode then
    (ctx, eng,
     mkShell (handlePadEdit pad (core w)) (loading w) (error w) (engine w),
     [], Normal [])
  else
    let '(ready, (ctx, eng, w)) := prepareAudio unlockOk outcome ctx eng w in
    if negb ready then (ctx, eng, w, [], Normal [])
    else
      let '(ctx, eng, calls) :=
        triggerPad pad 100 unlockOk' outcome' now ctx eng in
      (ctx, eng, w, [Flash pad], calls).

(** [onTrigger] of the keyboard hook: a mapped key.  What [triggerMidi]
    throws is caught and shown. *)
Definition onTrigger (midi velocity : N)
    (unlockOk : bool) (outcome : LoadOutcome)
    (unlockOk' : bool) (outcome' : LoadOutcome) (now : Q)
    (ctx : AudioContext) (eng : Sampler.State) (w : Shell)
  : AudioContext * Sampler.State * Shell * list Output
    * Completion (list Call) :=
  if loading w then (ctx, eng, w, [], Normal [])
  else
    let '(ready, (ctx, eng, w)) := prepareAudio unlockOk outcome ctx eng w in
    if negb ready then (ctx, eng, w, [], Normal [])
    else
      let '(ctx, eng, calls) :=
        triggerMidi midi velocity unlockOk' outcome' now ctx eng in
      match calls with
      | Normal cs => (ctx, eng, w, flashFor midi, Normal cs)
      | Throw =>
          (ctx, eng, mkShell (core w) (loading w) (Some Thrown) (engine w),
           flashFor midi, Normal [])
      end.

(** ** More predicates on tables and states *)

(** A store that the component left behind: no item at all, or a
    bindings item that [persistBindings] wrote (the legacy item is then
    never read). *)
Definition ownStore (st : Storage) : Prop :=
  match BINDING_KEY st with
  | Some parsed => exists table : PadBindings, parsed = stringify table
  | None => LEGACY_KEYMAP_KEY st = None
  end.

(** The store is the component's own and holds the table of the state: a
    reload would start from it. *)
Definition synced (s : State) : Prop :=
  ownStore (localStorage s) ∧ loadBindings (localStorage s) = bindings s.

(** Two states that differ at most in the controller memory, which is
    all that a re-run of the MIDI effect resets. *)
Definition sameButCcDown (a b : State) : Prop :=
  selectedId a = selectedId b ∧ audioReady a = audioReady b
  ∧ modalForMidi a = modalForMidi b
  ∧ listenKeyForMidi a = listenKeyForMidi b
  ∧ listenMidiForMidi a = listenMidiForMidi b
  ∧ listenCcForMidi a = listenCcForMidi b
  ∧ conflictKey a = conflictKey b ∧ conflictMidi a = conflictMidi b
  ∧ conflictCc a = conflictCc b ∧ bindings a = bindings b
  ∧ keydownOnce a = keydownOnce b ∧ localStorage a = localStorage b.

(** No list of a binding names the same key, note or controller twice. *)
Definition noDups (table : PadBindings) : Prop :=
  map_Forall (fun _ b => NoDup (keys b) ∧ NoDup (midis b) ∧ NoDup (ccs b))
             table.

End MidiSampler.

(* ===================================================================== *)
(** * Properties of the trigger engine *)
(* ===================================================================== *)

Section TriggerEngine.

Import Sampler.

Lemma ensureSynth_fallback s :
  useSynthFallback (ensureSynth s) = useSynthFallback s.
Proof. unfold ensureSynth. by destruct (synthBus s). Qed.

Lemma configure_fallback s :
  useSynthFallback (configureLowLatencyTone s) = useSynthFallback s.
Proof. unfold configureLowLatencyTone. by destruct (configured s). Qed.

Lemma configure_loaded s :
  loaded (configureLowLatencyTone s) = loaded s.
Proof. unfold configureLowLatencyTone. by destruct (configured s). Qed.

(** Once the flag is set, [getDrumSampler] only makes sure the synth bus
    exists. *)
Lemma getDrumSampler_keeps_fallback o s :
  useSynthFallback s = true ->
  useSynthFallback (getDrumSampler o s) = true.
Proof.
  intros Hf. unfold getDrumSampler.
  rewrite configure_fallback, Hf. by rewrite ensureSynth_fallback, configure_fallback.
Qed.

Lemma chokeHiHatAll_fallback now s :
  useSynthFallback (chokeHiHatAll now s).1 = useSynthFallback s.
Proof.
  unfold chokeHiHatAll.
  destruct (useSynthFallback s) eqn:Hf; simpl.
  - by rewrite ensureSynth_fallback.
  - by destruct (sampler s).
Qed.

Lemma triggerPad_keeps_fallback p v u o now ctx s :
  useSynthFallback s = true ->
  useSynthFallback (triggerPad p v u o now ctx s).1.2 = true.
Proof.
  intros Hf. unfold triggerPad.
  pose proof (getDrumSampler_keeps_fallback o s Hf) as Hg.
  set (s1 := getDrumSampler o s) in *.
  destruct (isHiHat p).
  - pose proof (chokeHiHatAll_fallback now s1) as Hc.
    destruct (chokeHiHatAll now s1) as [s2 choke]; simpl in Hc.
    rewrite Hc, Hg. simpl. by rewrite ensureSynth_fallback, Hc.
  - rewrite Hg. simpl. by rewrite ensureSynth_fallback.
Qed.

Lemma apply_keeps_fallback op w :
  useSynthFallback w.2 = true -> useSynthFallback (apply op w).2 = true.
Proof.
  destruct w as [ctx s]; simpl. intros Hf.
  destruct op; simpl; try done.
  - by apply getDrumSampler_keeps_fallback.
  - by apply triggerPad_keeps_fallback.
  - unfold triggerMidi. destruct (midiNoteToPad noteNumber); simpl; [|done].
    by apply triggerPad_keeps_fallback.
Qed.

Lemma run_keeps_fallback ops w :
  useSynthFallback w.2 = true -> useSynthFallback (run ops w).2 = true.
Proof.
  revert w. induction ops as [|op ops IH]; intros w Hf; [done|].
  simpl. apply IH. by apply apply_keeps_fallback.
Qed.

Lemma mode_fallback s :
  mode s = SynthesizedFallback <-> useSynthFallback s = true.
Proof. unfold mode, isUsingFallback. destruct (useSynthFallback s); split; done. Qed.

(** C8. The engine mode starts as [Sampled]; the load attempt that fails
    (the call of [getDrumSampler] that creates the promise, with an
    outcome other than [LoadOk]) sets it to [SynthesizedFallback]; and
    from a state in fallback mode, no sequence of calls of the module's
    exported functions leads to a state in [Sampled] mode. *)
Theorem engine_mode_lifecycle :
  mode init = Sampled
  ∧ (forall o s, mode s = Sampled -> loaded s = None -> o ≠ LoadOk ->
       mode (getDrumSampler o s) = SynthesizedFallback)
  ∧ (forall ops w, mode w.2 = SynthesizedFallback ->
       mode (run ops w).2 = SynthesizedFallback).
Proof.
  split; [reflexivity|]. split.
  - intros o s Hm Hl Ho. apply mode_fallback.
    unfold mode, isUsingFallback in Hm.
    destruct (useSynthFallback s) eqn:Hf; [done|].
    unfold getDrumSampler. rewrite configure_fallback, Hf, configure_loaded, Hl.
    destruct o; [done| |]; by rewrite ensureSynth_fallback.
  - intros ops w Hm. apply mode_fallback, run_keeps_fallback.
    by apply mode_fallback.
Qed.

(** A session in which the sample set fails to decode on the first hit and
    the engine is used on: the mode is still the fallback. *)
Lemma engine_mode_lifecycle_witness :
  mode (getDrumSampler LoadError init) = SynthesizedFallback
  ∧ mode (run [GetDrumSampler LoadOk; TriggerPad Kick 100 true LoadOk 0;
               IsUsingFallback; TriggerPad HiHatOpen 90 true LoadOk 1]
              ({| ctxRunning := true |}, getDrumSampler LoadError init)).2
    = SynthesizedFallback.
Proof.
  destruct engine_mode_lifecycle as (_ & Hfirst & Hstay). split.
  - apply Hfirst; [reflexivity | reflexivity | discriminate].
  - apply Hstay. reflexivity.
Defined.

End TriggerEngine.

Section HiHatChoke.

Import Sampler.

Lemma Qeq_bool_same t : Qeq_bool t t = true.
Proof. apply Qeq_bool_iff. reflexivity. Qed.

(** Runs the two hits on a state whose fields are known and splits on the
    comparisons of times that remain. *)
Ltac choke_cases :=
  cbv -[Qle_bool Qeq_bool Qplus Qmult Qdiv inject_Z Z.of_N Qmax Qmin];
  rewrite ?Qeq_bool_same;
  repeat match goal with
         | |- context [Qle_bool ?a ?b] => destruct (Qle_bool a b)
         end;
  reflexivity.

(** In fallback mode the three hi-hat pads sound on the one [hat] synth,
    and [chokeHiHatAll] releases it: every order of two hi-hat hits chokes,
    at all times and velocities. *)
Lemma hihat_choke_fallback first second v1 v2 t1 t2 ctx s :
  isHiHat first = true -> isHiHat second = true ->
  useSynthFallback s = true ->
  chokeHolds first second v1 v2 t1 t2 ctx s = Some true.
Proof.
  intros H1 H2 Hf. destruct s as [cf ld sm fb sb lvl]; simpl in Hf; subst fb.
  destruct first; try discriminate H1; destruct second; try discriminate H2;
    destruct cf, sb; choke_cases.
Qed.

(** With samples, a first hit on the closed or on the open hi-hat is
    choked by whichever hi-hat pad comes next. *)
Lemma hihat_choke_sampled first second v1 v2 t1 t2 ctx s :
  isHiHat first = true -> isHiHat second = true ->
  first ≠ HiHatPedal ->
  useSynthFallback s = false -> sampler s = true -> loaded s = Some true ->
  chokeHolds first second v1 v2 t1 t2 ctx s = Some true.
Proof.
  intros H1 H2 Hp Hf Hs Hl.
  destruct s as [cf ld sm fb sb lvl]; simpl in *; subst.
  destruct first; try discriminate H1; try done;
    destruct second; try discriminate H2; destruct cf; choke_cases.
Qed.

(** C2. The choke fails on the code when the pedal hi-hat comes first and
    samples are playing.  The pedal hit at time 0 attacks the note G#2 and
    schedules its release for 0.16 s; a closed (or open) hit at 0.1 s finds
    G#2 ringing, and the calls it makes release A#2 and F#2 only. *)
Theorem hihat_choke_misses_pedal :
  let ctx := {| ctxRunning := true |} in
  let s := getDrumSampler LoadOk init in
  mode s = Sampled
  ∧ (triggerPad HiHatPedal 100 true LoadOk 0 ctx s).2 =
      Normal [triggerRelease (SamplerNote As2) 0;
              triggerRelease (SamplerNote Fs2) 0;
              triggerAttack (SamplerNote Gs2) 0 (100 # 127);
              triggerRelease (SamplerNote Gs2) (0 + HH_CLOSED_RELEASE)%Q]
  ∧ ringingAt [triggerAttack (SamplerNote Gs2) 0 (100 # 127);
               triggerRelease (SamplerNote Gs2) (0 + HH_CLOSED_RELEASE)%Q]
              (1 # 10) (SamplerNote Gs2) = true
  ∧ (triggerPad HiHatClosed 90 true LoadOk (1 # 10) ctx s).2 =
      Normal [triggerRelease (SamplerNote As2) (1 # 10);
              triggerRelease (SamplerNote Fs2) (1 # 10);
              triggerAttack (SamplerNote Fs2) (1 # 10) (90 # 127);
              triggerRelease (SamplerNote Fs2) ((1 # 10) + HH_CLOSED_RELEASE)%Q]
  ∧ chokeHolds HiHatPedal HiHatClosed 100 90 0 (1 # 10) ctx s = Some false
  ∧ chokeHolds HiHatPedal HiHatOpen 100 90 0 (1 # 10) ctx s = Some false.
Proof. repeat split. Qed.

End HiHatChoke.

(* ===================================================================== *)
(** * Properties of the beat scheduler *)
(* ===================================================================== *)

Section BeatScheduler.

Import Metronome.

Lemma loopCallback_state s :
  (loopCallback s).1 = set_counters (currentBeat s + 1) (barAfter s) s.
Proof. reflexivity. Qed.

Lemma loopCallback_notifications s :
  notifications (loopCallback s).2 =
  match sub s with
  | Some _ => [(beatOf s, barAfter s)]
  | None => []
  end.
Proof.
  unfold loopCallback, notifications, beatOf, barAfter. simpl.
  destruct (default false _); simpl; by destruct (sub s).
Qed.

Lemma notifications_app es1 es2 :
  notifications (es1 ++ es2) = notifications es1 ++ notifications es2.
Proof. unfold notifications. apply omap_app. Qed.

Lemma ticks_S n s :
  ticks (S n) s =
  ((ticks n (loopCallback s).1).1,
   (loopCallback s).2 ++ (ticks n (loopCallback s).1).2).
Proof.
  cbn [ticks]. destruct (loopCallback s) as [s1 es1]. cbn [fst snd].
  by destruct (ticks n s1).
Qed.

Lemma ticks_notifications n : forall s f,
  sub s = Some f ->
  notifications (ticks n s).2 =
  counts n (currentBeat s) (currentBar s) (beatsPerBar s).
Proof.
  induction n as [|n IH]; intros s f Hsub; [done|].
  rewrite ticks_S. cbn [snd].
  rewrite notifications_app, loopCallback_notifications, Hsub.
  rewrite (IH _ f) by (by rewrite loopCallback_state).
  by rewrite loopCallback_state.
Qed.

(** C3. With four beats to the bar and both counters at zero, eight ticks
    notify the subscriber with beat-in-bar 0,1,2,3,0,1,2,3 and bar
    1,1,1,1,2,2,2,2.  And for every tick, in every state: the bar counter
    goes up by one when the beat-in-bar of the tick is 0 and keeps its
    value otherwise, and the subscriber is told that beat and that bar. *)
Theorem scheduler_tick_counting :
  (forall s f,
     beatsPerBar s = 4 -> currentBeat s = 0 -> currentBar s = 0 ->
     sub s = Some f ->
     map fst (notifications (ticks 8 s).2) = [0; 1; 2; 3; 0; 1; 2; 3]
     ∧ map snd (notifications (ticks 8 s).2) = [1; 1; 1; 1; 2; 2; 2; 2])
  ∧ (forall s,
       let s' := (loopCallback s).1 in
       (beatOf s = 0 -> currentBar s' = currentBar s + 1)
       ∧ (beatOf s ≠ 0 -> currentBar s' = currentBar s)
       ∧ currentBeat s' = currentBeat s + 1
       ∧ forall f, sub s = Some f ->
           notifications (loopCallback s).2 = [(beatOf s, currentBar s')]).
Proof.
  split.
  - intros s f Hb Hbeat Hbar Hsub.
    rewrite (ticks_notifications 8 s f Hsub), Hb, Hbeat, Hbar. by split.
  - intros s s'. subst s'. split; [|split; [|split]].
    + intros H0. rewrite loopCallback_state. simpl.
      unfold barAfter. by rewrite decide_True.
    + intros H0. rewrite loopCallback_state. simpl.
      unfold barAfter. by rewrite decide_False.
    + by rewrite loopCallback_state.
    + intros f Hsub.
      by rewrite loopCallback_notifications, Hsub, loopCallback_state.
Qed.

(** The module as loaded, with a subscriber: two bars of four. *)
Lemma scheduler_tick_counting_witness :
  map fst (notifications (ticks 8 (onTick (Some 7%nat) initial)).2)
    = [0; 1; 2; 3; 0; 1; 2; 3]
  ∧ map snd (notifications (ticks 8 (onTick (Some 7%nat) initial)).2)
    = [1; 1; 1; 1; 2; 2; 2; 2].
Proof.
  apply (proj1 scheduler_tick_counting (onTick (Some 7%nat) initial) 7%nat);
    reflexivity.
Defined.

(** C4. [start] never starts the scheduler: [ensureAudioStarted]
    completes with [undefined] whether or not the backend unlocked, the
    test [!ready] is then true, and [start] returns before it touches a
    counter, the loop or the running flag. *)
Theorem start_returns_before_starting :
  forall unlockOk ctx s, (start unlockOk ctx s).2 = s.
Proof.
  intros u ctx s. unfold start, Sampler.ensureAudioStarted.
  by destruct (negb (ctxRunning ctx)).
Qed.

(** The failing run: the backend unlocks, and the scheduler that had
    counted to beat 5 of bar 2 is neither reset nor running. *)
Example start_after_unlock :
  let s := set_counters 5 2 initial in
  let r := start true {| ctxRunning := false |} s in
  ctxRunning r.1 = true
  ∧ isRunning r.2 = false ∧ loopStarted r.2 = false
  ∧ currentBeat r.2 = 5 ∧ currentBar r.2 = 2.
Proof. by repeat split. Qed.

(** *** Resizing the accent and volume arrays *)

Lemma copyPrefix_S {A : Type} (src dst : list A) n :
  copyPrefix src dst (S n) =
  match src !! n with
  | Some x => <[n := x]> (copyPrefix src dst n)
  | None => copyPrefix src dst n
  end.
Proof. unfold copyPrefix. by rewrite seq_S, foldl_app. Qed.

Lemma copyPrefix_length {A : Type} (src dst : list A) n :
  length (copyPrefix src dst n) = length dst.
Proof.
  induction n as [|n IH]; [done|].
  rewrite copyPrefix_S. destruct (src !! n); [|done].
  by rewrite length_insert.
Qed.

Lemma copyPrefix_lookup_lt {A : Type} (src dst : list A) n i :
  (n <= length src)%nat -> (n <= length dst)%nat -> (i < n)%nat ->
  copyPrefix src dst n !! i = src !! i.
Proof.
  induction n as [|n IH]; intros Hs Hd Hi; [lia|].
  rewrite copyPrefix_S.
  destruct (lookup_lt_is_Some_2 src n) as [x Hx]; [lia|]. rewrite Hx.
  destruct (decide (i = n)) as [->|Hne].
  - rewrite list_lookup_insert_eq; [done|]. rewrite copyPrefix_length. lia.
  - rewrite list_lookup_insert_ne by done. apply IH; lia.
Qed.

Lemma copyPrefix_lookup_ge {A : Type} (src dst : list A) n i :
  (n <= i)%nat -> copyPrefix src dst n !! i = dst !! i.
Proof.
  induction n as [|n IH]; intros Hi; [done|].
  rewrite copyPrefix_S. destruct (src !! n).
  - rewrite list_lookup_insert_ne by lia. apply IH. lia.
  - apply IH. lia.
Qed.

(** C7. [setBeatsPerBar n] stores [n] clamped into [1, 12]; both arrays
    get that length; below the old and the new length every accent and
    volume keeps its value; every index from the old length on holds
    [false], respectively 1. *)
Theorem setBeatsPerBar_resize :
  forall (n : Z) (s : State),
    let s' := setBeatsPerBar n s in
    let b := Z.to_nat (beatsPerBar s') in
    beatsPerBar s' = Z.max 1 (Z.min 12 n)
    ∧ (n < 1 -> beatsPerBar s' = 1)
    ∧ (1 <= n <= 12 -> beatsPerBar s' = n)
    ∧ (12 < n -> beatsPerBar s' = 12)
    ∧ length (accents s') = b
    ∧ length (volumes s') = b
    ∧ (forall i, (i < length (accents s))%nat -> (i < b)%nat ->
         accents s' !! i = accents s !! i)
    ∧ (forall i, (i < length (volumes s))%nat -> (i < b)%nat ->
         volumes s' !! i = volumes s !! i)
    ∧ (forall i, (length (accents s) <= i)%nat -> (i < b)%nat ->
         accents s' !! i = Some false)
    ∧ (forall i, (length (volumes s) <= i)%nat -> (i < b)%nat ->
         volumes s' !! i = Some 1%Q).
Proof.
  intros n s s' b. subst s' b. unfold setBeatsPerBar, clampZ, Math_floor.
  simpl.
  set (m := Z.to_nat (Z.max 1 (Z.min 12 n))).
  repeat split; try lia.
  - by rewrite copyPrefix_length, length_replicate.
  - by rewrite copyPrefix_length, length_replicate.
  - intros i Hi Hb. apply copyPrefix_lookup_lt;
      rewrite ?length_replicate; lia.
  - intros i Hi Hb. apply copyPrefix_lookup_lt;
      rewrite ?length_replicate; lia.
  - intros i Hi Hb. rewrite copyPrefix_lookup_ge by lia.
    by apply lookup_replicate_2.
  - intros i Hi Hb. rewrite copyPrefix_lookup_ge by lia.
    by apply lookup_replicate_2.
Qed.

(** Growing the default state from four beats to six: the accent on beat
    0 stays, beat 5 is new. *)
Lemma setBeatsPerBar_resize_witness :
  beatsPerBar (setBeatsPerBar 6 initial) = 6
  ∧ accents (setBeatsPerBar 6 initial) !! 0%nat = accents initial !! 0%nat
  ∧ accents (setBeatsPerBar 6 initial) !! 5%nat = Some false
  ∧ volumes (setBeatsPerBar 6 initial) !! 5%nat = Some 1%Q.
Proof.
  destruct (setBeatsPerBar_resize 6 initial)
    as (_ & _ & Hin & _ & _ & _ & Hacc & _ & Hnew & Hvol).
  split; [apply Hin; lia|].
  split; [apply Hacc; vm_compute; lia|].
  split; [apply Hnew; vm_compute; lia | apply Hvol; vm_compute; lia].
Defined.

(** [setBeatsPerBar] is the one writer of [beatsPerBar], so the value stays
    between 1 and 12 and the remainder in the loop callback is defined. *)
Lemma setBeatsPerBar_range n s : 1 <= beatsPerBar (setBeatsPerBar n s) <= 12.
Proof. unfold setBeatsPerBar, clampZ, Math_floor. simpl. lia. Qed.

End BeatScheduler.

(* ===================================================================== *)
(** * Properties of the binding resolver *)
(* ===================================================================== *)

Section Persistence.

Import Sampler MidiSampler.

(** *** Tables and their entries *)

Lemma elem_of_Object_entries (table : PadBindings) t b :
  (t, b) ∈ Object_entries table <-> table !! t = Some b.
Proof.
  unfold Object_entries. rewrite merge_sort_Permutation.
  apply elem_of_map_to_list.
Qed.

Lemma fromEntries_snoc {V : Type} (es : list (N * V)) e :
  fromEntries (es ++ [e]) = <[e.1 := e.2]> (fromEntries es).
Proof. unfold fromEntries. by rewrite foldl_app. Qed.

(** Later entries win: [fromEntries] is [list_to_map] read backwards. *)
Lemma fromEntries_reverse {V : Type} (es : list (N * V)) :
  fromEntries es = list_to_map (reverse es).
Proof.
  induction es as [|e es IH] using rev_ind; [done|].
  rewrite fromEntries_snoc, reverse_snoc, IH. by destruct e.
Qed.

Lemma fromEntries_Object_entries (table : PadBindings) :
  fromEntries (Object_entries table) = table.
Proof.
  rewrite fromEntries_reverse. symmetry. apply list_to_map_flip.
  unfold Object_entries.
  by rewrite reverse_Permutation, merge_sort_Permutation.
Qed.

(** *** Property names *)

Lemma String_nonempty n : String_ n ≠ "".
Proof.
  unfold String_. intros He.
  assert (Hd : N.to_uint n ≠ Decimal.Nil).
  { destruct n; [discriminate|]. apply DecimalPos.Unsigned.to_uint_nonnil. }
  pose proof (NilZero.usu _ Hd) as Hu. rewrite He in Hu. discriminate Hu.
Qed.

Lemma Number_String n : Number_ (String_ n) = Some n.
Proof.
  unfold Number_. rewrite decide_False by apply String_nonempty.
  unfold String_. rewrite NilZero.usu.
  - simpl. by rewrite DecimalN.Unsigned.of_to.
  - destruct n; [discriminate|]. apply DecimalPos.Unsigned.to_uint_nonnil.
Qed.

(** *** One binding through [JSON.stringify] and [normalizeBinding] *)

Lemma asStrings_JStr l : asStrings (JArr (JStr <$> l)) = l.
Proof.
  unfold asStrings. induction l as [|x l IH]; [done|].
  simpl. f_equal. exact IH.
Qed.

Lemma asNumbers_JNum l : asNumbers (JArr (JNum <$> l)) = l.
Proof.
  unfold asNumbers. induction l as [|x l IH]; [done|].
  simpl. f_equal. exact IH.
Qed.

Lemma member_jsonBinding b :
  member "keys" (jsonBinding b) = Some (JArr (JStr <$> keys b))
  ∧ member "midis" (jsonBinding b) = Some (JArr (JNum <$> midis b))
  ∧ member "ccs" (jsonBinding b) = Some (JArr (JNum <$> ccs b)).
Proof.
  unfold member, jsonBinding. cbn [reverse rev_append list_find].
  repeat split; repeat (case_decide; try discriminate); reflexivity.
Qed.

Lemma normalize_jsonBinding b :
  normalizeBinding (asPartialBinding (jsonBinding b)) = b.
Proof.
  destruct (member_jsonBinding b) as (Hk & Hm & Hc).
  unfold normalizeBinding, asPartialBinding.
  change (jsonBinding b) with (JObj [("keys", JArr (JStr <$> keys b));
        ("midis", JArr (JNum <$> midis b));
        ("ccs", JArr (JNum <$> ccs b))]) at 1.
  cbn [mbind option_bind pkeys pmidis pccs].
  rewrite Hk, Hm, Hc. cbn [fmap option_fmap option_map default].
  rewrite asStrings_JStr, !asNumbers_JNum. by destruct b.
Qed.

Lemma numbered_stringified (es : list (N * PadBinding)) :
  numbered (map (fun e => (e.1, normalizeBinding (asPartialBinding e.2)))
              (map (fun e => (String_ e.1, jsonBinding e.2)) es)) = es.
Proof.
  induction es as [|[t b] es IH]; [done|].
  unfold numbered in *. cbn [map omap list_omap fst snd].
  rewrite Number_String. cbn [fmap option_fmap option_map fst snd].
  by rewrite normalize_jsonBinding, IH.
Qed.

Lemma loadBindings_stringified (table : PadBindings) legacy :
  loadBindings {| BINDING_KEY := Some (stringify table);
                  LEGACY_KEYMAP_KEY := legacy |} = table.
Proof.
  unfold loadBindings, stringify. simpl.
  rewrite numbered_stringified. apply fromEntries_Object_entries.
Qed.

(** C9. Whatever the binding table and whatever the store held before:
    writing the table as [persistBindings] does and reading the store back
    through the initialiser of the [bindings] state gives the same table,
    that is the same targets, each with the same keys, extra notes and
    controllers. *)
Theorem persistence_round_trip :
  forall (table : PadBindings) (st : Storage),
    loadBindings (setItem table st) = table.
Proof. intros table st. apply loadBindings_stringified. Qed.

(** The same through the component: the table that a committed mutation
    leaves in the state is the one the next mount starts with. *)
Corollary remount_after_persist (next : PadBindings) (s : State) :
  bindings (mount (localStorage (persistBindings next s))) = next.
Proof. simpl. apply loadBindings_stringified. Qed.

End Persistence.

Section TableFacts.

Import Sampler MidiSampler.

Lemma otherOwner_None {A : Type} `{EqDecision A}
    (f : PadBinding -> list A) t v (table : PadBindings) :
  otherOwner f t v table = None <->
  forall t' b, table !! t' = Some b -> t' ≠ t -> v ∉ f b.
Proof.
  unfold otherOwner. rewrite fmap_None, list_find_None, Forall_forall. split.
  - intros Hall t' b Hl Hne Hin.
    apply (Hall (t', b)); [by apply elem_of_Object_entries | done].
  - intros Hall [t' b] Hin [Hne Hv].
    apply elem_of_Object_entries in Hin. by apply (Hall t' b).
Qed.

Lemma otherOwner_Some {A : Type} `{EqDecision A}
    (f : PadBinding -> list A) t v (table : PadBindings) t' :
  otherOwner f t v table = Some t' ->
  t' ≠ t ∧ exists b, table !! t' = Some b ∧ v ∈ f b.
Proof.
  unfold otherOwner. intros Hf. apply fmap_Some in Hf as ([i [t0 b]] & Hf & ->).
  apply list_find_Some in Hf as (Hl & [Hne Hv] & _). simpl in *.
  split; [done|]. exists b. split; [|done].
  apply elem_of_Object_entries. by eapply list_elem_of_lookup_2.
Qed.

Lemma firstOwner_Some f v (table : PadBindings) t :
  firstOwner f v table = Some t ->
  exists b, table !! t = Some b ∧ v ∈ f b.
Proof.
  unfold firstOwner. intros Hf. apply fmap_Some in Hf as ([i [t0 b]] & Hf & ->).
  apply list_find_Some in Hf as (Hl & Hv & _). simpl in *.
  exists b. split; [|done].
  apply elem_of_Object_entries. by eapply list_elem_of_lookup_2.
Qed.

Lemma firstOwner_is_Some f v (table : PadBindings) t b :
  table !! t = Some b -> v ∈ f b -> is_Some (firstOwner f v table).
Proof.
  intros Hl Hv. unfold firstOwner.
  destruct (list_find _ (Object_entries table)) as [r|] eqn:Hf; [by eexists|].
  apply list_find_None in Hf. rewrite Forall_forall in Hf.
  exfalso. apply (Hf (t, b)); [by apply elem_of_Object_entries | done].
Qed.

Lemma current_Some (table : PadBindings) t b :
  table !! t = Some b -> current t table = b.
Proof. unfold current. intros ->. by destruct b. Qed.

Lemma current_None (table : PadBindings) t :
  table !! t = None -> current t table = mkBinding [] [] [].
Proof. unfold current. by intros ->. Qed.

(** *** [apart] and [unique] *)

Lemma apart_sym b1 b2 : apart b1 b2 -> apart b2 b1.
Proof.
  unfold apart. rewrite !Forall_forall. intros (Hk & Hm & Hc).
  repeat split; intros x Hx Hx'; [by apply (Hk x) | by apply (Hm x) | by apply (Hc x)].
Qed.

Lemma apart_empty b : apart (mkBinding [] [] []) b.
Proof. unfold apart. simpl. repeat split; constructor. Qed.

Lemma unique_empty : unique ∅.
Proof. intros t b Hl. by rewrite lookup_empty in Hl. Qed.

Lemma unique_insert (table : PadBindings) t b' :
  unique table ->
  (forall t2 b2, table !! t2 = Some b2 -> t2 ≠ t -> apart b' b2) ->
  unique (<[t := b']> table).
Proof.
  intros Hu Hb t1 b1 H1 t2 b2 H2 Hne.
  destruct (decide (t1 = t)) as [->|Hn1].
  - rewrite lookup_insert_eq in H1. injection H1 as <-.
    rewrite lookup_insert_ne in H2 by done. by apply (Hb t2).
  - rewrite lookup_insert_ne in H1 by done.
    destruct (decide (t2 = t)) as [->|Hn2].
    + rewrite lookup_insert_eq in H2. injection H2 as <-.
      apply apart_sym. by apply (Hb t1).
    + rewrite lookup_insert_ne in H2 by done. by apply (Hu t1 b1 H1 t2 b2).
Qed.

Lemma current_apart (table : PadBindings) t t2 b2 :
  unique table -> table !! t2 = Some b2 -> t2 ≠ t ->
  apart (current t table) b2.
Proof.
  intros Hu H2 Hne. destruct (table !! t) as [b|] eqn:Ht.
  - rewrite (current_Some _ _ _ Ht). by apply (Hu t b Ht t2 b2).
  - rewrite (current_None _ _ Ht). apply apart_empty.
Qed.

Lemma unique_add_key (table : PadBindings) t k :
  unique table -> otherOwner keys t k table = None ->
  unique (<[t := with_keys (keys (current t table) ++ [k])
                           (current t table)]> table).
Proof.
  intros Hu Ho. apply unique_insert; [done|]. intros t2 b2 H2 Hne.
  destruct (current_apart table t t2 b2 Hu H2 Hne) as (Hk & Hm & Hc).
  repeat split; simpl; [|done|done].
  apply Forall_app. split; [done|]. constructor; [|constructor].
  by apply (proj1 (otherOwner_None keys t k table) Ho t2 b2).
Qed.

Lemma unique_add_midi (table : PadBindings) t n :
  unique table -> otherOwner midis t n table = None ->
  unique (<[t := with_midis (midis (current t table) ++ [n])
                            (current t table)]> table).
Proof.
  intros Hu Ho. apply unique_insert; [done|]. intros t2 b2 H2 Hne.
  destruct (current_apart table t t2 b2 Hu H2 Hne) as (Hk & Hm & Hc).
  repeat split; simpl; [done| |done].
  apply Forall_app. split; [done|]. constructor; [|constructor].
  by apply (proj1 (otherOwner_None midis t n table) Ho t2 b2).
Qed.

Lemma unique_add_cc (table : PadBindings) t c :
  unique table -> otherOwner ccs t c table = None ->
  unique (<[t := with_ccs (ccs (current t table) ++ [c])
                          (current t table)]> table).
Proof.
  intros Hu Ho. apply unique_insert; [done|]. intros t2 b2 H2 Hne.
  destruct (current_apart table t t2 b2 Hu H2 Hne) as (Hk & Hm & Hc).
  repeat split; simpl; [done|done|].
  apply Forall_app. split; [done|]. constructor; [|constructor].
  by apply (proj1 (otherOwner_None ccs t c table) Ho t2 b2).
Qed.

Lemma unique_remove (table : PadBindings) t b' :
  unique table ->
  keys b' ⊆ keys (current t table) ->
  midis b' ⊆ midis (current t table) ->
  ccs b' ⊆ ccs (current t table) ->
  unique (<[t := b']> table).
Proof.
  intros Hu Sk Sm Sc. apply unique_insert; [done|]. intros t2 b2 H2 Hne.
  destruct (current_apart table t t2 b2 Hu H2 Hne) as (Hk & Hm & Hc).
  rewrite Forall_forall in Hk. rewrite Forall_forall in Hm.
  rewrite Forall_forall in Hc.
  repeat split; apply Forall_forall; intros x Hx;
    [apply Hk, Sk, Hx | apply Hm, Sm, Hx | apply Hc, Sc, Hx].
Qed.

End TableFacts.

(** ** Table invariants kept by every handler

    A property of tables that the empty table has and that the three
    capture commits and the removals keep is kept by every transition of
    the component, for the table in the state and for the tables that the
    armed [keydown] listeners closed over. *)
Section TableInvariant.

Import Sampler MidiSampler.

Variable P : PadBindings -> Prop.

Hypothesis P_empty : P ∅.
Hypothesis P_add_key : forall (table : PadBindings) t k,
  P table -> otherOwner keys t k table = None ->
  P (<[t := with_keys (keys (current t table) ++ [k]) (current t table)]>
       table).
Hypothesis P_add_midi : forall (table : PadBindings) t n,
  P table -> otherOwner midis t n table = None -> n ∉ defaultMidiSet ->
  P (<[t := with_midis (midis (current t table) ++ [n]) (current t table)]>
       table).
Hypothesis P_add_cc : forall (table : PadBindings) t c,
  P table -> otherOwner ccs t c table = None ->
  P (<[t := with_ccs (ccs (current t table) ++ [c]) (current t table)]>
       table).
Hypothesis P_remove : forall (table : PadBindings) t b',
  P table ->
  keys b' ⊆ keys (current t table) ->
  midis b' ⊆ midis (current t table) ->
  ccs b' ⊆ ccs (current t table) ->
  P (<[t := b']> table).

#[local] Abbreviation Inv := (MidiSampler.Inv P).

#[local] Arguments current : simpl never.

(** Closes [Inv] goals whose table and listeners are those of a state
    already known to satisfy it. *)
Ltac inv_same := split; simpl; done.

Lemma rerender_Inv s s' : Inv s' -> Inv (rerender s s').
Proof. unfold rerender. intros [??]. destruct (decide _); inv_same. Qed.

Lemma addKeyClick_Inv s : Inv s -> Inv (addKeyClick s).
Proof.
  intros [Hb Hl]. unfold addKeyClick. destruct (modalForMidi s); [|inv_same].
  split; simpl; [done|]. apply Forall_app. split; [done|].
  by constructor.
Qed.

Lemma once_bindings l key s :
  P (bindings s) -> P (seen l) ->
  P (bindings (once l key s)) ∧ keydownOnce (once l key s) = keydownOnce s.
Proof.
  intros Hb Hl. unfold once.
  destruct (otherOwner keys (forMidi l) (toLowerCase key) (seen l)) eqn:Ho;
    [done|].
  destruct (decide _); cbn [bindings keydownOnce setListenKeyForMidi
                              persistBindings]; [done|].
  split; [|done]. by apply P_add_key.
Qed.

Lemma keydown_Inv key s : Inv s -> Inv (keydown key s).
Proof.
  intros [Hb Hl]. unfold keydown.
  assert (Hs : P (bindings (set_keydownOnce [] s))
               ∧ keydownOnce (set_keydownOnce [] s) = []) by done.
  revert Hs. generalize (set_keydownOnce [] s) as s0.
  induction Hl as [|l ls Hl Hls IH]; intros s0 [Hb0 Hk0]; simpl.
  - split; [done|]. rewrite Hk0. constructor.
  - apply IH. destruct (once_bindings l key s0 Hb0 Hl) as [Hb1 Hk1].
    split; [done|]. by rewrite Hk1.
Qed.

Lemma onMidiNote_Inv note vel s : Inv s -> Inv (onMidiNote note vel s).1.
Proof.
  intros [Hb Hl]. unfold onMidiNote.
  set (capturing := match listenMidiForMidi s with
                    | Some t => if decide (0 < vel)%N then Some t else None
                    | None => None
                    end).
  destruct capturing as [t|].
  - destruct (otherOwner midis t note (bindings s)) eqn:Ho;
      cbn [fmap option_fmap option_map]; [inv_same|].
    destruct (bool_decide (note ∈ defaultMidiSet)
              && negb (bool_decide (note = t))) eqn:Hd; [inv_same|].
    destruct (decide (note = t)) as [->|Hne]; [inv_same|].
    destruct (decide (note ∈ midis (current t (bindings s)))); [inv_same|].
    split; cbn [fst bindings keydownOnce setListenMidiForMidi persistBindings];
      [|done].
    apply P_add_midi; [done|done|].
    intros Hin. apply andb_false_iff in Hd as [Hd|Hd].
    + by apply bool_decide_eq_false in Hd.
    + apply negb_false_iff, bool_decide_eq_true in Hd. done.
  - destruct (negb (audioReady s)); [inv_same|].
    destruct (decide _); inv_same.
Qed.

Lemma onMidiCc_Inv cc val s : Inv s -> Inv (onMidiCc cc val s).1.
Proof.
  intros [Hb Hl]. unfold onMidiCc.
  set (capturing := match listenCcForMidi s with
                    | Some t => if decide (0 < val)%N then Some t else None
                    | None => None
                    end).
  destruct capturing as [t|].
  - destruct (otherOwner ccs t cc (bindings s)) eqn:Ho; [inv_same|].
    destruct (decide (cc ∈ ccs (current t (bindings s)))); [inv_same|].
    split; cbn [fst bindings keydownOnce setListenCcForMidi persistBindings];
      [|done].
    by apply P_add_cc.
  - cbv zeta. repeat case_match; inv_same.
Qed.

Lemma filter_subseteq {A : Type} (R : A -> Prop)
    `{forall x, Decision (R x)} (l : list A) : filter R l ⊆ l.
Proof. intros x Hx. by apply list_elem_of_filter in Hx as [_ Hx]. Qed.

Lemma handle_Inv op s : Inv s -> Inv (handle op s).1.
Proof.
  intros HI. pose proof HI as [Hb Hl]. destruct op; cbn [handle fst].
  - inv_same.
  - unfold handlePadEdit. destruct (padMidi p); inv_same.
  - inv_same.
  - by apply addKeyClick_Inv.
  - unfold addMidiClick. destruct (selectedId s), (modalForMidi s); inv_same.
  - unfold addCcClick. destruct (selectedId s), (modalForMidi s); inv_same.
  - by apply keydown_Inv.
  - destruct (selectedId s); [|inv_same]. by apply onMidiNote_Inv.
  - destruct (selectedId s); [|inv_same]. by apply onMidiCc_Inv.
  - unfold removeKey. destruct (modalForMidi s) as [t|]; [|inv_same].
    split; cbn [bindings keydownOnce persistBindings]; [|done].
    apply P_remove; [done| |done|done]. apply filter_subseteq.
  - unfold removeMidi. destruct (modalForMidi s) as [t|]; [|inv_same].
    split; cbn [bindings keydownOnce persistBindings]; [|done].
    apply P_remove; [done|done| |done]. apply filter_subseteq.
  - unfold removeCc. destruct (modalForMidi s) as [t|]; [|inv_same].
    split; cbn [bindings keydownOnce persistBindings]; [|done].
    apply P_remove; [done|done|done|]. apply filter_subseteq.
  - split; simpl; done.
Qed.

Lemma step_Inv op s : Inv s -> Inv (step op s).1.
Proof.
  intros HI. unfold step. pose proof (handle_Inv op s HI) as H'.
  destruct (handle op s) as [s' out]. by apply rerender_Inv.
Qed.

Lemma run_Inv ops : forall s, Inv s -> Inv (run ops s).1.
Proof.
  induction ops as [|op ops IH]; intros s HI; [done|].
  cbn [run]. pose proof (step_Inv op s HI) as H1.
  destruct (step op s) as [s1 out1]. specialize (IH s1 H1).
  by destruct (run ops s1).
Qed.

End TableInvariant.

Section BindingUniqueness.

Import Sampler MidiSampler.

Lemma run_keeps_unique ops s :
  Inv unique s -> Inv unique (run ops s).1.
Proof.
  apply run_Inv.
  - apply unique_empty.
  - apply unique_add_key.
  - intros table t n Hu Ho _. by apply unique_add_midi.
  - apply unique_add_cc.
  - apply unique_remove.
Qed.

(** C1. Start the component on a table in which no key, no extra note
    and no controller is listed under two different targets, with no key
    capture armed.  After any sequence of its events (starting and
    cancelling captures, the keys, notes and controller values that commit
    or end them, removals, reset) the table still lists no key, note or
    controller under two different targets. *)
Theorem binding_uniqueness :
  forall (ops : list Op) (s : State),
    unique (bindings s) -> keydownOnce s = [] ->
    unique (bindings (run ops s).1).
Proof.
  intros ops s Hu Hk. apply (run_keeps_unique ops s).
  split; [done|]. rewrite Hk. constructor.
Qed.

(** The table that binds key "a" to the kick and note 60 to the snare.
    Capturing "A" for the snare conflicts, capturing "s" commits, and a
    capture of note 60 for the kick conflicts. *)
Lemma binding_uniqueness_witness :
  unique (bindings
    (run [SelectDevice "dev"; EditPad Snare; AddKeyClick; KeyDown "A";
          AddKeyClick; KeyDown "s"; CloseModal; EditPad Kick;
          AddMidiClick; MidiNote 60 100; AddMidiClick; MidiNote 61 100;
          RemoveKey "a"]
       (persistBindings
          (<[36%N := mkBinding ["a"] [] []]>
             (<[38%N := mkBinding [] [60%N] []]> ∅))
          (mount {| BINDING_KEY := None; LEGACY_KEYMAP_KEY := None |}))).1).
Proof.
  apply binding_uniqueness; [compute_done | reflexivity].
Defined.

End BindingUniqueness.

Section DefaultNotes.

Import Sampler MidiSampler.

Lemma PAD_TO_MIDI_inj p q : PAD_TO_MIDI p = PAD_TO_MIDI q -> p = q.
Proof. destruct p, q; done. Qed.

Lemma PAD_TO_MIDI_default p : PAD_TO_MIDI p ∈ defaultMidiSet.
Proof. destruct p; compute_done. Qed.

Lemma labelOf_pad p : labelOf (PAD_TO_MIDI p) = PAD_LABELS p.
Proof. by destruct p. Qed.

(** *** Tables that keep the default notes reserved *)

Lemma defaultsReserved_empty : defaultsReserved ∅.
Proof. intros t b Hl. by rewrite lookup_empty in Hl. Qed.

Lemma defaultsReserved_insert (table : PadBindings) t b' :
  defaultsReserved table ->
  Forall (fun n => n ∈ defaultMidiSet -> n = t) (midis b') ->
  defaultsReserved (<[t := b']> table).
Proof.
  intros Hd Hb t1 b1 H1. destruct (decide (t1 = t)) as [->|Hne].
  - rewrite lookup_insert_eq in H1. by injection H1 as <-.
  - rewrite lookup_insert_ne in H1 by done. by apply (Hd t1).
Qed.

Lemma current_reserved (table : PadBindings) t :
  defaultsReserved table ->
  Forall (fun n => n ∈ defaultMidiSet -> n = t) (midis (current t table)).
Proof.
  intros Hd. destruct (table !! t) as [b|] eqn:Ht.
  - rewrite (current_Some _ _ _ Ht). by apply (Hd t).
  - rewrite (current_None _ _ Ht). constructor.
Qed.

(** Every transition keeps the default notes reserved: the resolver never
    builds a table that lists a pad's default note under another target. *)
Lemma run_keeps_defaultsReserved ops s :
  Inv defaultsReserved s -> Inv defaultsReserved (run ops s).1.
Proof.
  apply run_Inv.
  - apply defaultsReserved_empty.
  - intros table t k Hd _. apply defaultsReserved_insert; [done|].
    by apply current_reserved.
  - intros table t n Hd _ Hn. apply defaultsReserved_insert; [done|].
    simpl. apply Forall_app. split; [by apply current_reserved|].
    constructor; [done|constructor].
  - intros table t c Hd _. apply defaultsReserved_insert; [done|].
    by apply current_reserved.
  - intros table t b' Hd _ Hm _. apply defaultsReserved_insert; [done|].
    pose proof (current_reserved table t Hd) as Hc.
    rewrite Forall_forall in Hc. apply Forall_forall.
    intros n Hn. apply Hc, Hm, Hn.
Qed.

Lemma once_capture l key s :
  listenMidiForMidi (once l key s) = listenMidiForMidi s
  ∧ conflictMidi (once l key s) = conflictMidi s.
Proof. unfold once. by repeat case_match. Qed.

Lemma keydown_captureClean key s : captureClean s -> captureClean (keydown key s).
Proof.
  unfold keydown. intros Hc.
  assert (H0 : captureClean (set_keydownOnce [] s)) by done.
  revert H0. generalize (set_keydownOnce [] s) as s0.
  induction (keydownOnce s) as [|l ls IH]; intros s0 H0; [done|].
  simpl. apply IH. unfold captureClean.
  destruct (once_capture l key s0) as [-> ->]. exact H0.
Qed.

Lemma handle_captureClean op s :
  captureClean s -> captureClean (handle op s).1.
Proof.
  unfold captureClean. intros Hc.
  assert (Hn : forall P : Prop, is_Some (@None N) -> P)
    by (intros P [? ?]; discriminate).
  destruct op; cbn [handle fst].
  - done.
  - unfold handlePadEdit. by destruct (padMidi p).
  - by apply Hn.
  - unfold addKeyClick. destruct (modalForMidi s); [by apply Hn|done].
  - unfold addMidiClick. by destruct (selectedId s), (modalForMidi s).
  - unfold addCcClick.
    destruct (selectedId s), (modalForMidi s); first [done | by apply Hn].
  - by apply keydown_captureClean.
  - destruct (selectedId s); [|done]. unfold onMidiNote. cbv zeta.
    repeat case_match; simplify_eq; cbn [fst];
      first [done | by apply Hn | by (intros _; apply Hc; eexists)
            | by (intros [x Hx]; congruence)].
  - destruct (selectedId s); [|done]. unfold onMidiCc. cbv zeta.
    repeat case_match; simplify_eq; cbn [fst];
      first [done | by apply Hn | by (intros _; apply Hc; eexists)
            | by (intros [x Hx]; congruence)].
  - unfold removeKey. by destruct (modalForMidi s).
  - unfold removeMidi. by destruct (modalForMidi s).
  - unfold removeCc. by destruct (modalForMidi s).
  - by apply Hn.
Qed.

Lemma run_captureClean ops : forall s,
  captureClean s -> captureClean (run ops s).1.
Proof.
  induction ops as [|op ops IH]; intros s Hc; [done|].
  cbn [run]. pose proof (handle_captureClean op s Hc) as H1.
  unfold step. destruct (handle op s) as [s1 out1].
  assert (H2 : captureClean (rerender s s1)).
  { unfold rerender. by destruct (decide _). }
  specialize (IH _ H2). by destruct (run ops (rerender s s1)).
Qed.


(** One note that is a pad's default, offered to a pending capture, in
    any state: the capture ends and neither the table nor the store
    changes; in a table that keeps the default notes reserved the conflict
    names the pad of the note, and the target's own default reports
    nothing. *)
Lemma onMidiNote_default :
  forall (s : State) (p q : DrumPad) (vel : N),
    listenMidiForMidi s = Some (PAD_TO_MIDI q) ->
    (0 < vel)%N ->
    let note := PAD_TO_MIDI p in
    let s' := (onMidiNote note vel s).1 in
    listenMidiForMidi s' = None
    ∧ bindings s' = bindings s
    ∧ localStorage s' = localStorage s
    ∧ (p ≠ q -> exists owner, conflictMidi s' = Some (note, owner))
    ∧ (defaultsReserved (bindings s) ->
         (p ≠ q -> conflictMidi s' = Some (note, PAD_LABELS p))
         ∧ (p = q -> conflictMidi s' = conflictMidi s)).
Proof.
  intros s p q vel Hl Hv note s'. subst note s'. unfold onMidiNote.
  rewrite Hl, decide_True by done.
  destruct (otherOwner midis (PAD_TO_MIDI q) (PAD_TO_MIDI p) (bindings s))
    as [t'|] eqn:Ho; cbn [fmap option_fmap option_map].
  - cbn [fst listenMidiForMidi bindings localStorage conflictMidi
         setListenMidiForMidi setConflictMidi].
    apply otherOwner_Some in Ho as (Hne & b & Hb & Hin).
    do 3 (split; [done|]). split; [intros _; by eexists|].
    intros HDR. pose proof (HDR t' b Hb) as Hres.
    rewrite Forall_forall in Hres. split.
    + intros _. rewrite <- (Hres _ Hin (PAD_TO_MIDI_default p)).
      by rewrite labelOf_pad.
    + intros ->. by rewrite (Hres _ Hin (PAD_TO_MIDI_default q)) in Hne.
  - rewrite (bool_decide_eq_true_2 _ (PAD_TO_MIDI_default p)).
    cbn [andb]. destruct (decide (p = q)) as [->|Hpq].
    + rewrite bool_decide_eq_true_2 by done. cbn [negb].
      rewrite decide_True by done.
      do 3 (split; [done|]). split; [done|]. intros _. by split.
    + rewrite bool_decide_eq_false_2
        by (intros He; by apply PAD_TO_MIDI_inj in He).
      cbn [negb fst listenMidiForMidi bindings localStorage conflictMidi
           setListenMidiForMidi setConflictMidi].
      rewrite labelOf_pad.
      do 3 (split; [done|]). split; [intros _; by eexists|].
      intros _. by split.
Qed.

(** C5. Start the component on a table that keeps the default notes
    reserved (the empty table, and every table the resolver builds from
    it), with no key capture armed and no note capture pending.  After any
    sequence of its events, when a note capture is pending for pad [q] and
    the note that arrives (with a velocity above 0) is the default note of
    pad [p]: the capture ends and neither the table nor the store changes;
    if [p] is another pad than [q], a conflict for that note is reported
    in the name of pad [p]; if [p] is [q] itself, no conflict is
    reported. *)
Theorem default_note_reserved :
  forall (ops : list Op) (s0 : State) (p q : DrumPad) (vel : N),
    defaultsReserved (bindings s0) -> keydownOnce s0 = [] ->
    listenMidiForMidi s0 = None ->
    let s := (run ops s0).1 in
    listenMidiForMidi s = Some (PAD_TO_MIDI q) ->
    (0 < vel)%N ->
    let note := PAD_TO_MIDI p in
    let s' := (onMidiNote note vel s).1 in
    listenMidiForMidi s' = None
    ∧ bindings s' = bindings s
    ∧ localStorage s' = localStorage s
    ∧ (p ≠ q -> conflictMidi s' = Some (note, PAD_LABELS p))
    ∧ (p = q -> conflictMidi s' = None).
Proof.
  intros ops s0 p q vel Hd Hk Hl0 s Hl Hv note s'.
  assert (HI : Inv defaultsReserved s0)
    by (split; [done|]; rewrite Hk; constructor).
  pose proof (run_keeps_defaultsReserved ops s0 HI) as [Hds _]. fold s in Hds.
  assert (Hc0 : captureClean s0)
    by (unfold captureClean; rewrite Hl0; by intros [? ?]).
  pose proof (run_captureClean ops s0 Hc0) as Hcs. fold s in Hcs.
  destruct (onMidiNote_default s p q vel Hl Hv)
    as (E1 & E2 & E3 & _ & Hres). fold note s' in E1, E2, E3, Hres.
  destruct (Hres Hds) as [Hne Hown].
  do 3 (split; [done|]). split; [done|].
  intros Hpq. rewrite (Hown Hpq). apply Hcs. rewrite Hl. by eexists.
Qed.

(** From the component as it mounts on an empty store, with a device
    selected and a note capture started for the kick: the snare's note 38
    is refused in the snare's name, the kick's own 36 is dropped without a
    word, and the table stays empty. *)
Lemma default_note_reserved_witness :
  let s := (run [SelectDevice "dev"; EditPad Kick; AddMidiClick]
                (mount {| BINDING_KEY := None; LEGACY_KEYMAP_KEY := None |})).1
  in
  conflictMidi (onMidiNote 38 100 s).1 = Some (38%N, "Snare")
  ∧ conflictMidi (onMidiNote 36 100 s).1 = None
  ∧ bindings (onMidiNote 38 100 s).1 = ∅.
Proof.
  cbv zeta.
  assert (Hd : defaultsReserved
                 (bindings (mount {| BINDING_KEY := None;
                                     LEGACY_KEYMAP_KEY := None |})))
    by compute_done.
  pose proof (default_note_reserved
                [SelectDevice "dev"; EditPad Kick; AddMidiClick]
                (mount {| BINDING_KEY := None; LEGACY_KEYMAP_KEY := None |})
                Snare Kick 100%N Hd eq_refl eq_refl eq_refl eq_refl)
    as (_ & Hb & _ & Hres & _).
  pose proof (default_note_reserved
                [SelectDevice "dev"; EditPad Kick; AddMidiClick]
                (mount {| BINDING_KEY := None; LEGACY_KEYMAP_KEY := None |})
                Kick Kick 100%N Hd eq_refl eq_refl eq_refl eq_refl)
    as (_ & _ & _ & _ & Hown).
  split; [|split].
  - apply Hres. discriminate.
  - apply Hown. reflexivity.
  - exact Hb.
Defined.

End DefaultNotes.

Section ControllerEdge.

Import Sampler MidiSampler.

Lemma triggers_app o1 o2 : triggers (o1 ++ o2) = triggers o1 ++ triggers o2.
Proof. unfold triggers. apply omap_app. Qed.

Lemma triggers_flashFor r : triggers (flashFor r) = [].
Proof. unfold flashFor. by destruct (midiNoteToPad r). Qed.
















End ControllerEdge.

Section CaptureExclusivity.

Import Sampler MidiSampler.

(** The three [listen…ForMidi] flags are exclusive: no handler leaves two
    of them set. *)
Lemma once_listenFlags l key s :
  (listenFlags (once l key s) <= listenFlags s)%nat.
Proof.
  unfold once, listenFlags.
  destruct (otherOwner _ _ _ _); [|destruct (decide _)]; simpl;
    destruct (listenKeyForMidi s); simpl; lia.
Qed.

Lemma keydown_listenFlags key s :
  (listenFlags (keydown key s) <= listenFlags s)%nat.
Proof.
  unfold keydown.
  change (listenFlags s) with (listenFlags (set_keydownOnce [] s)).
  generalize (set_keydownOnce [] s) as s0.
  induction (keydownOnce s) as [|l ls IH]; intros s0; simpl; [lia|].
  etrans; [apply IH|]. apply once_listenFlags.
Qed.

Lemma onMidiNote_listenFlags note vel s :
  (listenFlags (onMidiNote note vel s).1 <= listenFlags s)%nat.
Proof.
  unfold onMidiNote, listenFlags. cbv zeta.
  repeat case_match; simplify_eq;
    cbn [fst listenKeyForMidi listenMidiForMidi
         listenCcForMidi setListenMidiForMidi setConflictMidi persistBindings];
    repeat match goal with
           | H : ?x = _ |- context [armed ?x] => rewrite H
           end; cbn [armed]; lia.
Qed.

Lemma onMidiCc_listenFlags cc val s :
  (listenFlags (onMidiCc cc val s).1 <= listenFlags s)%nat.
Proof.
  unfold onMidiCc, listenFlags. cbv zeta.
  repeat case_match; simplify_eq;
    cbn [fst listenKeyForMidi listenMidiForMidi
         listenCcForMidi setListenCcForMidi setConflictCc persistBindings
         set_ccDown];
    repeat match goal with
           | H : ?x = _ |- context [armed ?x] => rewrite H
           end; cbn [armed]; lia.
Qed.

Lemma handle_listenFlags op s :
  (listenFlags s <= 1)%nat -> (listenFlags (handle op s).1 <= 1)%nat.
Proof.
  intros Hs. destruct op; cbn [handle fst]; try done.
  - unfold handlePadEdit. by destruct (padMidi p).
  - first [done | cbv; lia].
  - unfold addKeyClick. destruct (modalForMidi s); first [done | cbv; lia].
  - unfold addMidiClick.
    destruct (selectedId s), (modalForMidi s); first [done | cbv; lia].
  - unfold addCcClick.
    destruct (selectedId s), (modalForMidi s); first [done | cbv; lia].
  - etrans; [apply keydown_listenFlags|done].
  - destruct (selectedId s); [|done].
    etrans; [apply onMidiNote_listenFlags|done].
  - destruct (selectedId s); [|done].
    etrans; [apply onMidiCc_listenFlags|done].
  - unfold removeKey. by destruct (modalForMidi s).
  - unfold removeMidi. by destruct (modalForMidi s).
  - unfold removeCc. by destruct (modalForMidi s).
  - first [done | cbv; lia].
Qed.

Lemma listen_flags_exclusive ops : forall s,
  (listenFlags s <= 1)%nat -> (listenFlags (run ops s).1 <= 1)%nat.
Proof.
  induction ops as [|op ops IH]; intros s Hs; [done|].
  cbn [run]. pose proof (handle_listenFlags op s Hs) as H1.
  unfold step. destruct (handle op s) as [s' out].
  assert (Hr : (listenFlags (rerender s s') <= 1)%nat).
  { unfold rerender. by destruct (decide _). }
  specialize (IH _ Hr). by destruct (run ops (rerender s s')).
Qed.

(** C10. The flags are exclusive, the captures are not.  Starting a note
    capture after a key capture clears [listenKeyForMidi], but the
    one-shot [keydown] listener that the key capture armed stays on
    [window]: two captures wait at once, and the next key and the next
    note are both bound to the kick. *)
Theorem key_capture_survives_other_capture :
  let s0 := mount {| BINDING_KEY := None; LEGACY_KEYMAP_KEY := None |} in
  let s1 := (run [SelectDevice "dev"; EditPad Kick;
                  AddKeyClick; AddMidiClick] s0).1 in
  let s2 := (run [KeyDown "a"; MidiNote 60 100] s1).1 in
  listenKeyForMidi s1 = None
  ∧ listenMidiForMidi s1 = Some 36%N
  ∧ listenFlags s1 = 1%nat
  ∧ pendingCaptures s1 = 2%nat
  ∧ bindings s1 = ∅
  ∧ bindings s2 !! 36%N = Some (mkBinding ["a"] [60%N] [])
  ∧ conflictKey s2 = None ∧ conflictMidi s2 = None.
Proof. vm_compute. repeat split. Qed.

End CaptureExclusivity.

(* ===================================================================== *)
(** * More on the trigger engine *)
(* ===================================================================== *)

Section TriggerEngineMore.

Import Sampler.

Lemma clampQ_range x : (0 <= clampQ 0 1 x)%Q ∧ (clampQ 0 1 x <= 1)%Q.
Proof.
  unfold clampQ. split.
  - apply Q.le_max_l.
  - apply Q.max_lub; [lra | apply Q.le_min_l].
Qed.

(** Clamping what is already clamped returns the very same number. *)
Lemma clampQ_idem x : clampQ 0 1 (clampQ 0 1 x) = clampQ 0 1 x.
Proof.
  unfold clampQ, Qmax, Qmin, GenericMinMax.gmax, GenericMinMax.gmin.
  destruct (1 ?= x)%Q eqn:H1; [reflexivity|reflexivity|].
  destruct (0 ?= x)%Q eqn:H0; try reflexivity.
  by rewrite H1, H0.
Qed.

Lemma sampleCalls_is_Some p now vel : is_Some (sampleCalls p now vel).
Proof. destruct p; by eexists. Qed.

(** The calls of one hit, by mode: the choke of the hi-hat pads, then the
    calls of the branch that plays. *)
Lemma triggerPad_calls p v u o now ctx s :
  (triggerPad p v u o now ctx s).2 =
  let s1 := getDrumSampler o s in
  if useSynthFallback s1 then
    Normal ((if isHiHat p then [triggerRelease BusHat now] else [])
            ++ synthCalls (padToVoice p) now (normalized v))
  else if sampler s1 then
    match sampleCalls p now (normalized v) with
    | Some cs =>
        Normal ((if isHiHat p
                 then [triggerRelease (SamplerNote As2) now;
                       triggerRelease (SamplerNote Fs2) now]
                 else []) ++ cs)
    | None => Throw
    end
  else Throw.
Proof.
  unfold triggerPad, normalized. cbv zeta.
  set (s1 := getDrumSampler o s).
  set (vel := clampQ 0 1 _).
  destruct (isHiHat p).
  - unfold chokeHiHatAll.
    destruct (useSynthFallback s1) eqn:Hf.
    + cbn [fst snd]. by rewrite ensureSynth_fallback, Hf.
    + destruct (sampler s1) eqn:Hs; rewrite Hf, ?Hs; [|done].
      by destruct (sampleCalls p now vel).
  - destruct (useSynthFallback s1); [done|].
    destruct (sampler s1); [|done]. by destruct (sampleCalls p now vel).
Qed.

Lemma triggerPad_state p v u o now ctx s :
  useSynthFallback (triggerPad p v u o now ctx s).1.2
    = useSynthFallback (getDrumSampler o s)
  ∧ loaded (triggerPad p v u o now ctx s).1.2 = loaded (getDrumSampler o s)
  ∧ sampler (triggerPad p v u o now ctx s).1.2 = sampler (getDrumSampler o s)
  ∧ hiHatOpenLevel (triggerPad p v u o now ctx s).1.2
    = hiHatOpenLevel (getDrumSampler o s).
Proof.
  unfold triggerPad. cbv zeta. set (s1 := getDrumSampler o s).
  assert (He : forall x, useSynthFallback (ensureSynth x) = useSynthFallback x
             ∧ loaded (ensureSynth x) = loaded x
             ∧ sampler (ensureSynth x) = sampler x
             ∧ hiHatOpenLevel (ensureSynth x) = hiHatOpenLevel x).
  { intros x. unfold ensureSynth. by destruct (synthBus x). }
  destruct (isHiHat p).
  - unfold chokeHiHatAll. destruct (useSynthFallback s1) eqn:Hf.
    + destruct (He s1) as (E1 & E2 & E3 & E4).
      rewrite E1, Hf. cbn [fst snd].
      destruct (He (ensureSynth s1)) as (F1 & F2 & F3 & F4).
      by rewrite F1, F2, F3, F4, E1, E2, E3, E4.
    + destruct (sampler s1) eqn:Hs; rewrite Hf, ?Hs; [by case_match|done].
  - destruct (useSynthFallback s1) eqn:Hf.
    + cbn [fst snd]. destruct (He s1) as (E1 & E2 & E3 & E4).
      by rewrite E1, E2, E3, E4.
    + destruct (sampler s1) eqn:Hs; [by case_match|done].
Qed.

End TriggerEngineMore.

Section TriggerEngineExtras.

Import Sampler.

Lemma MIDI_TO_PAD_inv n p : MIDI_TO_PAD !! n = Some p -> n = PAD_TO_MIDI p.
Proof.
  intros Hl. apply elem_of_map_to_list in Hl.
  remember (map_to_list MIDI_TO_PAD) as l eqn:El. vm_compute in El. subst l.
  repeat (apply elem_of_cons in Hl as [Hl|Hl];
          [by injection Hl as -> ->|]).
  by apply elem_of_nil in Hl.
Qed.

(** X1. The pad of a pad's note is that pad, a note that has a pad is that
    pad's note, and a note that is no pad's note is dropped by
    [triggerMidi] before anything happens: no unlock, no load, no call. *)
Theorem midi_pad_round_trip :
  (forall p, midiNoteToPad (PAD_TO_MIDI p) = Some p)
  ∧ (forall n p, midiNoteToPad n = Some p -> n = PAD_TO_MIDI p)
  ∧ (forall n v u o now ctx s,
       (forall p, n ≠ PAD_TO_MIDI p) ->
       triggerMidi n v u o now ctx s = (ctx, s, Normal [])).
Proof.
  split; [by intros []|]. split; [apply MIDI_TO_PAD_inv|].
  intros n v u o now ctx s Hn. unfold triggerMidi, midiNoteToPad.
  destruct (MIDI_TO_PAD !! n) as [p|] eqn:Hl; [|done].
  by apply MIDI_TO_PAD_inv, Hn in Hl.
Qed.

Lemma midi_pad_round_trip_witness :
  triggerMidi 60 100 true LoadOk 0 {| ctxRunning := false |} init
  = ({| ctxRunning := false |}, init, Normal []).
Proof.
  apply (proj2 (proj2 midi_pad_round_trip)). by intros [].
Defined.

(** *** No hit throws *)

Lemma coherent_getDrumSampler o s :
  coherent s -> coherent (getDrumSampler o s).
Proof.
  unfold coherent. destruct s as [[] [[]|] [] [] [] lvl], o; simpl;
    intros Hc H1 H2; try done; by apply Hc.
Qed.

Lemma coherent_apply op w : coherent w.2 -> coherent (apply op w).2.
Proof.
  destruct w as [ctx s]. intros Hc.
  destruct op as [u|o|p v u o now|n v u o now|value| | |]; simpl; try done.
  - by apply coherent_getDrumSampler.
  - destruct (triggerPad_state p v u o now ctx s) as (E1 & E2 & E3 & _).
    pose proof (coherent_getDrumSampler o s Hc) as Hg.
    unfold coherent in *. by rewrite E1, E2, E3.
  - unfold triggerMidi. destruct (midiNoteToPad n) as [p|]; [|done].
    destruct (triggerPad_state p v u o now ctx s) as (E1 & E2 & E3 & _).
    pose proof (coherent_getDrumSampler o s Hc) as Hg.
    unfold coherent in *. by rewrite E1, E2, E3.
Qed.

Lemma coherent_run ops : forall w, coherent w.2 -> coherent (run ops w).2.
Proof.
  induction ops as [|op ops IH]; intros w Hc; [done|].
  simpl. apply IH. by apply coherent_apply.
Qed.

Lemma coherent_sampler o s :
  coherent s -> useSynthFallback (getDrumSampler o s) = false ->
  sampler (getDrumSampler o s) = true.
Proof.
  unfold coherent. destruct s as [[] [[]|] [] [] [] lvl], o; simpl;
    intros Hc Hf; try done; by apply Hc.
Qed.

(** X2. In a session that starts from the module as loaded, whatever was
    called before and however the load ended, a hit on any pad completes
    normally: the sample branch never finds [sampler] null. *)
Theorem triggerPad_never_throws :
  forall ops ctx0 p v u o now,
    let w := run ops (ctx0, init) in
    exists cs, (triggerPad p v u o now w.1 w.2).2 = Normal cs.
Proof.
  intros ops ctx0 p v u o now w.
  assert (Hc : coherent w.2) by (apply coherent_run; by intros _ [x Hx]).
  rewrite triggerPad_calls. cbv zeta.
  destruct (useSynthFallback (getDrumSampler o w.2)) eqn:Hf; [by eexists|].
  rewrite (coherent_sampler o _ Hc Hf).
  destruct (sampleCalls_is_Some p now (normalized v)) as [cs ->].
  by eexists.
Qed.

(** *** Gains *)

Lemma synthCalls_gains voice now vel :
  (0 <= vel)%Q -> (vel <= 1)%Q ->
  Forall (fun c => forall g, gainOf c = Some g -> (0 <= g)%Q ∧ (g <= 1)%Q)
         (synthCalls voice now vel).
Proof.
  intros H0 H1. destruct voice; simpl;
    repeat (constructor; [intros g Hg; simpl in Hg; simplify_eq; split; lra|]);
    constructor.
Qed.

Lemma sampleCalls_gains p now vel cs :
  (0 <= vel)%Q -> (vel <= 1)%Q -> sampleCalls p now vel = Some cs ->
  Forall (fun c => forall g, gainOf c = Some g -> (0 <= g)%Q ∧ (g <= 1)%Q) cs.
Proof.
  intros H0 H1 Hs. destruct p; cbv -[Qplus HH_CLOSED_RELEASE] in Hs;
    simplify_eq;
    repeat (constructor; [intros g Hg; simpl in Hg; simplify_eq; split; lra|]);
    constructor.
Qed.

(** X3. Whatever the velocity (also above 127), the pad, the mode and the
    time: every attack that a hit makes has a gain between 0 and 1. *)
Theorem gains_within_unit :
  forall p v u o now ctx s cs,
    (triggerPad p v u o now ctx s).2 = Normal cs ->
    Forall (fun c => forall g, gainOf c = Some g -> (0 <= g)%Q ∧ (g <= 1)%Q)
           cs.
Proof.
  intros p v u o now ctx s cs. rewrite triggerPad_calls. cbv zeta.
  destruct (clampQ_range (inject_Z (Z.of_N v) / 127)%Q) as [H0 H1].
  fold (normalized v) in H0, H1.
  destruct (useSynthFallback _).
  - intros [= <-]. apply Forall_app. split.
    + destruct (isHiHat p); repeat (constructor; [by intros g [=]|]);
        constructor.
    + by apply synthCalls_gains.
  - destruct (sampler _); [|done].
    destruct (sampleCalls p now (normalized v)) as [body|] eqn:Hb; [|done].
    intros [= <-]. apply Forall_app. split.
    + destruct (isHiHat p); repeat (constructor; [by intros g [=]|]);
        constructor.
    + by apply (sampleCalls_gains p now (normalized v)).
Qed.

Lemma gains_within_unit_witness :
  Forall (fun c => forall g, gainOf c = Some g -> (0 <= g)%Q ∧ (g <= 1)%Q)
    [triggerRelease BusHat 0;
     setEnvelopeDecay BusHat HH_OPEN_DEFAULT;
     triggerAttackRelease BusHat None (Seconds HH_OPEN_DEFAULT) 0
       ((1 # 2) + normalized 200 * (1 # 2))%Q].
Proof.
  apply (gains_within_unit HiHatOpen 200 true LoadError 0
           {| ctxRunning := false |} init).
  reflexivity.
Defined.

(** X4. When the engine plays samples, a hit on a pad outside the hi-hat
    group is one attack of that pad's note at the normalised velocity and
    nothing else: no release, no second voice. *)
Theorem sampled_hit_is_one_attack :
  forall p v u o now ctx s,
    coherent s -> mode (getDrumSampler o s) = Sampled -> isHiHat p = false ->
    exists n, padToNoteName p = Some n
      ∧ (triggerPad p v u o now ctx s).2
        = Normal [triggerAttack (SamplerNote n) now (normalized v)].
Proof.
  intros p v u o now ctx s Hc Hm Hh.
  assert (Hf : useSynthFallback (getDrumSampler o s) = false).
  { unfold mode, isUsingFallback in Hm. by destruct (useSynthFallback _). }
  rewrite triggerPad_calls. cbv zeta.
  rewrite Hf, (coherent_sampler o s Hc Hf), Hh.
  destruct p; try discriminate Hh; by eexists.
Qed.

Lemma sampled_hit_is_one_attack_witness :
  exists n, padToNoteName Kick = Some n
    ∧ (triggerPad Kick 100 true LoadOk 0 {| ctxRunning := false |} init).2
      = Normal [triggerAttack (SamplerNote n) 0 (normalized 100)].
Proof.
  apply sampled_hit_is_one_attack;
    [by intros _ [x Hx]|reflexivity|reflexivity].
Defined.

(** X5. The sample set is loaded once: after one [getDrumSampler], a
    second one changes nothing, whatever either attempt would have met. *)
Theorem getDrumSampler_idempotent :
  forall o1 o2 s,
    getDrumSampler o2 (getDrumSampler o1 s) = getDrumSampler o1 s.
Proof. intros o1 o2 [[] [[]|] [] [] [] lvl]; by destruct o1, o2. Qed.

Lemma getDrumSampler_after_load o s :
  is_Some (loaded s) ->
  useSynthFallback (getDrumSampler o s) = useSynthFallback s
  ∧ is_Some (loaded (getDrumSampler o s)).
Proof.
  destruct s as [[] [[]|] [] [] [] lvl], o; simpl; intros [x Hx];
    try done; split; by eauto.
Qed.

Lemma apply_after_load op w :
  is_Some (loaded w.2) ->
  useSynthFallback (apply op w).2 = useSynthFallback w.2
  ∧ is_Some (loaded (apply op w).2).
Proof.
  destruct w as [ctx s]. intros Hl.
  destruct op as [u|o|p v u o now|n v u o now|value| | |]; simpl; try done.
  - by apply getDrumSampler_after_load.
  - destruct (triggerPad_state p v u o now ctx s) as (E1 & E2 & _).
    rewrite E1, E2. by apply getDrumSampler_after_load.
  - unfold triggerMidi. destruct (midiNoteToPad n) as [p|]; [|done].
    destruct (triggerPad_state p v u o now ctx s) as (E1 & E2 & _).
    rewrite E1, E2. by apply getDrumSampler_after_load.
Qed.

(** X6. The first load attempt decides the mode for the session, in both
    directions: from the module as loaded the mode after the first
    [getDrumSampler] is [Sampled] exactly when the set decoded, and once
    an attempt was made no later call changes the mode, whatever a later
    attempt would have met. *)
Theorem mode_fixed_by_first_load :
  (forall o, mode (getDrumSampler o init) = Sampled <-> o = LoadOk)
  ∧ (forall ops w, is_Some (loaded w.2) -> mode (run ops w).2 = mode w.2).
Proof.
  split; [intros []; split; done|].
  intros ops. induction ops as [|op ops IH]; intros w Hl; [done|].
  simpl. destruct (apply_after_load op w Hl) as [Hf Hl'].
  rewrite (IH _ Hl'). unfold mode, isUsingFallback. by rewrite Hf.
Qed.

Lemma mode_fixed_by_first_load_witness :
  mode (run [GetDrumSampler LoadError;
             TriggerPad Snare 90 true CtorThrows 1;
             GetDrumSampler LoadError]
            ({| ctxRunning := true |}, getDrumSampler LoadOk init)).2
  = Sampled.
Proof.
  rewrite (proj2 mode_fixed_by_first_load); [reflexivity | by eexists].
Defined.

(** X7. The hi-hat openness that controller 4 sets stays between 0 and 1
    and is read by nothing: a hit makes the same calls whatever the
    openness was set to. *)
Theorem hiHatOpenLevel_is_unused :
  forall value p v u o now ctx s,
    (0 <= hiHatOpenLevel (setHiHatOpenByCC4 value s))%Q
    ∧ (hiHatOpenLevel (setHiHatOpenByCC4 value s) <= 1)%Q
    ∧ (triggerPad p v u o now ctx (setHiHatOpenByCC4 value s)).2
      = (triggerPad p v u o now ctx s).2.
Proof.
  intros value p v u o now ctx s.
  split; [apply clampQ_range|]. split; [apply clampQ_range|].
  rewrite !triggerPad_calls. cbv zeta.
  assert (He : useSynthFallback (getDrumSampler o (setHiHatOpenByCC4 value s))
               = useSynthFallback (getDrumSampler o s)
             ∧ sampler (getDrumSampler o (setHiHatOpenByCC4 value s))
               = sampler (getDrumSampler o s)).
  { destruct s as [[] [[]|] [] [] [] lvl], o; by split. }
  destruct He as [-> ->]. done.
Qed.

(** X8. In fallback mode the side stick is played by the very calls of
    the snare, and the pedal hi-hat by the very calls of the closed
    hi-hat. *)
Theorem fallback_shared_voices :
  forall v u o now ctx s,
    useSynthFallback s = true ->
    (triggerPad Stick v u o now ctx s).2 = (triggerPad Snare v u o now ctx s).2
    ∧ (triggerPad HiHatPedal v u o now ctx s).2
      = (triggerPad HiHatClosed v u o now ctx s).2.
Proof.
  intros v u o now ctx s Hf. rewrite !triggerPad_calls. cbv zeta.
  by rewrite (getDrumSampler_keeps_fallback o s Hf).
Qed.

Lemma fallback_shared_voices_witness :
  (triggerPad Stick 80 true LoadOk 0 {| ctxRunning := true |}
     (getDrumSampler LoadError init)).2
  = (triggerPad Snare 80 true LoadOk 0 {| ctxRunning := true |}
       (getDrumSampler LoadError init)).2.
Proof.
  apply (fallback_shared_voices 80 true LoadOk 0 {| ctxRunning := true |}
           (getDrumSampler LoadError init)).
  reflexivity.
Defined.

(** X9. A hit on a pad outside the hi-hat group, in either mode, makes no
    call on a source of the hi-hat group: it neither chokes nor re-tunes
    a hi-hat that rings. *)
Theorem other_pads_leave_hihat_alone :
  forall p v u o now ctx s cs,
    isHiHat p = false ->
    (triggerPad p v u o now ctx s).2 = Normal cs ->
    Forall (fun c => isHiHatSource (sourceOf c) = false) cs.
Proof.
  intros p v u o now ctx s cs Hh. rewrite triggerPad_calls. cbv zeta.
  rewrite Hh. destruct (useSynthFallback _).
  - intros [= <-]. destruct p; try discriminate Hh; by repeat constructor.
  - destruct (sampler _); [|done].
    destruct p; try discriminate Hh; intros [= <-]; by repeat constructor.
Qed.

Lemma other_pads_leave_hihat_alone_witness :
  Forall (fun c => isHiHatSource (sourceOf c) = false)
    [setEnvelopeDecay BusCym (16 # 10);
     triggerAttackRelease BusCym None Note2n 0
       ((2 # 5) + normalized 100 * (3 # 5))%Q].
Proof.
  apply (other_pads_leave_hihat_alone Crash 100 true LoadError 0
           {| ctxRunning := false |} init); reflexivity.
Defined.

End TriggerEngineExtras.

(* ===================================================================== *)
(** * More on the beat scheduler *)
(* ===================================================================== *)

Section BeatSchedulerExtras.

Import Metronome.

Lemma copyPrefix_Forall {A : Type} (P : A -> Prop) (src dst : list A) n :
  Forall P src -> Forall P dst -> Forall P (copyPrefix src dst n).
Proof.
  intros Hs Hd. induction n as [|n IH]; [done|].
  rewrite copyPrefix_S. destruct (src !! n) as [x|] eqn:Hx; [|done].
  apply Forall_insert; [done|]. exact (Forall_lookup_1 _ _ _ _ Hs Hx).
Qed.

Lemma copyPrefix_take_drop {A : Type} (src dst : list A) n :
  (n <= length src)%nat -> (n <= length dst)%nat ->
  copyPrefix src dst n = take n src ++ drop n dst.
Proof.
  intros Hs Hd. apply list_eq. intros i.
  destruct (decide (i < n)%nat) as [Hi|Hi].
  - rewrite copyPrefix_lookup_lt by done.
    rewrite lookup_app_l by (rewrite length_take; lia).
    by rewrite lookup_take_lt.
  - rewrite copyPrefix_lookup_ge by lia.
    rewrite lookup_app_r by (rewrite length_take; lia).
    rewrite length_take, lookup_drop. f_equal. lia.
Qed.

(** The resize idiom of the module: a fresh array of [n] defaults, then
    the copy of the first [min(length, n)] slots. *)
Lemma copyPrefix_resize {A : Type} (src : list A) (d : A) n :
  copyPrefix src (replicate n d) (min (length src) n)
  = take n src ++ replicate (n - length src) d.
Proof.
  rewrite copyPrefix_take_drop by (rewrite ?length_replicate; lia).
  rewrite drop_replicate. f_equal.
  - destruct (decide (length src <= n)%nat).
    + rewrite Nat.min_l by done. by rewrite !take_ge by lia.
    + by rewrite Nat.min_r by lia.
  - f_equal. lia.
Qed.

Lemma start_state u ctx s : (start u ctx s).2 = s.
Proof.
  unfold start, Sampler.ensureAudioStarted.
  by destruct (negb (ctxRunning ctx)).
Qed.

Lemma clamp_fixed_range v :
  clampQ 0 1 v = v -> (0 <= v)%Q ∧ (v <= 1)%Q.
Proof. intros <-. apply clampQ_range. Qed.

(** *** The invariant *)

Lemma wellFormed_initial : wellFormed initial.
Proof.
  unfold wellFormed. simpl. repeat split; try done; try lia.
  by repeat constructor.
Qed.

Lemma beatIdx_lt i s :
  1 <= beatsPerBar s -> (beatIdx i s < Z.to_nat (beatsPerBar s))%nat.
Proof. unfold beatIdx, clampZ, Math_floor. lia. Qed.

Lemma wellFormed_loopCallback s : wellFormed s -> wellFormed (loopCallback s).1.
Proof.
  unfold wellFormed. intros (Hb & Ha & Hv & Hf & Hp & Hcb & Hcr & Rest).
  rewrite loopCallback_state. simpl.
  repeat split; try tauto; try lia.
  unfold barAfter. case_decide; lia.
Qed.

Lemma wellFormed_apply op w : wellFormed w.2 -> wellFormed (apply op w).1.2.
Proof.
  destruct w as [ctx s]. simpl. intros Hw.
  destruct op as [u| |u|next|next|fn| |i v|i|values|i value|values| ];
    cbn [apply fst snd].
  - by rewrite start_state.
  - unfold stop. destruct (negb (initialized s)) eqn:Hi; [done|].
    unfold wellFormed in *. simpl. intuition congruence.
  - unfold toggle. destruct (isRunning s); [|by rewrite start_state].
    unfold stop. destruct (negb (initialized s)) eqn:Hi; [done|].
    simpl. unfold wellFormed in *. simpl. intuition congruence.
  - unfold wellFormed in *. unfold setBpm, clampZ, Math_round. simpl.
    intuition lia.
  - destruct Hw as (Hb & Ha & Hv & Hf & Hp & Hcb & Hcr & Hts & Rest).
    unfold wellFormed, setBeatsPerBar, clampZ, Math_floor. simpl.
    rewrite !copyPrefix_length, !length_replicate.
    repeat split; try tauto; try lia.
    apply copyPrefix_Forall; [done|]. apply Forall_replicate. reflexivity.
  - unfold wellFormed in *. simpl. tauto.
  - done.
  - unfold wellFormed in *. simpl. rewrite length_insert. tauto.
  - unfold wellFormed in *. simpl. rewrite length_insert. tauto.
  - destruct Hw as (Hb & Ha & Hv & Rest).
    unfold wellFormed. simpl.
    rewrite copyPrefix_length, length_replicate. tauto.
  - destruct Hw as (Hb & Ha & Hv & Hf & Rest).
    unfold wellFormed. simpl. rewrite length_insert.
    repeat split; try tauto. apply Forall_insert; [done|].
    apply clampQ_idem.
  - destruct Hw as (Hb & Ha & Hv & Hf & Rest).
    unfold wellFormed. simpl.
    rewrite copyPrefix_length, length_replicate.
    repeat split; try tauto. apply copyPrefix_Forall.
    + apply List.Forall_map, Forall_forall. intros x _. apply clampQ_idem.
    + apply Forall_replicate. reflexivity.
  - destruct (loopStarted s && transportStarted s); [|done].
    exact (wellFormed_loopCallback s Hw).
Qed.

Lemma run_cons op ops w :
  run (op :: ops) w = ((run ops (apply op w).1).1,
                       (apply op w).2 ++ (run ops (apply op w).1).2).
Proof.
  cbn [run]. destruct (apply op w) as [w1 es1]. simpl.
  by destruct (run ops w1).
Qed.

Lemma wellFormed_run ops :
  forall w, wellFormed w.2 -> wellFormed (run ops w).1.2.
Proof.
  induction ops as [|op ops IH]; intros w Hw; [done|].
  rewrite run_cons. simpl. apply IH. by apply wellFormed_apply.
Qed.

(** X10. The module's variables are well formed when it is loaded, and
    every call and every tick keeps them so: between 1 and 12 beats, both
    arrays of exactly that length, every volume between 0 and 1, the tempo
    between 30 and 300, counters that never go negative, the transport's
    signature and (once the synths exist) tempo equal to the module's, and
    a running flag that agrees with the loop and the transport. *)
Theorem scheduler_well_formed :
  wellFormed initial
  ∧ forall ops w,
      wellFormed w.2 ->
      wellFormed (run ops w).1.2
      ∧ Forall (fun v => (0 <= v)%Q ∧ (v <= 1)%Q) (volumes (run ops w).1.2).
Proof.
  split; [apply wellFormed_initial|]. intros ops w Hw.
  pose proof (wellFormed_run ops w Hw) as Hr. split; [done|].
  destruct Hr as (_ & _ & _ & Hf & _).
  eapply Forall_impl; [exact Hf|]. intros v. apply clamp_fixed_range.
Qed.

Lemma scheduler_well_formed_witness :
  wellFormed
    (run [Tick; SetBeatsPerBar 20; SetVolumeForBeat 50 (3 # 2); Tick;
          SetBpm 1000; ToggleAccentForBeat (-3)]
         ({| ctxRunning := true |}, set_running true (init initial))).1.2.
Proof.
  apply (proj2 scheduler_well_formed
           [Tick; SetBeatsPerBar 20; SetVolumeForBeat 50 (3 # 2); Tick;
            SetBpm 1000; ToggleAccentForBeat (-3)]
           ({| ctxRunning := true |}, set_running true (init initial))).
  unfold wellFormed. simpl. repeat split; try done; try lia.
  by repeat constructor.
Defined.

(** *** The single-beat mutators *)

(** X11. On well-formed variables [setAccentForBeat] and
    [setVolumeForBeat] write one slot that exists and leave every other
    slot alone; a beat index below 0 lands on the first beat, one at or
    above [beatsPerBar] on the last; the volume is stored clamped into
    [0, 1]. *)
Theorem single_beat_writes :
  forall s i a value,
    wellFormed s ->
    let k := beatIdx i s in
    (k < Z.to_nat (beatsPerBar s))%nat
    ∧ (i < 0 -> k = 0%nat)
    ∧ (0 <= i < beatsPerBar s -> k = Z.to_nat i)
    ∧ (beatsPerBar s <= i -> k = Z.to_nat (beatsPerBar s - 1))
    ∧ accents (setAccentForBeat i a s) !! k = Some a
    ∧ volumes (setVolumeForBeat i value s) !! k = Some (clampQ 0 1 value)
    ∧ (forall j, j <> k ->
         accents (setAccentForBeat i a s) !! j = accents s !! j
         ∧ volumes (setVolumeForBeat i value s) !! j = volumes s !! j)
    ∧ volumes (setAccentForBeat i a s) = volumes s
    ∧ accents (setVolumeForBeat i value s) = accents s.
Proof.
  intros s i a value (Hb & Ha & Hv & _) k.
  assert (Hk : (k < Z.to_nat (beatsPerBar s))%nat) by (apply beatIdx_lt; lia).
  split; [done|].
  split; [subst k; unfold beatIdx, clampZ, Math_floor; lia|].
  split; [subst k; unfold beatIdx, clampZ, Math_floor; lia|].
  split; [subst k; unfold beatIdx, clampZ, Math_floor; lia|].
  simpl. fold k.
  split; [apply list_lookup_insert_eq; lia|].
  split; [apply list_lookup_insert_eq; lia|].
  split; [|done].
  intros j Hj. by rewrite !list_lookup_insert_ne.
Qed.

Lemma single_beat_writes_witness :
  accents (setAccentForBeat 99 true initial) !! 3%nat = Some true
  ∧ volumes (setVolumeForBeat (-5) (7 # 2) initial) !! 0%nat = Some 1%Q.
Proof.
  destruct (single_beat_writes initial 99 true 0 wellFormed_initial)
    as (_ & _ & _ & _ & Hacc & _).
  destruct (single_beat_writes initial (-5) false (7 # 2) wellFormed_initial)
    as (_ & _ & _ & _ & _ & Hvol & _).
  split; [exact Hacc | exact Hvol].
Defined.

(** X12. On well-formed variables [toggleAccentForBeat] flips the accent
    of the clamped beat, and doing it twice restores every variable. *)
Theorem toggle_accent_involutive :
  forall s i,
    wellFormed s ->
    accents (toggleAccentForBeat i s) !! beatIdx i s
      = negb <$> accents s !! beatIdx i s
    ∧ toggleAccentForBeat i (toggleAccentForBeat i s) = s.
Proof.
  intros s i (Hb & Ha & _).
  assert (Hk : (beatIdx i s < length (accents s))%nat)
    by (rewrite Ha; apply beatIdx_lt; lia).
  destruct (lookup_lt_is_Some_2 _ _ Hk) as [a Hl].
  unfold toggleAccentForBeat. cbv zeta.
  change (beatIdx i (set_accents ?x s)) with (beatIdx i s).
  cbn [accents set_accents]. rewrite Hl.
  cbn [default fmap option_fmap option_map].
  rewrite list_lookup_insert_eq by done. split; [done|].
  cbn [default id]. rewrite list_insert_insert_eq, negb_involutive.
  rewrite list_insert_id by done. by destruct s.
Qed.

Lemma toggle_accent_involutive_witness :
  toggleAccentForBeat 7 (toggleAccentForBeat 7 initial) = initial.
Proof. apply (toggle_accent_involutive initial 7 wellFormed_initial). Defined.

(** *** Whole-array writes *)

(** X13. [setAccents] and [setVolumes] cut the given array at
    [beatsPerBar] or pad it with [false], respectively 1, each volume
    clamped; so giving back what [getState] returned changes nothing. *)
Theorem set_arrays_resize_and_round_trip :
  (forall s (values : list bool),
     let n := Z.to_nat (beatsPerBar s) in
     accents (setAccents values s)
       = take n values ++ replicate (n - length values) false)
  ∧ (forall s (values : list Q),
       let n := Z.to_nat (beatsPerBar s) in
       volumes (setVolumes values s)
         = take n (map (clampQ 0 1) values)
           ++ replicate (n - length values) 1%Q)
  ∧ (forall s, wellFormed s ->
       setAccents (snap_accents (getState s)) s = s
       ∧ setVolumes (snap_volumes (getState s)) s = s).
Proof.
  split; [|split].
  - intros s values n. simpl. fold n. apply copyPrefix_resize.
  - intros s values n. simpl. fold n.
    rewrite <- (length_map (clampQ 0 1) values). apply copyPrefix_resize.
  - intros s (Hb & Ha & Hv & Hf & _). unfold setAccents, setVolumes. simpl.
    rewrite <- (length_map (clampQ 0 1) (volumes s)).
    rewrite !copyPrefix_resize, length_map.
    assert (Hm : map (clampQ 0 1) (volumes s) = volumes s).
    { clear Hv. induction Hf as [|v l Hv _ IH]; [done|]. simpl.
      by rewrite Hv, IH. }
    rewrite Hm, Ha, Hv, Nat.sub_diag. simpl. rewrite !app_nil_r.
    rewrite <- Ha at 1. rewrite <- Hv at 1. rewrite !firstn_all.
    by destruct s.
Qed.

Lemma set_arrays_resize_and_round_trip_witness :
  setAccents (snap_accents (getState initial)) initial = initial
  ∧ setVolumes (snap_volumes (getState initial)) initial = initial.
Proof.
  apply (proj2 (proj2 set_arrays_resize_and_round_trip) initial).
  exact wellFormed_initial.
Defined.

(** X14. Growing the bar and shrinking it back restores every variable:
    the slots that a larger bar adds are dropped again, the old ones were
    never touched. *)
Theorem grow_then_shrink_restores :
  forall s b,
    wellFormed s -> beatsPerBar s <= b ->
    setBeatsPerBar (beatsPerBar s) (setBeatsPerBar b s) = s.
Proof.
  intros s b (Hb & Ha & Hv & _ & _ & _ & _ & Hts & _) Hle.
  unfold setBeatsPerBar at 1. cbv zeta.
  assert (Hc : clampZ 1 12 (Math_floor (beatsPerBar s)) = beatsPerBar s)
    by (unfold clampZ, Math_floor; lia).
  rewrite Hc. set (n := Z.to_nat (beatsPerBar s)).
  rewrite !copyPrefix_resize.
  unfold setBeatsPerBar. cbv zeta. cbn [accents volumes initialized sub bpm
    isRunning currentBeat currentBar loopStarted transportStarted
    transportBpm].
  set (m := Z.to_nat (clampZ 1 12 (Math_floor b))).
  assert (Hnm : (n <= m)%nat) by (subst n m; unfold clampZ, Math_floor; lia).
  rewrite !copyPrefix_resize, !length_app, !length_take, !length_replicate.
  fold n in Ha, Hv. rewrite Ha, Hv.
  replace (n - (m `min` n + (m - n)))%nat with 0%nat by lia.
  cbn [replicate]. rewrite !app_nil_r.
  rewrite !take_app_le by (rewrite length_take; lia).
  rewrite !take_take. replace (n `min` m)%nat with n by lia.
  rewrite !take_ge by lia.
  destruct s. simpl in *. by subst.
Qed.

Lemma grow_then_shrink_restores_witness :
  setBeatsPerBar (beatsPerBar initial) (setBeatsPerBar 6 initial) = initial.
Proof.
  apply (grow_then_shrink_restores initial 6 wellFormed_initial).
  simpl. lia.
Defined.

End BeatSchedulerExtras.

Section BeatSchedulerSessions.

Import Metronome.

Lemma bar_step beat bar bpb :
  1 <= bpb -> 0 <= beat -> bar = (beat + bpb - 1) / bpb ->
  Z.rem beat bpb = beat mod bpb
  ∧ (if decide (Z.rem beat bpb = 0) then bar + 1 else bar) = beat / bpb + 1
  ∧ beat / bpb + 1 = (beat + 1 + bpb - 1) / bpb.
Proof.
  intros Hb Hc ->. rewrite Z.rem_mod_nonneg by lia.
  split; [done|]. split.
  - case_decide; Z.div_mod_to_equations; nia.
  - Z.div_mod_to_equations; nia.
Qed.

Lemma counts_closed n : forall beat bar bpb,
  1 <= bpb -> 0 <= beat -> bar = (beat + bpb - 1) / bpb ->
  counts n beat bar bpb
  = map (fun k => ((beat + Z.of_nat k) mod bpb,
                   (beat + Z.of_nat k) / bpb + 1)) (seq 0 n).
Proof.
  induction n as [|n IH]; intros beat bar bpb Hb Hc Hbar; [done|].
  destruct (bar_step beat bar bpb Hb Hc Hbar) as (Hr & Hs & Hn).
  cbn [counts seq map]. cbv zeta. rewrite Hs, Hr.
  change (Z.of_nat 0) with 0. rewrite Z.add_0_r. f_equal.
  rewrite (IH (beat + 1) _ bpb Hb) by lia.
  rewrite <- seq_shift, map_map. apply map_ext. intros k.
  by replace (beat + 1 + Z.of_nat k) with (beat + Z.of_nat (S k)) by lia.
Qed.

Lemma ticks_counters n : forall s,
  1 <= beatsPerBar s -> 0 <= currentBeat s ->
  currentBar s = (currentBeat s + beatsPerBar s - 1) / beatsPerBar s ->
  beatsPerBar (ticks n s).1 = beatsPerBar s
  ∧ currentBeat (ticks n s).1 = currentBeat s + Z.of_nat n
  ∧ currentBar (ticks n s).1
    = (currentBeat s + Z.of_nat n + beatsPerBar s - 1) / beatsPerBar s.
Proof.
  induction n as [|n IH]; intros s Hb Hc Hbar.
  - simpl. rewrite Z.add_0_r. done.
  - rewrite ticks_S. cbn [fst]. rewrite loopCallback_state.
    destruct (bar_step _ _ _ Hb Hc Hbar) as (Hr & Hs & Hn).
    destruct (IH (set_counters (currentBeat s + 1) (barAfter s) s))
      as (E1 & E2 & E3); cbn [beatsPerBar currentBeat currentBar set_counters];
      try lia.
    + unfold barAfter, beatOf. by rewrite Hs.
    + rewrite E1, E2, E3. cbn [beatsPerBar currentBeat currentBar set_counters].
      split; [done|]. split; [lia|]. f_equal. lia.
Qed.

(** X15. After a reset of the counters, for every number of beats to the
    bar and every number of ticks: tick [k] (from 0) tells the subscriber
    beat [k mod beatsPerBar] of bar [k / beatsPerBar + 1], and after [n]
    ticks the beat counter is [n] and the bar counter the number of bars
    begun. *)
Theorem ticks_closed_form :
  forall n s f,
    1 <= beatsPerBar s -> currentBeat s = 0 -> currentBar s = 0 ->
    sub s = Some f ->
    let bpb := beatsPerBar s in
    notifications (ticks n s).2
      = map (fun k => (Z.of_nat k mod bpb, Z.of_nat k / bpb + 1)) (seq 0 n)
    ∧ currentBeat (ticks n s).1 = Z.of_nat n
    ∧ currentBar (ticks n s).1 = (Z.of_nat n + bpb - 1) / bpb.
Proof.
  intros n s f Hb Hc Hr Hsub bpb.
  assert (Hbar : currentBar s = (currentBeat s + bpb - 1) / bpb).
  { rewrite Hc, Hr. subst bpb. symmetry. apply Z.div_small. lia. }
  split.
  - rewrite (ticks_notifications n s f Hsub).
    rewrite (counts_closed n _ _ bpb Hb) by (done || lia).
    apply map_ext. intros k. by rewrite Hc.
  - destruct (ticks_counters n s Hb) as (_ & E2 & E3); [lia|done|].
    rewrite E2, E3, Hc. done.
Qed.

Lemma ticks_closed_form_witness :
  notifications (ticks 7 (setBeatsPerBar 3 (onTick (Some 1%nat) initial))).2
  = [(0, 1); (1, 1); (2, 1); (0, 2); (1, 2); (2, 2); (0, 3)].
Proof.
  apply (proj1 (ticks_closed_form 7
                  (setBeatsPerBar 3 (onTick (Some 1%nat) initial)) 1%nat
                  ltac:(vm_compute; discriminate) eq_refl eq_refl eq_refl)).
Defined.

(** X16. On well-formed variables a tick finds the accent and the volume
    of its beat (no slot is missing, so the defaults of the callback are
    never used), and plays one click: the high one at 0.9 times the stored
    volume when the beat is accented, the low one at 0.6 times it
    otherwise; the clamp in the callback changes nothing. *)
Theorem tick_plays_stored_beat :
  forall s,
    wellFormed s ->
    let b := beatOf s in
    0 <= b < beatsPerBar s
    ∧ exists (a : bool) (v : Q),
        accents s !! Z.to_nat b = Some a
        ∧ volumes s !! Z.to_nat b = Some v
        ∧ (0 <= v)%Q ∧ (v <= 1)%Q
        ∧ (loopCallback s).2
          = (if a then ClickHigh ((9 # 10) * v)%Q
             else ClickLow ((6 # 10) * v)%Q)
            :: match sub s with
               | Some f => [Notify f b (barAfter s)]
               | None => []
               end.
Proof.
  intros s (Hb & Ha & Hv & Hf & _ & Hc & _) b.
  assert (Hr : 0 <= b < beatsPerBar s)
    by (subst b; unfold beatOf; apply Z.rem_bound_pos; lia).
  split; [done|].
  destruct (lookup_lt_is_Some_2 (accents s) (Z.to_nat b)) as [a Hla]; [lia|].
  destruct (lookup_lt_is_Some_2 (volumes s) (Z.to_nat b)) as [v Hlv]; [lia|].
  pose proof (Forall_lookup_1 _ _ _ _ Hf Hlv) as Hfix. simpl in Hfix.
  exists a, v. split; [done|]. split; [done|].
  split; [by apply clamp_fixed_range|]. split; [by apply clamp_fixed_range|].
  unfold loopCallback. cbv zeta. cbn [snd]. fold (beatOf s). fold b.
  unfold at_. rewrite !decide_True by lia. rewrite Hla, Hlv.
  cbn [default id]. rewrite Hfix. unfold barAfter. fold b. done.
Qed.

Lemma tick_plays_stored_beat_witness :
  exists (a : bool) (v : Q),
    accents initial !! Z.to_nat (beatOf initial) = Some a
    ∧ volumes initial !! Z.to_nat (beatOf initial) = Some v
    ∧ (0 <= v)%Q ∧ (v <= 1)%Q
    ∧ (loopCallback initial).2
      = (if a then ClickHigh ((9 # 10) * v)%Q
         else ClickLow ((6 # 10) * v)%Q)
        :: match sub initial with
           | Some f => [Notify f (beatOf initial) (barAfter initial)]
           | None => []
           end.
Proof. apply (proj2 (tick_plays_stored_beat initial wellFormed_initial)). Defined.

(** X17. [onTick] replaces the subscriber: over [n] ticks the functions
    called are [n] times the one given last, none at all after
    [onTick(null)], whoever was subscribed before; the [n] clicks are
    played either way. *)
Theorem latest_subscriber_only :
  forall n s fn,
    let es := (ticks n (onTick fn s)).2 in
    omap subscriberOf es
      = match fn with Some f => replicate n f | None => [] end
    ∧ length (List.filter isClick es) = n.
Proof.
  intros n s fn. cbv zeta.
  assert (Hs : sub (onTick fn s) = fn) by done.
  generalize dependent (onTick fn s). clear s.
  induction n as [|n IH]; intros s Hs.
  - by destruct fn.
  - rewrite ticks_S. cbn [snd].
    rewrite omap_app, List.filter_app, length_app.
    destruct (IH (loopCallback s).1) as [E1 E2];
      [by rewrite loopCallback_state|].
    rewrite E1, E2. unfold loopCallback. cbv zeta. cbn [snd]. rewrite Hs.
    destruct fn; by destruct (default false _).
Qed.

Lemma never_apply op ctx s :
  isRunning s = false -> initialized s = false -> loopStarted s = false ->
  exists ctx' s',
    apply op (ctx, s) = (ctx', s', [])
    ∧ isRunning s' = false ∧ initialized s' = false ∧ loopStarted s' = false.
Proof.
  intros Hr Hi Hl.
  destruct op as [u| |u|next|next|fn| |i v|i|values|i value|values| ];
    cbn [apply]; try (by eexists _, _).
  - pose proof (start_state u ctx s) as E.
    destruct (start u ctx s) as [c1 s1]. simpl in E. subst s1.
    by eexists _, _.
  - exists ctx, s. split; [|done]. unfold stop. by rewrite Hi.
  - unfold toggle. rewrite Hr. pose proof (start_state u ctx s) as E.
    destruct (start u ctx s) as [c1 s1]. simpl in E. subst s1.
    by eexists _, _.
  - exists ctx, s. by rewrite Hl.
Qed.

(** X18. From the module as loaded, no sequence of calls and ticks gets
    the metronome going: [isRunning] stays false, the synths and the loop
    are never built, and not one click or notification is emitted. *)
Theorem metronome_never_runs :
  forall ops ctx,
    let r := run ops (ctx, initial) in
    isRunning r.1.2 = false ∧ initialized r.1.2 = false ∧ r.2 = [].
Proof.
  intros ops ctx. cbv zeta.
  assert (H : isRunning initial = false ∧ initialized initial = false
              ∧ loopStarted initial = false) by done.
  generalize dependent initial. intros s. revert ctx s.
  induction ops as [|op ops IH]; intros ctx s (Hr & Hi & Hl); [done|].
  rewrite run_cons.
  destruct (never_apply op ctx s Hr Hi Hl) as (ctx' & s' & -> & Hr' & Hi' & Hl').
  cbn [fst snd]. destruct (IH ctx' s') as (E1 & E2 & E3); [done|].
  by rewrite E1, E2, E3.
Qed.

End BeatSchedulerSessions.

(* ===================================================================== *)
(** * More on the binding resolver *)
(* ===================================================================== *)

Section BindingResolverMore.

Import Sampler MidiSampler.

#[local] Arguments current : simpl never.
#[local] Arguments loadBindings : simpl never.
#[local] Arguments setItem : simpl never.

(** *** The store follows the table *)

Lemma synced_persist next s : synced (persistBindings next s).
Proof.
  unfold synced. cbn [localStorage bindings persistBindings].
  unfold setItem. split; [by exists next|]. apply loadBindings_stringified.
Qed.

(** The empty store and a store that [persistBindings] wrote are the
    component's own. *)
Lemma synced_mount st : ownStore st -> synced (mount st).
Proof. intros Ho. by split. Qed.

Ltac synced_same := unfold synced in *; simpl; done.

Lemma once_synced l key s : synced s -> synced (once l key s).
Proof.
  intros Hs. unfold once.
  destruct (otherOwner keys (forMidi l) (toLowerCase key) (seen l));
    [synced_same|].
  destruct (decide _); [synced_same|].
  pose proof (synced_persist
    (<[forMidi l := with_keys (keys (current (forMidi l) (seen l))
                               ++ [toLowerCase key])
                      (current (forMidi l) (seen l))]> (seen l)) s) as Hp.
  unfold synced in *. exact Hp.
Qed.

Lemma keydown_synced key s : synced s -> synced (keydown key s).
Proof.
  intros Hs. unfold keydown.
  assert (H0 : synced (set_keydownOnce [] s)) by synced_same.
  revert H0. generalize (set_keydownOnce [] s) as s0.
  induction (keydownOnce s) as [|l ls IH]; intros s0 H0; [done|].
  simpl. apply IH. by apply once_synced.
Qed.

Lemma onMidiNote_synced note vel s :
  synced s -> synced (onMidiNote note vel s).1.
Proof.
  intros Hs. unfold onMidiNote. cbv zeta.
  repeat case_match; try synced_same;
    cbn [fst]; apply (synced_persist _ s).
Qed.

Lemma onMidiCc_synced cc val s : synced s -> synced (onMidiCc cc val s).1.
Proof.
  intros Hs. unfold onMidiCc. cbv zeta.
  repeat case_match; try synced_same;
    cbn [fst]; apply (synced_persist _ s).
Qed.

Lemma handle_synced op s : synced s -> synced (handle op s).1.
Proof.
  intros Hs. destruct op; cbn [handle fst].
  - synced_same.
  - unfold handlePadEdit. destruct (padMidi p); synced_same.
  - synced_same.
  - unfold addKeyClick. destruct (modalForMidi s); synced_same.
  - unfold addMidiClick. destruct (selectedId s), (modalForMidi s); synced_same.
  - unfold addCcClick. destruct (selectedId s), (modalForMidi s); synced_same.
  - by apply keydown_synced.
  - destruct (selectedId s); [|done]. by apply onMidiNote_synced.
  - destruct (selectedId s); [|done]. by apply onMidiCc_synced.
  - unfold removeKey. destruct (modalForMidi s); [|done]. apply synced_persist.
  - unfold removeMidi. destruct (modalForMidi s); [|done]. apply synced_persist.
  - unfold removeCc. destruct (modalForMidi s); [|done]. apply synced_persist.
  - apply synced_persist.
Qed.

Lemma step_synced op s : synced s -> synced (step op s).1.
Proof.
  intros Hs. unfold step. pose proof (handle_synced op s Hs) as H'.
  destruct (handle op s) as [s' out]. unfold rerender.
  destruct (decide _); synced_same.
Qed.

Lemma run_synced ops : forall s, synced s -> synced (run ops s).1.
Proof.
  induction ops as [|op ops IH]; intros s Hs; [done|].
  cbn [run]. pose proof (step_synced op s Hs) as H1.
  destruct (step op s) as [s1 out1]. specialize (IH s1 H1).
  by destruct (run ops s1).
Qed.

(** X19. Mount the component on a store that is its own: empty, or with
    a bindings item that [persistBindings] wrote.  Whatever happens then,
    the store (which takes every write in this model) stays the
    component's own and holds the table of the state, so that a reload at
    any moment starts from exactly the bindings on screen. *)
Theorem store_follows_table :
  forall ops st,
    ownStore st ->
    let s := (run ops (mount st)).1 in
    ownStore (localStorage s)
    ∧ bindings (mount (localStorage s)) = bindings s.
Proof.
  intros ops st Ho. apply (run_synced ops (mount st)). by apply synced_mount.
Qed.

Lemma store_follows_table_witness :
  let s := (run [SelectDevice "dev"; EditPad Kick; AddKeyClick; KeyDown "Q";
                 AddMidiClick; MidiNote 60 100; RemoveKey "q"]
                (mount {| BINDING_KEY := None; LEGACY_KEYMAP_KEY := None |})).1
  in
  bindings (mount (localStorage s)) = bindings s.
Proof.
  cbv zeta.
  apply (store_follows_table
           [SelectDevice "dev"; EditPad Kick; AddKeyClick; KeyDown "Q";
            AddMidiClick; MidiNote 60 100; RemoveKey "q"]
           {| BINDING_KEY := None; LEGACY_KEYMAP_KEY := None |}).
  reflexivity.
Defined.

(** *** Resolving what comes in *)

Lemma unique_owner (f : PadBinding -> list N) (table : PadBindings)
    t1 b1 t2 b2 v :
  (forall b b', apart b b' -> Forall (fun x => x ∉ f b') (f b)) ->
  unique table -> table !! t1 = Some b1 -> table !! t2 = Some b2 ->
  v ∈ f b1 -> v ∈ f b2 -> t1 = t2.
Proof.
  intros Hf Hu H1 H2 V1 V2. destruct (decide (t1 = t2)) as [|Hne]; [done|].
  pose proof (Hf _ _ (Hu t1 b1 H1 t2 b2 H2 Hne)) as Ha.
  rewrite Forall_forall in Ha. by destruct (Ha v V1).
Qed.

Lemma firstOwner_unique (f : PadBinding -> list N) (table : PadBindings)
    t b v :
  (forall b b', apart b b' -> Forall (fun x => x ∉ f b') (f b)) ->
  unique table -> table !! t = Some b -> v ∈ f b ->
  firstOwner f v table = Some t.
Proof.
  intros Hf Hu Hl Hv.
  destruct (firstOwner_is_Some f v table t b Hl Hv) as [t' Ht'].
  rewrite Ht'. f_equal.
  destruct (firstOwner_Some f v table t' Ht') as (b' & Hl' & Hv').
  by apply (unique_owner f table t' b' t b v).
Qed.

Lemma firstOwner_None f v (table : PadBindings) :
  firstOwner f v table = None <->
  forall t b, table !! t = Some b -> v ∉ f b.
Proof.
  split.
  - intros Hn t b Hl Hv.
    destruct (firstOwner_is_Some f v table t b Hl Hv) as [x Hx]. congruence.
  - intros Hall. destruct (firstOwner f v table) as [t|] eqn:Ho; [|done].
    destruct (firstOwner_Some f v table t Ho) as (b & Hl & Hv).
    by destruct (Hall t b Hl).
Qed.

Lemma apart_midis b b' : apart b b' -> Forall (fun x => x ∉ midis b') (midis b).
Proof. by intros (_ & H & _). Qed.

Lemma apart_ccs b b' : apart b b' -> Forall (fun x => x ∉ ccs b') (ccs b).
Proof. by intros (_ & _ & H). Qed.

(** X20. What an incoming number resolves to.  A pad's default note is
    never redirected, whatever the table lists.  In a table without
    shared bindings a note that is no default resolves to the one target
    that lists it, and a controller to the one target that lists it.  A
    note that no target lists resolves to itself, a controller that no
    target lists to nothing. *)
Theorem incoming_resolution :
  forall (table : PadBindings) (n : N),
    (n ∈ defaultMidiSet -> getResolvedIncomingMidi n table = n)
    ∧ (forall t b,
         unique table -> table !! t = Some b ->
         (n ∉ defaultMidiSet -> n ∈ midis b ->
            getResolvedIncomingMidi n table = t)
         ∧ (n ∈ ccs b -> getResolvedIncomingCc n table = Some t))
    ∧ ((forall t b, table !! t = Some b -> n ∉ midis b) ->
         getResolvedIncomingMidi n table = n)
    ∧ ((forall t b, table !! t = Some b -> n ∉ ccs b) ->
         getResolvedIncomingCc n table = None).
Proof.
  intros table n. unfold getResolvedIncomingMidi, getResolvedIncomingCc.
  split; [intros Hd; by rewrite decide_True|].
  split; [|split].
  - intros t b Hu Hl. split.
    + intros Hd Hn. rewrite decide_False by done.
      by rewrite (firstOwner_unique midis table t b n apart_midis Hu Hl Hn).
    + intros Hn. by apply (firstOwner_unique ccs table t b n apart_ccs Hu Hl).
  - intros Hall. destruct (decide _); [done|].
    by rewrite (proj2 (firstOwner_None midis n table) Hall).
  - apply firstOwner_None.
Qed.

Lemma incoming_resolution_witness :
  getResolvedIncomingMidi 60
    (<[36%N := mkBinding ["a"] [60%N] [64%N]]> (∅ : PadBindings)) = 36%N
  ∧ getResolvedIncomingCc 64
      (<[36%N := mkBinding ["a"] [60%N] [64%N]]> (∅ : PadBindings))
    = Some 36%N
  ∧ getResolvedIncomingMidi 38
      (<[36%N := mkBinding ["a"] [38%N] []]> (∅ : PadBindings)) = 38%N.
Proof.
  pose proof (incoming_resolution
                (<[36%N := mkBinding ["a"] [60%N] [64%N]]> ∅) 60)
    as (_ & Hm & _).
  pose proof (incoming_resolution
                (<[36%N := mkBinding ["a"] [60%N] [64%N]]> ∅) 64)
    as (_ & Hc & _).
  pose proof (incoming_resolution
                (<[36%N := mkBinding ["a"] [38%N] []]> ∅) 38)
    as (Hd & _).
  split; [|split].
  - apply (proj1 (Hm 36%N (mkBinding ["a"] [60%N] [64%N])
                    ltac:(compute_done) eq_refl));
      [compute_done | by apply list_elem_of_singleton].
  - apply (proj2 (Hc 36%N (mkBinding ["a"] [60%N] [64%N])
                    ltac:(compute_done) eq_refl)).
    by apply list_elem_of_singleton.
  - apply Hd. compute_done.
Defined.


(** *** From a capture to the pad it plays *)

Lemma padMidi_pad p : padMidi p = Some (PAD_TO_MIDI p).
Proof. by destruct p. Qed.

Lemma flashFor_pad p : flashFor (PAD_TO_MIDI p) = [Flash p].
Proof. by destruct p. Qed.

Lemma run_step op ops s :
  run (op :: ops) s
  = ((run ops (step op s).1).1, (step op s).2 ++ (run ops (step op s).1).2).
Proof.
  cbn [run]. destruct (step op s) as [s1 o1]. cbn [fst snd].
  by destruct (run ops s1).
Qed.

Lemma step_fst op s : (step op s).1 = rerender s (handle op s).1.
Proof. unfold step. by destruct (handle op s). Qed.

Lemma step_snd op s : (step op s).2 = (handle op s).2.
Proof. unfold step. by destruct (handle op s). Qed.

Lemma rerender_same s s' : sameButCcDown (rerender s s') s'.
Proof. unfold rerender. destruct (decide _); by repeat split. Qed.


Ltac proj_simpl :=
  cbn [selectedId audioReady modalForMidi listenKeyForMidi listenMidiForMidi
       listenCcForMidi conflictKey conflictMidi conflictCc bindings
       keydownOnce ccDown localStorage
       set_selectedId set_audioReady setModalForMidi setListenKeyForMidi
       setListenMidiForMidi setListenCcForMidi setConflictKey setConflictMidi
       setConflictCc set_keydownOnce set_ccDown persistBindings
       clearConflicts clearListens fst snd] in *.

Lemma step_same op s : sameButCcDown (step op s).1 (handle op s).1.
Proof. rewrite step_fst. apply rerender_same. Qed.

Lemma step_EditPad p s :
  sameButCcDown (step (EditPad p) s).1
    (clearConflicts (setModalForMidi (Some (PAD_TO_MIDI p)) s)).
Proof.
  pose proof (step_same (EditPad p) s) as H. cbn [handle fst] in H.
  unfold handlePadEdit in H. by rewrite padMidi_pad in H.
Qed.

Lemma step_AddMidiClick s d t :
  selectedId s = Some d -> modalForMidi s = Some t ->
  sameButCcDown (step AddMidiClick s).1
    (setListenMidiForMidi (Some t)
       (clearConflicts (setListenCcForMidi None (setListenKeyForMidi None s)))).
Proof.
  intros Hd Hm. pose proof (step_same AddMidiClick s) as H.
  cbn [handle fst] in H. unfold addMidiClick in H. by rewrite Hd, Hm in H.
Qed.


(** A note that commits a capture. *)
Lemma onMidiNote_commit t n v x :
  listenMidiForMidi x = Some t -> (0 < v)%N ->
  otherOwner midis t n (bindings x) = None ->
  n ∉ defaultMidiSet -> n ≠ t ->
  onMidiNote n v x
  = (setListenMidiForMidi None
       (if decide (n ∈ midis (current t (bindings x))) then x
        else persistBindings
               (<[t := with_midis (midis (current t (bindings x)) ++ [n])
                         (current t (bindings x))]> (bindings x)) x), []).
Proof.
  intros Hl Hv Ho Hd Hne. unfold onMidiNote.
  rewrite Hl, decide_True by done. rewrite Ho.
  cbn [fmap option_fmap option_map].
  rewrite (bool_decide_eq_false_2 _ Hd). cbn [andb].
  rewrite decide_False by done. done.
Qed.

(** A note that arrives while no note capture is pending. *)
Lemma onMidiNote_play n v x :
  listenMidiForMidi x = None -> (0 < v)%N ->
  onMidiNote n v x
  = (x, flashFor (getResolvedIncomingMidi n (bindings x))
        ++ (if audioReady x
            then [TriggerMidi (getResolvedIncomingMidi n (bindings x)) v]
            else [])).
Proof.
  intros Hl Hv. unfold onMidiNote. rewrite Hl. cbv zeta.
  rewrite !decide_True by done.
  destruct (audioReady x); cbn [negb]; [done|]. by rewrite app_nil_r.
Qed.

Lemma insert_owner (table : PadBindings) t n :
  n ∈ midis (current t
               (if decide (n ∈ midis (current t table)) then table
                else <[t := with_midis (midis (current t table) ++ [n])
                                (current t table)]> table)).
Proof.
  destruct (decide _) as [Hin|Hin]; [done|].
  unfold current at 1. rewrite lookup_insert_eq. simpl.
  apply elem_of_app. right. by apply list_elem_of_singleton.
Qed.

Lemma current_midis (table : PadBindings) t n :
  n ∈ midis (current t table) -> exists b, table !! t = Some b ∧ n ∈ midis b.
Proof.
  destruct (table !! t) as [b|] eqn:Hl.
  - rewrite (current_Some _ _ _ Hl). by exists b.
  - rewrite (current_None _ _ Hl). simpl. by intros ?%elem_of_nil.
Qed.

(** X21. From capture to sound.  With a device selected and a table
    without shared bindings: open the dialog of pad [p], press "Add MIDI
    binding" and send a note that is no pad's default and that no other
    target lists.  The capture ends without a conflict, the note is listed
    under [p], and from then on the note, at any velocity above 0, flashes
    pad [p] and, when audio is enabled, plays [p]'s own note at that
    velocity. *)
Theorem captured_note_plays_pad :
  forall (s : State) (p : DrumPad) (n v v' : N),
    is_Some (selectedId s) ->
    unique (bindings s) ->
    n ∉ defaultMidiSet ->
    otherOwner midis (PAD_TO_MIDI p) n (bindings s) = None ->
    (0 < v)%N -> (0 < v')%N ->
    let s1 := (run [EditPad p; AddMidiClick; MidiNote n v] s).1 in
    listenMidiForMidi s1 = None
    ∧ conflictMidi s1 = None
    ∧ n ∈ midis (current (PAD_TO_MIDI p) (bindings s1))
    ∧ getResolvedIncomingMidi n (bindings s1) = PAD_TO_MIDI p
    ∧ (step (MidiNote n v') s1).2
      = Flash p :: (if audioReady s
                    then [TriggerMidi (PAD_TO_MIDI p) v'] else []).
Proof.
  intros s p n v v' [d Hd] Hu Hn Ho Hv Hv'. cbv zeta.
  set (t := PAD_TO_MIDI p) in *.
  assert (Hnt : n ≠ t).
  { intros ->. apply Hn. apply PAD_TO_MIDI_default. }
  rewrite !run_step. cbn [run fst].
  set (a := (step (EditPad p) s).1).
  pose proof (step_EditPad p s) as Ha. fold a in Ha. fold t in Ha.
  destruct Ha as (A1&A2&A3&A4&A5&A6&A7&A8&A9&A10&A11&A12). proj_simpl.
  set (b := (step AddMidiClick a).1).
  pose proof (step_AddMidiClick a d t) as Hb. fold b in Hb.
  destruct Hb as (B1&B2&B3&B4&B5&B6&B7&B8&B9&B10&B11&B12);
    [congruence|done|]. proj_simpl.
  set (c := (step (MidiNote n v) b).1).
  pose proof (step_same (MidiNote n v) b) as Hc. fold c in Hc.
  cbn [handle] in Hc. rewrite B1, A1, Hd in Hc.
  rewrite (onMidiNote_commit t n v b) in Hc;
    [|done|done|by rewrite B10, A10|done|done].
  assert (Hc' : selectedId c = Some d ∧ audioReady c = audioReady s
                ∧ listenMidiForMidi c = None ∧ conflictMidi c = None
                ∧ bindings c
                  = if decide (n ∈ midis (current t (bindings s)))
                    then bindings s
                    else <[t := with_midis (midis (current t (bindings s))
                                            ++ [n])
                                  (current t (bindings s))]> (bindings s)).
  { rewrite B10, A10 in Hc.
    destruct (decide (n ∈ midis (current t (bindings s))));
      destruct Hc as (C1&C2&C3&C4&C5&C6&C7&C8&C9&C10&C11&C12); proj_simpl;
      repeat split; congruence. }
  clear Hc. destruct Hc' as (C1 & C2 & C5 & C8 & Hbind).
  assert (Hin : n ∈ midis (current t (bindings c))).
  { rewrite Hbind. apply insert_owner. }
  assert (Huc : unique (bindings c)).
  { rewrite Hbind. destruct (decide _); [done|]. by apply unique_add_midi. }
  assert (Hres : getResolvedIncomingMidi n (bindings c) = t).
  { destruct (current_midis _ _ _ Hin) as (bb & Hl & Hm).
    unfold getResolvedIncomingMidi. rewrite decide_False by done.
    by rewrite (firstOwner_unique midis _ t bb n apart_midis Huc Hl Hm). }
  do 4 (split; [done|]).
  rewrite step_snd. cbn [handle]. rewrite C1.
  rewrite onMidiNote_play by done.
  cbn [snd]. rewrite Hres. unfold t. rewrite flashFor_pad. cbn [app].
  by rewrite C2.
Qed.

Lemma captured_note_plays_pad_witness :
  let s := set_audioReady true
             (set_selectedId (Some "dev")
                (mount {| BINDING_KEY := None; LEGACY_KEYMAP_KEY := None |})) in
  (step (MidiNote 60 90)
        (run [EditPad Snare; AddMidiClick; MidiNote 60 100] s).1).2
  = [Flash Snare; TriggerMidi 38 90].
Proof.
  cbv zeta.
  apply (captured_note_plays_pad
           (set_audioReady true
              (set_selectedId (Some "dev")
                 (mount {| BINDING_KEY := None; LEGACY_KEYMAP_KEY := None |})))
           Snare 60 100 90);
    [by eexists | compute_done | compute_done | reflexivity
    | reflexivity | reflexivity].
Defined.


(** X22. A note with velocity 0 changes nothing and plays nothing, even
    while a note capture is pending.  A controller value 0 completes no
    controller capture, reports no conflict, leaves table and store alone
    and triggers nothing; it only records the controller as up. *)
Theorem zero_value_is_no_capture :
  forall (s : State) (n : N),
    step (MidiNote n 0) s = (s, [])
    ∧ let r := step (MidiCc n 0) s in
      bindings r.1 = bindings s
      ∧ localStorage r.1 = localStorage s
      ∧ listenCcForMidi r.1 = listenCcForMidi s
      ∧ conflictCc r.1 = conflictCc s
      ∧ triggers r.2 = []
      ∧ (is_Some (selectedId s) -> ccDown r.1 !! n = Some false).
Proof.
  intros s n. split.
  - unfold step. cbn [handle].
    assert (Hr : rerender s s = s)
      by (unfold rerender; by rewrite decide_True).
    destruct (selectedId s); [|cbv beta iota; by rewrite Hr].
    unfold onMidiNote. cbv zeta.
    replace (match listenMidiForMidi s with
             | Some t => if decide (0 < 0)%N then Some t else None
             | None => None
             end) with (@None N) by (by destruct (listenMidiForMidi s)).
    rewrite decide_False by lia.
    destruct (negb (audioReady s)); rewrite ?decide_False by lia;
      cbv beta iota; by rewrite Hr.
  - cbv zeta. rewrite step_snd.
    destruct (step_same (MidiCc n 0) s)
      as (C1&C2&C3&C4&C5&C6&C7&C8&C9&C10&C11&C12).
    rewrite C10, C12, C6, C9. rewrite step_fst. cbn [handle].
    destruct (selectedId s) as [d|] eqn:Hd.
    2:{ repeat split; done. }
    unfold onMidiCc. cbv zeta.
    replace (match listenCcForMidi s with
             | Some t => if decide (0 < 0)%N then Some t else None
             | None => None
             end) with (@None N) by (by destruct (listenCcForMidi s)).
    unfold CC_TRIGGER_THRESHOLD.
    rewrite (bool_decide_eq_false_2 (64 ≤ 0)%N) by lia.
    cbn [negb orb fst snd]. proj_simpl.
    do 4 (split; [done|]). split; [by destruct (decide (n = 4%N))|].
    intros _. unfold rerender. destruct (decide _) as [|Hne]; proj_simpl.
    + apply lookup_insert_eq.
    + exfalso. apply Hne. reflexivity.
Qed.

Lemma zero_value_is_no_capture_witness :
  let s := setListenCcForMidi (Some 36%N)
             (set_selectedId (Some "dev")
                (mount {| BINDING_KEY := None; LEGACY_KEYMAP_KEY := None |})) in
  listenCcForMidi (step (MidiCc 64 0) s).1 = Some 36%N
  ∧ ccDown (step (MidiCc 64 0) s).1 !! 64%N = Some false.
Proof.
  cbv zeta.
  destruct (proj2 (zero_value_is_no_capture
              (setListenCcForMidi (Some 36%N)
                 (set_selectedId (Some "dev")
                    (mount {| BINDING_KEY := None;
                              LEGACY_KEYMAP_KEY := None |}))) 64))
    as (_ & _ & Hl & _ & _ & Hd).
  split; [exact Hl | apply Hd; by eexists].
Defined.





(** *** The key map *)

Lemma fromKeyEntries_snoc {V : Type} (es : list (string * V)) e :
  fromKeyEntries (es ++ [e]) = <[e.1 := e.2]> (fromKeyEntries es).
Proof. unfold fromKeyEntries. by rewrite foldl_app. Qed.

Lemma fromKeyEntries_Some {V : Type} (es : list (string * V)) k v :
  fromKeyEntries es !! k = Some v -> (k, v) ∈ es.
Proof.
  induction es as [|[k' v'] es IH] using rev_ind.
  - unfold fromKeyEntries. simpl. by rewrite lookup_empty.
  - rewrite fromKeyEntries_snoc. simpl. rewrite elem_of_app.
    destruct (decide (k' = k)) as [->|Hne].
    + rewrite lookup_insert_eq. intros [= ->]. right.
      by apply list_elem_of_singleton.
    + rewrite lookup_insert_ne by done. intros H. left. by apply IH.
Qed.

Lemma fromKeyEntries_None {V : Type} (es : list (string * V)) k :
  fromKeyEntries es !! k = None <-> forall v, (k, v) ∉ es.
Proof.
  induction es as [|[k' v'] es IH] using rev_ind.
  - unfold fromKeyEntries. simpl. rewrite lookup_empty. split; [|done].
    intros _ v Hv. by apply elem_of_nil in Hv.
  - rewrite fromKeyEntries_snoc. simpl.
    destruct (decide (k' = k)) as [->|Hne].
    + rewrite lookup_insert_eq. split; [done|]. intros H. exfalso.
      apply (H v'). apply elem_of_app. right. by apply list_elem_of_singleton.
    + rewrite lookup_insert_ne by done. rewrite IH. split.
      * intros H v Hv. apply elem_of_app in Hv as [Hv|Hv]; [by apply (H v)|].
        apply list_elem_of_singleton in Hv. congruence.
      * intros H v Hv. apply (H v). apply elem_of_app. by left.
Qed.

Lemma elem_of_keyMapEntries (table : PadBindings) k x :
  (k, x) ∈ keyMapEntries table <->
  exists t b, table !! t = Some b ∧ k ∈ keys b ∧ x = Some t.
Proof.
  unfold keyMapEntries. rewrite list_elem_of_bind. split.
  - intros ([t b] & Hin & He). apply list_elem_of_fmap in Hin.
    destruct Hin as (k' & [= -> ->] & Hk). simpl in Hk.
    exists t, b. rewrite Number_String.
    split; [by apply elem_of_Object_entries|]. by split.
  - intros (t & b & Hl & Hk & ->). exists (t, b).
    split; [|by apply elem_of_Object_entries]. apply list_elem_of_fmap.
    exists k. simpl. by rewrite Number_String.
Qed.

Lemma apart_keys b b' : apart b b' -> Forall (fun x => x ∉ keys b') (keys b).
Proof. by intros (H & _ & _). Qed.

(** X24. The key map that the keyboard hook reads, for a table of the
    component (its names are the numerals of its targets, which [Number]
    reads back).  A key that no target lists is not in the map; and in a
    table without shared bindings the map sends a key to target [t]
    exactly when [t] lists the key. *)
Theorem keyMap_exact :
  forall (table : PadBindings) (k : string),
    (keyMap table !! k = None <->
       forall t b, table !! t = Some b -> k ∉ keys b)
    ∧ (unique table ->
       forall t, keyMap table !! k = Some (Some t) <->
                 exists b, table !! t = Some b ∧ k ∈ keys b).
Proof.
  intros table k. unfold keyMap. split.
  - rewrite fromKeyEntries_None. split.
    + intros H t b Hl Hk. apply (H (Some t)). apply elem_of_keyMapEntries.
      by exists t, b.
    + intros H v Hv. apply elem_of_keyMapEntries in Hv.
      destruct Hv as (t & b & Hl & Hk & _). by apply (H t b).
  - intros Hu t. split.
    + intros Hs. apply fromKeyEntries_Some, elem_of_keyMapEntries in Hs.
      destruct Hs as (t' & b & Hl & Hk & [= ->]). by exists b.
    + intros (b & Hl & Hk).
      destruct (fromKeyEntries (keyMapEntries table) !! k) as [x|] eqn:Hx.
      * apply fromKeyEntries_Some, elem_of_keyMapEntries in Hx.
        destruct Hx as (t' & b' & Hl' & Hk' & ->). do 2 f_equal.
        destruct (decide (t' = t)) as [|Hne]; [done|].
        pose proof (apart_keys _ _ (Hu t' b' Hl' t b Hl Hne)) as Ha.
        rewrite Forall_forall in Ha. by destruct (Ha k Hk').
      * exfalso. apply (proj1 (fromKeyEntries_None _ k) Hx (Some t)).
        apply elem_of_keyMapEntries. by exists t, b.
Qed.

Lemma keyMap_exact_witness :
  keyMap (<[36%N := mkBinding ["a"; "s"] [] []]>
            (<[38%N := mkBinding ["d"] [60%N] []]> ∅)) !! "s"
  = Some (Some 36%N).
Proof.
  apply (proj2 (keyMap_exact
           (<[36%N := mkBinding ["a"; "s"] [] []]>
              (<[38%N := mkBinding ["d"] [60%N] []]> ∅)) "s")
           ltac:(compute_done) 36%N).
  exists (mkBinding ["a"; "s"] [] []). split; [reflexivity|].
  apply list_elem_of_here || (apply list_elem_of_further, list_elem_of_here).
Defined.


(** *** No duplicates inside a list *)

Lemma NoDup_snoc {A : Type} (l : list A) x : NoDup l -> x ∉ l -> NoDup (l ++ [x]).
Proof.
  intros Hl Hx. apply NoDup_app. split; [done|]. split.
  - intros y Hy Hy'. apply list_elem_of_singleton in Hy'. by subst.
  - apply NoDup_singleton.
Qed.

Lemma noDups_empty : noDups ∅.
Proof. intros t b Hl. by rewrite lookup_empty in Hl. Qed.

Lemma noDups_insert (table : PadBindings) t b' :
  noDups table -> NoDup (keys b') -> NoDup (midis b') -> NoDup (ccs b') ->
  noDups (<[t := b']> table).
Proof.
  intros Hn Hk Hm Hc t1 b1 H1. destruct (decide (t1 = t)) as [->|Hne].
  - rewrite lookup_insert_eq in H1. by injection H1 as <-.
  - rewrite lookup_insert_ne in H1 by done. by apply (Hn t1).
Qed.

Lemma current_noDups (table : PadBindings) t :
  noDups table ->
  NoDup (keys (current t table)) ∧ NoDup (midis (current t table))
  ∧ NoDup (ccs (current t table)).
Proof.
  intros Hn. destruct (table !! t) as [b|] eqn:Ht.
  - rewrite (current_Some _ _ _ Ht). by apply (Hn t).
  - rewrite (current_None _ _ Ht). simpl. repeat split; apply NoDup_nil_2.
Qed.

Ltac nd_same := split; simpl; done.

Lemma once_noDups l key s :
  noDups (bindings s) -> noDups (seen l) ->
  noDups (bindings (once l key s)) ∧ keydownOnce (once l key s) = keydownOnce s.
Proof.
  intros Hb Hl. unfold once.
  destruct (otherOwner keys (forMidi l) (toLowerCase key) (seen l)); [done|].
  destruct (decide _) as [|Hin];
    cbn [bindings keydownOnce setListenKeyForMidi persistBindings]; [done|].
  split; [|done].
  destruct (current_noDups (seen l) (forMidi l) Hl) as (Hk & Hm & Hc).
  apply noDups_insert; simpl; try done. by apply NoDup_snoc.
Qed.

Lemma keydown_noDups key s : Inv noDups s -> Inv noDups (keydown key s).
Proof.
  intros [Hb Hl]. unfold keydown.
  assert (Hs : noDups (bindings (set_keydownOnce [] s))
               ∧ keydownOnce (set_keydownOnce [] s) = []) by done.
  revert Hs. generalize (set_keydownOnce [] s) as s0.
  induction Hl as [|l ls Hl Hls IH]; intros s0 [Hb0 Hk0]; simpl.
  - split; [done|]. rewrite Hk0. constructor.
  - apply IH. destruct (once_noDups l key s0 Hb0 Hl) as [Hb1 Hk1].
    split; [done|]. by rewrite Hk1.
Qed.

Lemma onMidiNote_noDups note vel s :
  Inv noDups s -> Inv noDups (onMidiNote note vel s).1.
Proof.
  intros [Hb Hl]. unfold onMidiNote. cbv zeta.
  destruct (current_noDups (bindings s)
              (default 0%N (listenMidiForMidi s)) Hb) as (Hk & Hm & Hc).
  repeat case_match; try nd_same; simplify_eq; cbn [default] in *;
    (split; cbn [fst bindings keydownOnce setListenMidiForMidi
                 persistBindings]; [|done]);
    apply noDups_insert; simpl; try done; by apply NoDup_snoc.
Qed.

Lemma onMidiCc_noDups cc val s :
  Inv noDups s -> Inv noDups (onMidiCc cc val s).1.
Proof.
  intros [Hb Hl]. unfold onMidiCc. cbv zeta.
  destruct (current_noDups (bindings s)
              (default 0%N (listenCcForMidi s)) Hb) as (Hk & Hm & Hc).
  repeat case_match; try nd_same; simplify_eq; cbn [default] in *;
    (split; cbn [fst bindings keydownOnce setListenCcForMidi
                 persistBindings]; [|done]);
    apply noDups_insert; simpl; try done; by apply NoDup_snoc.
Qed.

Lemma handle_noDups op s : Inv noDups s -> Inv noDups (handle op s).1.
Proof.
  intros HI. pose proof HI as [Hb Hl]. destruct op; cbn [handle fst].
  - nd_same.
  - unfold handlePadEdit. destruct (padMidi p); nd_same.
  - nd_same.
  - unfold addKeyClick. destruct (modalForMidi s); [|nd_same].
    split; simpl; [done|]. apply Forall_app. split; [done|]. by constructor.
  - unfold addMidiClick. destruct (selectedId s), (modalForMidi s); nd_same.
  - unfold addCcClick. destruct (selectedId s), (modalForMidi s); nd_same.
  - by apply keydown_noDups.
  - destruct (selectedId s); [|nd_same]. by apply onMidiNote_noDups.
  - destruct (selectedId s); [|nd_same]. by apply onMidiCc_noDups.
  - unfold removeKey. destruct (modalForMidi s) as [t|]; [|nd_same].
    split; cbn [bindings keydownOnce persistBindings]; [|done].
    destruct (current_noDups (bindings s) t Hb) as (Hk & Hm & Hc).
    apply noDups_insert; simpl; try done. by apply NoDup_filter.
  - unfold removeMidi. destruct (modalForMidi s) as [t|]; [|nd_same].
    split; cbn [bindings keydownOnce persistBindings]; [|done].
    destruct (current_noDups (bindings s) t Hb) as (Hk & Hm & Hc).
    apply noDups_insert; simpl; try done. by apply NoDup_filter.
  - unfold removeCc. destruct (modalForMidi s) as [t|]; [|nd_same].
    split; cbn [bindings keydownOnce persistBindings]; [|done].
    destruct (current_noDups (bindings s) t Hb) as (Hk & Hm & Hc).
    apply noDups_insert; simpl; try done. by apply NoDup_filter.
  - split; simpl; [apply noDups_empty|done].
Qed.

Lemma run_noDups ops : forall s, Inv noDups s -> Inv noDups (run ops s).1.
Proof.
  induction ops as [|op ops IH]; intros s HI; [done|].
  rewrite run_step. cbn [fst]. apply IH. rewrite step_fst.
  pose proof (handle_noDups op s HI) as [H1 H2].
  destruct (rerender_same s (handle op s).1)
    as (_&_&_&_&_&_&_&_&_&E1&E2&_).
  split; by rewrite ?E1, ?E2.
Qed.

(** X25. Start from a table in which no list names anything twice, with
    no key capture armed.  After any sequence of events no list of any
    binding names a key, a note or a controller twice: every commit tests
    for membership first, and removals only filter. *)
Theorem lists_stay_duplicate_free :
  forall (ops : list Op) (s : State),
    noDups (bindings s) -> keydownOnce s = [] ->
    noDups (bindings (run ops s).1).
Proof.
  intros ops s Hn Hk. apply (run_noDups ops s).
  split; [done|]. rewrite Hk. constructor.
Qed.


Lemma lists_stay_duplicate_free_witness :
  noDups (bindings
    (run [SelectDevice "dev"; EditPad Snare; AddKeyClick; KeyDown "a";
          AddKeyClick; KeyDown "A"; AddMidiClick; MidiNote 60 100;
          AddMidiClick; MidiNote 60 90; RemoveKey "a"]
       (mount {| BINDING_KEY := None; LEGACY_KEYMAP_KEY := None |})).1).
Proof.
  apply lists_stay_duplicate_free; [apply noDups_empty | reflexivity].
Defined.

(** *** Removing a binding *)

Lemma no_owner_after_remove {A : Type} (f : PadBinding -> list A)
    (table : PadBindings) t b' x :
  (forall b1 b2, apart b1 b2 -> Forall (fun y => y ∉ f b2) (f b1)) ->
  unique table -> x ∈ f (current t table) -> x ∉ f b' ->
  forall t' b'', <[t := b']> table !! t' = Some b'' -> x ∉ f b''.
Proof.
  intros Hf Hu Hx Hb' t' b'' Hl. destruct (decide (t' = t)) as [->|Hne].
  - rewrite lookup_insert_eq in Hl. by injection Hl as <-.
  - rewrite lookup_insert_ne in Hl by done.
    pose proof (Hf _ _ (current_apart table t t' b'' Hu Hl Hne)) as Ha.
    rewrite Forall_forall in Ha. by apply Ha.
Qed.

Lemma not_in_filter_ne {A : Type} `{EqDecision A} (x : A) (l : list A) :
  x ∉ filter (fun y => y ≠ x) l.
Proof. intros Hin. apply list_elem_of_filter in Hin as [Hne _]. done. Qed.

Lemma keyMap_None (table : PadBindings) k :
  keyMap table !! k = None <-> forall t b, table !! t = Some b -> k ∉ keys b.
Proof.
  unfold keyMap. rewrite fromKeyEntries_None. split.
  - intros H t b Hl Hk. apply (H (Some t)). apply elem_of_keyMapEntries.
    by exists t, b.
  - intros H v Hv. apply elem_of_keyMapEntries in Hv.
    destruct Hv as (t & b & Hl & Hk & _). by apply (H t b).
Qed.

(** X26. Removing unbinds.  In a table without shared bindings, with the
    dialog open on target [t]: after a key of [t] is removed the key map
    has no entry for it, after an extra note of [t] is removed the note
    resolves to itself again, after a controller of [t] is removed it
    resolves to nothing; and no removal touches another target. *)
Theorem removal_unbinds :
  forall (s : State) (t : N),
    modalForMidi s = Some t -> unique (bindings s) ->
    (forall k, k ∈ keys (current t (bindings s)) ->
       keyMap (bindings (removeKey k s)) !! k = None)
    ∧ (forall n, n ∈ midis (current t (bindings s)) ->
         getResolvedIncomingMidi n (bindings (removeMidi n s)) = n)
    ∧ (forall c, c ∈ ccs (current t (bindings s)) ->
         getResolvedIncomingCc c (bindings (removeCc c s)) = None)
    ∧ (forall k n c t', t' ≠ t ->
         bindings (removeKey k s) !! t' = bindings s !! t'
         ∧ bindings (removeMidi n s) !! t' = bindings s !! t'
         ∧ bindings (removeCc c s) !! t' = bindings s !! t').
Proof.
  intros s t Hm Hu. unfold removeKey, removeMidi, removeCc. rewrite Hm.
  cbn [bindings persistBindings]. split; [|split; [|split]].
  - intros k Hk. apply keyMap_None.
    apply (no_owner_after_remove keys (bindings s) t _ k apart_keys Hu Hk).
    simpl. apply not_in_filter_ne.
  - intros n Hn. unfold getResolvedIncomingMidi. destruct (decide _); [done|].
    rewrite (proj2 (firstOwner_None midis n _)); [done|].
    apply (no_owner_after_remove midis (bindings s) t _ n apart_midis Hu Hn).
    simpl. apply not_in_filter_ne.
  - intros c Hc. unfold getResolvedIncomingCc. apply firstOwner_None.
    apply (no_owner_after_remove ccs (bindings s) t _ c apart_ccs Hu Hc).
    simpl. apply not_in_filter_ne.
  - intros k n c t' Hne. by rewrite !lookup_insert_ne.
Qed.

Lemma removal_unbinds_witness :
  let s := setModalForMidi (Some 36%N)
             (persistBindings
                (<[36%N := mkBinding ["a"] [60%N] [64%N]]> ∅)
                (mount {| BINDING_KEY := None; LEGACY_KEYMAP_KEY := None |})) in
  keyMap (bindings (removeKey "a" s)) !! "a" = None
  ∧ getResolvedIncomingMidi 60 (bindings (removeMidi 60 s)) = 60%N
  ∧ getResolvedIncomingCc 64 (bindings (removeCc 64 s)) = None.
Proof.
  cbv zeta.
  destruct (removal_unbinds
              (setModalForMidi (Some 36%N)
                 (persistBindings
                    (<[36%N := mkBinding ["a"] [60%N] [64%N]]> ∅)
                    (mount {| BINDING_KEY := None;
                              LEGACY_KEYMAP_KEY := None |})))
              36%N eq_refl ltac:(compute_done)) as (Hk & Hn & Hc & _).
  split; [|split].
  - apply Hk. by apply list_elem_of_singleton.
  - apply Hn. by apply list_elem_of_singleton.
  - apply Hc. by apply list_elem_of_singleton.
Defined.


(** *** From a controller capture to the pad it plays *)

Lemma step_AddCcClick s d t :
  selectedId s = Some d -> modalForMidi s = Some t ->
  sameButCcDown (step AddCcClick s).1
    (clearConflicts
       (setListenCcForMidi (Some t)
          (setListenMidiForMidi None (setListenKeyForMidi None s)))).
Proof.
  intros Hd Hm. pose proof (step_same AddCcClick s) as H.
  cbn [handle fst] in H. unfold addCcClick in H. by rewrite Hd, Hm in H.
Qed.

Lemma onMidiCc_commit t c v x :
  listenCcForMidi x = Some t -> (0 < v)%N ->
  otherOwner ccs t c (bindings x) = None ->
  (onMidiCc c v x).1
  = setListenCcForMidi None
      (if decide (c ∈ ccs (current t (bindings x))) then x
       else persistBindings
              (<[t := with_ccs (ccs (current t (bindings x)) ++ [c])
                        (current t (bindings x))]> (bindings x)) x).
Proof.
  intros Hl Hv Ho. unfold onMidiCc.
  rewrite Hl, decide_True by done. by rewrite Ho.
Qed.

Lemma insert_cc_owner (table : PadBindings) t c :
  exists b,
    (if decide (c ∈ ccs (current t table)) then table
     else <[t := with_ccs (ccs (current t table) ++ [c])
                          (current t table)]> table) !! t = Some b
    ∧ c ∈ ccs b.
Proof.
  destruct (decide _) as [Hin|Hin].
  - destruct (table !! t) as [b|] eqn:Hl.
    + rewrite (current_Some _ _ _ Hl) in Hin. by exists b.
    + rewrite (current_None _ _ Hl) in Hin. simpl in Hin.
      by apply elem_of_nil in Hin.
  - eexists. rewrite lookup_insert_eq. split; [done|]. simpl.
    apply elem_of_app. right. by apply list_elem_of_singleton.
Qed.

(** X27. From a controller capture to sound.  With a device selected and
    a table without shared bindings: open the dialog of pad [p], press
    "Add MIDI CC binding" and send a controller that no other target
    lists, with a value above 0.  The capture ends, the controller
    resolves to [p], and the controller memory is empty: the next value at
    or above the threshold flashes [p] and, when audio is enabled, plays
    it, also when the controller never went below the threshold in
    between. *)
Theorem captured_controller_plays_pad :
  forall (s : State) (p : DrumPad) (c v v' : N),
    is_Some (selectedId s) ->
    unique (bindings s) ->
    otherOwner ccs (PAD_TO_MIDI p) c (bindings s) = None ->
    (0 < v)%N -> (64 <= v')%N ->
    let s1 := (run [EditPad p; AddCcClick; MidiCc c v] s).1 in
    listenCcForMidi s1 = None
    ∧ getResolvedIncomingCc c (bindings s1) = Some (PAD_TO_MIDI p)
    ∧ ccDown s1 = ∅
    ∧ (step (MidiCc c v') s1).2
      = (if decide (c = 4%N) then [HiHatOpen v'] else [])
        ++ Flash p
           :: (if audioReady s
               then [TriggerMidi (PAD_TO_MIDI p) (N.max 1 (N.min 127 v'))]
               else []).
Proof.
  intros s p c v v' [d Hd] Hu Ho Hv Hv'. cbv zeta.
  set (t := PAD_TO_MIDI p) in *.
  rewrite !run_step. cbn [run fst].
  set (a := (step (EditPad p) s).1).
  pose proof (step_EditPad p s) as Ha. fold a in Ha. fold t in Ha.
  destruct Ha as (A1&A2&A3&A4&A5&A6&A7&A8&A9&A10&A11&A12). proj_simpl.
  set (b := (step AddCcClick a).1).
  pose proof (step_AddCcClick a d t) as Hb. fold b in Hb.
  destruct Hb as (B1&B2&B3&B4&B5&B6&B7&B8&B9&B10&B11&B12);
    [congruence|done|]. proj_simpl.
  set (e := (step (MidiCc c v) b).1).
  assert (He : e = rerender b (onMidiCc c v b).1).
  { unfold e. rewrite step_fst. cbn [handle]. by rewrite B1, A1, Hd. }
  rewrite (onMidiCc_commit t c v b) in He
    by (done || by rewrite B10, A10).
  rewrite B10, A10 in He.
  assert (Hc' : selectedId e = Some d ∧ audioReady e = audioReady s
                ∧ listenCcForMidi e = None ∧ ccDown e = ∅
                ∧ bindings e
                  = if decide (c ∈ ccs (current t (bindings s)))
                    then bindings s
                    else <[t := with_ccs (ccs (current t (bindings s)) ++ [c])
                                  (current t (bindings s))]> (bindings s)).
  { rewrite He. unfold rerender.
    destruct (decide (c ∈ ccs (current t (bindings s))));
      (destruct (decide _) as [Heq|Hneq];
       [unfold deps in Heq; proj_simpl; congruence|]);
      proj_simpl; repeat split; congruence. }
  clear He. destruct Hc' as (C1 & C2 & C6 & Ccc & Hbind).
  assert (Huc : unique (bindings e)).
  { rewrite Hbind. destruct (decide _); [done|]. by apply unique_add_cc. }
  assert (Hres : getResolvedIncomingCc c (bindings e) = Some t).
  { destruct (insert_cc_owner (bindings s) t c) as (bb & Hl & Hm).
    rewrite <- Hbind in Hl.
    by apply (firstOwner_unique ccs _ t bb c apart_ccs Huc Hl Hm). }
  do 3 (split; [done|]).
  rewrite step_snd. cbn [handle]. rewrite C1.
  unfold onMidiCc. cbv zeta. rewrite C6, Hres, Ccc, lookup_empty.
  unfold CC_TRIGGER_THRESHOLD.
  rewrite (bool_decide_eq_true_2 (64 ≤ v')%N) by done.
  cbn [negb orb default]. proj_simpl. rewrite C2. unfold t.
  rewrite flashFor_pad. by destruct (audioReady s).
Qed.

Lemma captured_controller_plays_pad_witness :
  let s := set_audioReady true
             (set_selectedId (Some "dev")
                (mount {| BINDING_KEY := None; LEGACY_KEYMAP_KEY := None |})) in
  (step (MidiCc 64 101)
        (run [EditPad Kick; AddCcClick; MidiCc 64 100] s).1).2
  = [Flash Kick; TriggerMidi 36 101].
Proof.
  cbv zeta.
  apply (captured_controller_plays_pad
           (set_audioReady true
              (set_selectedId (Some "dev")
                 (mount {| BINDING_KEY := None; LEGACY_KEYMAP_KEY := None |})))
           Kick 64 100 101);
    [by eexists | compute_done | reflexivity | reflexivity | by vm_compute].
Defined.


(** *** Audio stays locked *)

Lemma prepareAudio_locked u o ctx eng w :
  audioReady (core w) = false ->
  (prepareAudio u o ctx eng w).1 = false
  ∧ core (prepareAudio u o ctx eng w).2.2 = core w
  ∧ (prepareAudio u o ctx eng w).2.1.2 = eng.
Proof.
  intros Ha. unfold prepareAudio, ensureAudioStarted. rewrite Ha.
  cbn [orb]. destruct (loading w); [done|].
  by destruct (negb (ctxRunning ctx)).
Qed.

Lemma once_audioReady l key s : audioReady (once l key s) = audioReady s.
Proof. unfold once. by repeat case_match. Qed.

Lemma keydown_audioReady key s : audioReady (keydown key s) = audioReady s.
Proof.
  unfold keydown.
  change (audioReady s) with (audioReady (set_keydownOnce [] s)).
  generalize (set_keydownOnce [] s) as s0.
  induction (keydownOnce s) as [|l ls IH]; intros s0; [done|].
  simpl. by rewrite IH, once_audioReady.
Qed.

Lemma handle_audioReady op s : audioReady (handle op s).1 = audioReady s.
Proof.
  destruct op; cbn [handle fst]; try done.
  - unfold handlePadEdit. by destruct (padMidi p).
  - unfold addKeyClick. by destruct (modalForMidi s).
  - unfold addMidiClick. by destruct (selectedId s), (modalForMidi s).
  - unfold addCcClick. by destruct (selectedId s), (modalForMidi s).
  - apply keydown_audioReady.
  - destruct (selectedId s); [|done]. unfold onMidiNote. cbv zeta.
    by repeat case_match.
  - destruct (selectedId s); [|done]. unfold onMidiCc. cbv zeta.
    by repeat case_match.
  - unfold removeKey. by destruct (modalForMidi s).
  - unfold removeMidi. by destruct (modalForMidi s).
  - unfold removeCc. by destruct (modalForMidi s).
Qed.

Lemma handle_locked op s :
  audioReady s = false -> triggers (handle op s).2 = [].
Proof.
  intros Ha. destruct op; cbn [handle snd]; try done.
  - destruct (selectedId s); [|done]. unfold onMidiNote. cbv zeta.
    rewrite Ha. cbn [negb].
    repeat case_match; simplify_eq; cbn [snd]; try done;
      apply triggers_flashFor.
  - destruct (selectedId s); [|done]. unfold onMidiCc. cbv zeta.
    cbn [audioReady set_ccDown]. rewrite Ha. cbn [negb].
    repeat case_match; simplify_eq; cbn [snd];
      rewrite ?triggers_app, ?triggers_flashFor; try done;
      by destruct (decide (cc = 4%N)).
Qed.

Lemma run_locked ops : forall s,
  audioReady s = false ->
  audioReady (run ops s).1 = false ∧ triggers (run ops s).2 = [].
Proof.
  induction ops as [|op ops IH]; intros s Ha; [done|].
  rewrite run_step. cbn [fst snd].
  assert (Ha' : audioReady (step op s).1 = false).
  { destruct (step_same op s) as (_ & -> & _). by rewrite handle_audioReady. }
  destruct (IH _ Ha') as [E1 E2]. split; [done|].
  by rewrite triggers_app, E2, step_snd, handle_locked.
Qed.

(** X28. Audio is never enabled.  [prepareAudio] tests the result of
    [ensureAudioStarted], which is [undefined] whether or not the browser
    unlocked audio: as long as [audioReady] is false it returns false,
    loads no samples and leaves [audioReady] false.  So a click on a pad
    and a mapped key make no call on the audio backend and flash nothing,
    and no sequence of component events sets [audioReady] or makes the
    MIDI listeners call [triggerMidi]. *)
Theorem audio_is_never_enabled :
  (forall u o ctx eng w,
     audioReady (core w) = false ->
     let r := prepareAudio u o ctx eng w in
     r.1 = false ∧ core r.2.2 = core w ∧ r.2.1.2 = eng)
  ∧ (forall pad u o u' o' now ctx eng w,
       audioReady (core w) = false ->
       let r := handlePad false pad u o u' o' now ctx eng w in
       r.2 = Normal [] ∧ r.1.2 = [] ∧ r.1.1.1.2 = eng
       ∧ core r.1.1.2 = core w)
  ∧ (forall midi vel u o u' o' now ctx eng w,
       audioReady (core w) = false ->
       let r := onTrigger midi vel u o u' o' now ctx eng w in
       r.2 = Normal [] ∧ r.1.2 = [] ∧ r.1.1.1.2 = eng
       ∧ core r.1.1.2 = core w)
  ∧ (forall ops s,
       audioReady s = false ->
       audioReady (run ops s).1 = false ∧ triggers (run ops s).2 = []).
Proof.
  split; [|split; [|split]].
  - intros u o ctx eng w Ha. by apply prepareAudio_locked.
  - intros pad u o u' o' now ctx eng w Ha. cbv zeta. unfold handlePad.
    destruct (loading w); [done|].
    destruct (prepareAudio_locked u o ctx eng w Ha) as (E1 & E2 & E3).
    destruct (prepareAudio u o ctx eng w) as [ready [[ctx1 eng1] w1]].
    simpl in E1, E2, E3. by subst.
  - intros midi vel u o u' o' now ctx eng w Ha. cbv zeta. unfold onTrigger.
    destruct (loading w); [done|].
    destruct (prepareAudio_locked u o ctx eng w Ha) as (E1 & E2 & E3).
    destruct (prepareAudio u o ctx eng w) as [ready [[ctx1 eng1] w1]].
    simpl in E1, E2, E3. by subst.
  - intros ops s. apply run_locked.
Qed.

Lemma audio_is_never_enabled_witness :
  let w := mkShell (mount {| BINDING_KEY := None; LEGACY_KEYMAP_KEY := None |})
             false None Sampled in
  (prepareAudio true LoadOk {| ctxRunning := false |} Sampler.init w).1 = false
  ∧ (handlePad false Kick true LoadOk true LoadOk 0
       {| ctxRunning := false |} Sampler.init w).2 = Normal [].
Proof.
  cbv zeta. split.
  - apply (proj1 audio_is_never_enabled). reflexivity.
  - apply (proj1 (proj2 audio_is_never_enabled)). reflexivity.
Defined.

End BindingResolverMore.

(* ===================================================================== *)
(** * The metronome panel and the scheduler *)
(* ===================================================================== *)

Section PanelMirror.

Import Metronome MetronomePanel.










End PanelMirror.

(* ===================================================================== *)
(** * Resetting the bindings *)
(* ===================================================================== *)

Section ResetBindings.

Import Sampler MidiSampler.



End ResetBindings.
